(** * SmartAppContext (lib/util/smart-app-context.js): a shallow embedding

    The class normalises a lifecycle payload into a context object, keeps
    the remote API client of the context, and reads typed values out of the
    configuration map.  The code is dynamically typed JavaScript running in
    strict mode, so the embedding keeps its shape:

    - a JavaScript value is a primitive or a reference into a heap of
      objects; objects are shared by reference, so a write through one
      alias is seen through every other one;
    - a method is a computation in a state-and-exception monad over that
      heap (a [TypeError] is an exceptional result, not a missing case);
    - what the host or a collaborator provides (date parsing, number
      coercion, time formatting, i18n, the remote device endpoints, the
      context store) is a field of the record [Host].

    Scope of the object model: own data properties and, through the
    prototype chain, the members of [Object.prototype], which every object
    inherits (constructor, toString, ...): a key handed in by the caller
    can name one of them.  What the classes add to their own prototypes
    (the methods of arrays, of dates and of the instances of a class) is
    reached only where the source calls it.

    Time: a remote call settles at an instant given by the host.  The
    callbacks registered on its promise run after the code that registered
    them has returned, in the order in which the promises settle. *)

From Stdlib Require Import ZArith Ascii.
From stdpp Require Import gmap strings list fin_maps pretty sorting.

Set Warnings "-register-all".
Open Scope string_scope.
Open Scope list_scope.

(** ** Values, objects and the heap *)

Definition loc := nat.

(** A number is kept as the text [Number.prototype.toString] prints for it
    ("0", "12", "1.5", "NaN"): the code never computes with numbers, it only
    tests them for truthiness and passes them on. *)
Inductive value :=
| VUndef
| VNull
| VBool (b : bool)
| VNum (repr : string)
| VStr (s : string)
| VRef (l : loc)
| VInherited (k : string).   (* the member [k] of [Object.prototype], reached
                                through the prototype chain: a built-in
                                function, or for "__proto__" the prototype
                                object itself *)

Global Instance value_eq_dec : EqDecision value.
Proof. solve_decision. Defined.

Inductive class :=
| CObject            (* object literals and parsed JSON objects *)
| CSmartAppContext
| CSmartApp
| CSmartThingsApi
| CDevices           (* the [devices] endpoint of a SmartThingsApi *)
| CContextStore
| CMutex.

Global Instance class_eq_dec : EqDecision class.
Proof. solve_decision. Defined.

Inductive object :=
| Obj (c : class) (props : gmap string value)
| Arr (elems : list value)
| DateObj (t : option Z).   (* time value in ms; [None] is NaN, an Invalid Date *)

Inductive error :=
| TypeError
| RangeError
| Rejection (reason : string)   (* a failure reported by a collaborator *)
| Stuck.                        (* outside the model: dangling reference,
                                   expando property on an array or a date *)

Inductive result (A : Type) :=
| Ok (a : A)
| Throw (e : error).
Arguments Ok {A} a.
Arguments Throw {A} e.

(** Structured data arriving from outside (a parsed response body). *)
Inductive data :=
| DUndef
| DNull
| DBool (b : bool)
| DNum (repr : string)
| DStr (s : string)
| DArr (items : list data)
| DObj (fields : list (string * data)).

(** What a remote call settles to, and when. *)
Record response := Response {
  resp_at : nat;
  resp_outcome : result data
}.

(** A promise as seen once settled: fulfilled with a value or rejected with
    a reason, at a given instant. *)
Record promise := Promise {
  settled_at : nat;
  outcome : result value
}.

Inductive lookup_kind := GetDevice | GetState.

Record remote_call := RemoteCall {
  rc_kind : lookup_kind;
  rc_issued_at : nat;
  rc_arg : value;
  rc_response : response
}.

Record state := State {
  heap : list object;
  clock : nat;                  (* the instant the running code executes at *)
  calls : list remote_call      (* remote lookups issued so far, oldest first *)
}.

(** The host environment and the collaborators of the class. *)
Record Host := {
  host_ToNumber : list object -> value -> string;
  host_ToString : list object -> value -> string;   (* of an object *)
  host_Date_parse : list object -> value -> option Z;
  host_formatTime : list object -> Z -> value -> value -> result string;
  host_i18n_init : gmap string value -> gmap string value;
  host_devices_get : nat -> value -> response;
  host_devices_getState : nat -> value -> response;
  host_contextStore_get : value -> response;
  host_contextStore_delete : value -> result unit
}.

(** ** The monad *)

Definition M (A : Type) : Type := state -> state * result A.

Definition ret {A} (a : A) : M A := fun st => (st, Ok a).

Definition throw {A} (e : error) : M A := fun st => (st, Throw e).

Definition bind {A B} (c : M A) (k : A -> M B) : M B :=
  fun st =>
    match c st with
    | (st', Ok a) => k a st'
    | (st', Throw e) => (st', Throw e)
    end.

Notation "'let*' x ':=' c 'in' k" := (bind c (fun x => k))
  (at level 10, x name, c at level 100, k at level 200).
Notation "'let*' ' p ':=' c 'in' k" := (bind c (fun x => let 'p := x in k))
  (at level 10, p pattern, c at level 100, k at level 200).
Notation "c ';;;' k" := (bind c (fun _ => k))
  (at level 100, k at level 200, right associativity).

Definition when (b : bool) (c : M unit) : M unit :=
  if b then c else ret tt.

Fixpoint mapM {A B} (f : A -> M B) (l : list A) : M (list B) :=
  match l with
  | [] => ret []
  | x :: r =>
      let* y := f x in
      let* ys := mapM f r in
      ret (y :: ys)
  end.

(** ** Primitive operations *)

(** The properties of [Object.prototype].  Every object has it at the end
    of its prototype chain, and a primitive is boxed before a property is
    read from it, so these names are found on every value that has
    properties at all. *)
Definition Object_prototype : list string :=
  ["constructor"; "__defineGetter__"; "__defineSetter__"; "hasOwnProperty";
   "__lookupGetter__"; "__lookupSetter__"; "isPrototypeOf";
   "propertyIsEnumerable"; "toString"; "valueOf"; "__proto__";
   "toLocaleString"].

(** What a read of [k] gives when [k] is not an own property. *)
Definition inherited (k : string) : value :=
  if bool_decide (k ∈ Object_prototype) then VInherited k else VUndef.

(** ToBoolean. *)
Definition truthy (v : value) : bool :=
  match v with
  | VUndef | VNull => false
  | VBool b => b
  | VNum r => negb (bool_decide (r = "0") || bool_decide (r = "NaN"))
  | VStr s => negb (bool_decide (s = ""))
  | VRef _ | VInherited _ => true
  end.

(** [a || b] on values already computed. *)
Definition or_value (a b : value) : value := if truthy a then a else b.

(** An array index written as a property name ("0", "1", "12", ...). *)
Definition digit_of (a : ascii) : option nat :=
  let n := nat_of_ascii a in
  if bool_decide (48 <= n <= 57)%nat then Some (n - 48)%nat else None.

Fixpoint parse_digits (acc : nat) (s : string) : option nat :=
  match s with
  | EmptyString => Some acc
  | String a r =>
      match digit_of a with
      | Some d => parse_digits (10 * acc + d) r
      | None => None
      end
  end.

Definition index_of_key (k : string) : option nat :=
  match k with
  | EmptyString => None
  | _ =>
      match parse_digits 0 k with
      | Some n => if bool_decide (pretty n = k) then Some n else None
      | None => None
      end
  end.

Fixpoint string_nth (s : string) (i : nat) : option ascii :=
  match s, i with
  | EmptyString, _ => None
  | String a _, O => Some a
  | String _ r, S j => string_nth r j
  end.

Definition alloc (o : object) : M value :=
  fun st =>
    (State (heap st ++ [o]) (clock st) (calls st), Ok (VRef (length (heap st)))).

(** [v[k]] and [v.k]: an own property first, then the prototype chain.
    Of the chain the model has [Object.prototype]; what the classes add to
    their own prototypes (the methods of arrays, dates and class instances)
    is reached by the calls of the source only, see [array_elems] and
    [toLocaleTimeString].  An inherited member has no index properties;
    its other properties are outside the model. *)
Definition get_prop (v : value) (k : string) : M value :=
  fun st =>
    match v with
    | VUndef | VNull => (st, Throw TypeError)
    | VBool _ | VNum _ => (st, Ok (inherited k))
    | VStr s =>
        if bool_decide (k = "length") then (st, Ok (VNum (pretty (String.length s))))
        else match index_of_key k with
             | Some i =>
                 match string_nth s i with
                 | Some a => (st, Ok (VStr (String a EmptyString)))
                 | None => (st, Ok VUndef)
                 end
             | None => (st, Ok (inherited k))
             end
    | VRef l =>
        match heap st !! l with
        | Some (Obj _ m) => (st, Ok (default (inherited k) (m !! k)))
        | Some (Arr es) =>
            if bool_decide (k = "length") then (st, Ok (VNum (pretty (length es))))
            else match index_of_key k with
                 | Some i => (st, Ok (default VUndef (es !! i)))
                 | None => (st, Ok (inherited k))
                 end
        | Some (DateObj _) => (st, Ok (inherited k))
        | None => (st, Throw Stuck)
        end
    | VInherited _ =>
        match index_of_key k with
        | Some _ => (st, Ok VUndef)
        | None => (st, Throw Stuck)
        end
    end.

(** [v.k1.k2...kn]. *)
Fixpoint get_path (v : value) (ks : list string) : M value :=
  match ks with
  | [] => ret v
  | k :: r => let* w := get_prop v k in get_path w r
  end.

(** [v.k = x] in strict mode: a write to a primitive throws.  A write to
    an array, a date or an inherited member is outside the model. *)
Definition set_prop (v : value) (k : string) (x : value) : M unit :=
  fun st =>
    match v with
    | VRef l =>
        match heap st !! l with
        | Some (Obj c m) =>
            (State (<[l := Obj c (<[k := x]> m)]> (heap st)) (clock st) (calls st), Ok tt)
        | Some (Arr _) | Some (DateObj _) | None => (st, Throw Stuck)
        end
    | VInherited _ => (st, Throw Stuck)
    | _ => (st, Throw TypeError)
    end.

(** Building the object graph of a structured datum in the heap, as a JSON
    parser does: a later duplicate of a field replaces an earlier one. *)
Fixpoint alloc_data (d : data) (h : list object) : value * list object :=
  match d with
  | DUndef => (VUndef, h)
  | DNull => (VNull, h)
  | DBool b => (VBool b, h)
  | DNum r => (VNum r, h)
  | DStr s => (VStr s, h)
  | DArr items =>
      let '(vs, h') :=
        (fix go (l : list data) (h : list object) : list value * list object :=
           match l with
           | [] => ([], h)
           | x :: r =>
               let '(v, h1) := alloc_data x h in
               let '(vs, h2) := go r h1 in
               (v :: vs, h2)
           end) items h in
      (VRef (length h'), h' ++ [Arr vs])
  | DObj fields =>
      let '(m, h') :=
        (fix go (l : list (string * data)) (m : gmap string value) (h : list object)
           : gmap string value * list object :=
           match l with
           | [] => (m, h)
           | (k, x) :: r =>
               let '(v, h1) := alloc_data x h in
               go r (<[k := v]> m) h1
           end) fields ∅ h in
      (VRef (length h'), h' ++ [Obj CObject m])
  end.

Definition receive (d : data) : M value :=
  fun st =>
    let '(v, h) := alloc_data d (heap st) in
    (State h (clock st) (calls st), Ok v).

(** The promise a remote call returns: its body is received when the call
    settles. *)
Definition settle (r : response) : M promise :=
  match resp_outcome r with
  | Ok d => let* v := receive d in ret (Promise (resp_at r) (Ok v))
  | Throw e => ret (Promise (resp_at r) (Throw e))
  end.

(** Running a callback at the instant its promise settles: the clock shows
    that instant while the callback runs.  When the callback runs, with
    respect to the code that registered it, is decided by its caller, see
    [later]. *)
Definition at_instant {A} (t : nat) (c : M A) : M A :=
  fun st =>
    let '(st', r) := c (State (heap st) t (calls st)) in
    (State (heap st') (clock st) (calls st'), r).

(** The effect of [p.then(f)] once [p] has settled, where [f] returns a
    plain value: a rejection of [p] passes through, an exception in [f]
    rejects the new promise. *)
Definition then_ (p : promise) (f : value -> M value) : M promise :=
  match outcome p with
  | Throw e => ret p
  | Ok v =>
      fun st =>
        let '(st', r) := at_instant (settled_at p) (f v) st in
        (st', Ok (Promise (settled_at p) r))
  end.

(** The same where [f] returns a promise: the new promise follows it. *)
Definition then_promise (p : promise) (f : value -> M promise) : M promise :=
  match outcome p with
  | Throw e => ret p
  | Ok v =>
      fun st =>
        match at_instant (settled_at p) (f v) st with
        | (st', Ok q) => (st', Ok q)
        | (st', Throw e) => (st', Ok (Promise (settled_at p) (Throw e)))
        end
  end.

Definition is_rejected (p : promise) : bool :=
  match outcome p with Throw _ => true | Ok _ => false end.

(** The rejected promise that settles first (the earlier in the list among
    those settling at the same instant). *)
Fixpoint first_rejected (ps : list promise) : option promise :=
  match ps with
  | [] => None
  | p :: r =>
      match first_rejected r with
      | Some q =>
          if is_rejected p && bool_decide (settled_at p <= settled_at q)%nat
          then Some p else Some q
      | None => if is_rejected p then Some p else None
      end
  end.

Definition fulfilled_values (ps : list promise) : list value :=
  omap (fun p => match outcome p with Ok v => Some v | Throw _ => None end) ps.

(** [Promise.all(ps)]: rejected with the reason of the first promise to
    reject; otherwise fulfilled, once all are, with the values in the order
    of [ps]. *)
Definition Promise_all (ps : list promise) : M promise :=
  match first_rejected ps with
  | Some q => ret (Promise (settled_at q) (outcome q))
  | None =>
      fun st =>
        let '(st', r) := alloc (Arr (fulfilled_values ps)) st in
        (st', Ok (Promise (foldr (fun p t => settled_at p `max` t) (clock st) ps) r))
  end.

(** *** Callbacks run after the synchronous code

    A [then] callback never runs inside the code that registers it: it
    runs once that code has returned, when the promise it is registered on
    settles.  A method that registers callbacks in a loop is therefore
    modelled in two parts: the loop, which issues its remote calls and
    collects the promises, and [later], which runs the callbacks on the
    promises collected. *)

(** [v.m(...)] reads [m] from [v] before the arguments are evaluated: on
    [undefined] and [null] the read throws, and the arguments are not
    looked at. *)
Definition require_object (v : value) : M unit :=
  match v with
  | VUndef | VNull => throw TypeError
  | _ => ret tt
  end.

(** [items.forEach(f)] where each turn registers something: the turns run
    in order, and an exception ends the loop.  What the turns before it
    have registered stays registered. *)
Fixpoint forEach_push {A} (f : value -> M A) (items : list value)
  : M (list A * option error) :=
  match items with
  | [] => ret ([], None)
  | x :: r =>
      fun st =>
        match f x st with
        | (st', Ok y) =>
            (let* ' (ys, thrown) := forEach_push f r in ret (y :: ys, thrown)) st'
        | (st', Throw e) => (st', Ok ([], Some e))
        end
  end.

(** The order in which promises settle, as positions in the list of their
    registration: by instant, and by registration among those that settle
    at the same instant. *)
Fixpoint enumerate_from (n : nat) (ps : list promise) : list (nat * nat) :=
  match ps with
  | [] => []
  | p :: r => (n, settled_at p) :: enumerate_from (S n) r
  end.

Fixpoint insert_by_instant (x : nat * nat) (l : list (nat * nat)) : list (nat * nat) :=
  match l with
  | [] => [x]
  | y :: r =>
      if bool_decide (x.2 <= y.2)%nat then x :: l else y :: insert_by_instant x r
  end.

Definition settle_order (ps : list promise) : list nat :=
  (foldr insert_by_instant [] (enumerate_from 0 ps)).*1.

(** The callbacks registered on the promises of [pending] run in the order
    [order].  A callback is [f], applied to what its turn of the loop has
    kept for it and to the promise; the promise [then] hands
    back takes the place of the promise it was registered on. *)
Fixpoint run_later (f : value -> promise -> M promise) (order : list nat)
    (pending : list (value * promise)) : M (list (value * promise)) :=
  match order with
  | [] => ret pending
  | i :: r =>
      match pending !! i with
      | Some (kept, p) =>
          let* q := f kept p in
          run_later f r (<[i := (kept, q)]> pending)
      | None => run_later f r pending
      end
  end.

Definition later (f : value -> promise -> M promise)
    (pending : list (value * promise)) : M (list promise) :=
  let* done := run_later f (settle_order pending.*2) pending in
  ret done.*2.

(** [await p] inside an async function. *)
Definition await (p : promise) : M value :=
  match outcome p with
  | Ok v => ret v
  | Throw e => throw e
  end.

(** The result of calling an [async] method: what its promise settles to. *)
Inductive settled (A : Type) :=
| Fulfilled (a : A)
| Rejected (e : error).
Arguments Fulfilled {A} a.
Arguments Rejected {A} e.

Definition async {A} (c : M A) : M (settled A) :=
  fun st =>
    match c st with
    | (st', Ok a) => (st', Ok (Fulfilled a))
    | (st', Throw e) => (st', Ok (Rejected e))
    end.

(** What a method that may hand back a promise returns. *)
Inductive ret_value :=
| RetUndefined
| RetPromise (p : promise).

(** [Object.entries(v).length]. *)
Definition Object_entries_length (v : value) : M nat :=
  fun st =>
    match v with
    | VUndef | VNull => (st, Throw TypeError)
    | VBool _ | VNum _ => (st, Ok 0)
    | VStr s => (st, Ok (String.length s))
    | VRef l =>
        match heap st !! l with
        | Some (Obj _ m) => (st, Ok (size m))
        | Some (Arr es) => (st, Ok (length es))
        | Some (DateObj _) => (st, Ok 0)
        | None => (st, Throw Stuck)
        end
    | VInherited _ => (st, Throw Stuck)
    end.

(** [v.constructor === Object]. *)
Definition constructor_is_Object (v : value) : M bool :=
  fun st =>
    match v with
    | VUndef | VNull => (st, Throw TypeError)
    | VBool _ | VNum _ | VStr _ => (st, Ok false)
    | VRef l =>
        match heap st !! l with
        | Some (Obj c m) =>
            (st, Ok (bool_decide (c = CObject) && bool_decide (m !! "constructor" = None)))
        | Some (Arr _) | Some (DateObj _) => (st, Ok false)
        | None => (st, Throw Stuck)
        end
    | VInherited _ => (st, Throw Stuck)
    end.

(** [arr.forEach(f)] and [arr.map(f)] need an array: on any other truthy
    value the member is not a function. *)
Definition array_elems (v : value) : M (list value) :=
  fun st =>
    match v with
    | VRef l =>
        match heap st !! l with
        | Some (Arr es) => (st, Ok es)
        | Some _ => (st, Throw TypeError)
        | None => (st, Throw Stuck)
        end
    | _ => (st, Throw TypeError)
    end.

(** ** The class *)

Section SmartAppContext.

Variable host : Host.

(** Modelled from the spec: the constructor of SmartThingsApi ('../api' is
    required by the class but is not among the sources).  The client is
    built from the options it is given, keeps them in [client] (whose
    [authToken] is the inspectable current token), carries [locationId] and
    [installedAppId], and exposes the [devices] endpoint. *)
Definition new_SmartThingsApi (options : gmap string value) : M value :=
  let* client := alloc (Obj CObject options) in
  let* devices := alloc (Obj CDevices ∅) in
  alloc (Obj CSmartThingsApi
           (<["client" := client]>
           (<["devices" := devices]>
           (<["locationId" := default VUndef (options !! "locationId")]>
           (<["installedAppId" := default VUndef (options !! "installedAppId")]> ∅))))).

(** [devices.get(arg)] and [devices.getState(arg)]: the call is issued at
    the current instant and recorded. *)
Definition devices_call (kind : lookup_kind) (devices arg : value) : M promise :=
  fun st =>
    match devices with
    | VUndef | VNull => (st, Throw TypeError)
    | VRef l =>
        match heap st !! l with
        | Some (Obj CDevices _) =>
            let r := match kind with
                     | GetDevice => host_devices_get host (clock st) arg
                     | GetState => host_devices_getState host (clock st) arg
                     end in
            settle r (State (heap st) (clock st)
                        (calls st ++ [RemoteCall kind (clock st) arg r]))
        | Some _ => (st, Throw TypeError)
        | None => (st, Throw Stuck)
        end
    | _ => (st, Throw TypeError)
    end.

(** [store.get(id)], awaited. *)
Definition contextStore_get (store id : value) : M value :=
  fun st =>
    match store with
    | VUndef | VNull => (st, Throw TypeError)
    | VRef l =>
        match heap st !! l with
        | Some (Obj CContextStore _) =>
            (let* p := settle (host_contextStore_get host id) in await p) st
        | Some _ => (st, Throw TypeError)
        | None => (st, Throw Stuck)
        end
    | _ => (st, Throw TypeError)
    end.

(** [store.delete(id)], awaited. *)
Definition contextStore_delete (store id : value) : M unit :=
  fun st =>
    match store with
    | VUndef | VNull => (st, Throw TypeError)
    | VRef l =>
        match heap st !! l with
        | Some (Obj CContextStore _) => (st, host_contextStore_delete host id)
        | Some _ => (st, Throw TypeError)
        | None => (st, Throw Stuck)
        end
    | _ => (st, Throw TypeError)
    end.

(** [i18n.init(this)]: the library decorates the object it is given. *)
Definition i18n_init (this : value) : M unit :=
  fun st =>
    match this with
    | VRef l =>
        match heap st !! l with
        | Some (Obj c m) =>
            (State (<[l := Obj c (host_i18n_init host m)]> (heap st)) (clock st) (calls st),
             Ok tt)
        | _ => (st, Throw Stuck)
        end
    | _ => (st, Throw Stuck)
    end.

(** [this.field = <expression>]. *)
Definition assign (this : value) (field : string) (c : M value) : M unit :=
  let* v := c in set_prop this field v.

(** [(data.client && data.client.language) || data.locale]. *)
Definition client_language_or_locale (data : value) : M value :=
  let* client := get_prop data "client" in
  let* lang := (if truthy client then get_path data ["client"; "language"]
                else ret client) in
  if truthy lang then ret lang else get_prop data "locale".

(** The [switch] of the constructor; the result is the pair of the locals
    [authToken] and [refreshToken]. *)
Definition switch_lifecycle (this data discriminator : value) : M (value * value) :=
  if bool_decide (discriminator = VStr "EVENT") then
    let* authToken := get_path data ["eventData"; "authToken"] in
    assign this "executionId" (get_prop data "executionId") ;;;
    assign this "installedAppId" (get_path data ["eventData"; "installedApp"; "installedAppId"]) ;;;
    assign this "locationId" (get_path data ["eventData"; "installedApp"; "locationId"]) ;;;
    assign this "config" (get_path data ["eventData"; "installedApp"; "config"]) ;;;
    assign this "locale" (get_prop data "locale") ;;;
    ret (authToken, VUndef)
  else if bool_decide (discriminator = VStr "INSTALL") then
    let* authToken := get_path data ["installData"; "authToken"] in
    let* refreshToken := get_path data ["installData"; "refreshToken"] in
    assign this "executionId" (get_prop data "executionId") ;;;
    assign this "installedAppId" (get_path data ["installData"; "installedApp"; "installedAppId"]) ;;;
    assign this "locationId" (get_path data ["installData"; "installedApp"; "locationId"]) ;;;
    assign this "config" (get_path data ["installData"; "installedApp"; "config"]) ;;;
    assign this "locale" (client_language_or_locale data) ;;;
    ret (authToken, refreshToken)
  else if bool_decide (discriminator = VStr "UPDATE") then
    set_prop data "client" VUndef ;;;
    let* authToken := get_path data ["updateData"; "authToken"] in
    let* refreshToken := get_path data ["updateData"; "refreshToken"] in
    assign this "executionId" (get_prop data "executionId") ;;;
    assign this "installedAppId" (get_path data ["updateData"; "installedApp"; "installedAppId"]) ;;;
    assign this "locationId" (get_path data ["updateData"; "installedApp"; "locationId"]) ;;;
    assign this "config" (get_path data ["updateData"; "installedApp"; "config"]) ;;;
    assign this "locale" (client_language_or_locale data) ;;;
    ret (authToken, refreshToken)
  else if bool_decide (discriminator = VStr "CONFIGURATION") then
    assign this "executionId" (get_prop data "executionId") ;;;
    assign this "installedAppId" (get_path data ["configurationData"; "installedAppId"]) ;;;
    assign this "locationId" (get_path data ["configurationData"; "locationId"]) ;;;
    assign this "config" (get_path data ["configurationData"; "config"]) ;;;
    assign this "locale" (client_language_or_locale data) ;;;
    ret (VUndef, VUndef)
  else if bool_decide (discriminator = VStr "UNINSTALL") then
    assign this "executionId" (get_prop data "executionId") ;;;
    assign this "installedAppId" (get_path data ["uninstallData"; "installedApp"; "installedAppId"]) ;;;
    assign this "locationId" (get_path data ["uninstallData"; "installedApp"; "locationId"]) ;;;
    ret (VUndef, VUndef)
  else if bool_decide (discriminator = VStr "EXECUTE") then
    let* authToken := get_path data ["executeData"; "authToken"] in
    assign this "executionId" (get_prop data "executionId") ;;;
    assign this "installedAppId" (get_path data ["executeData"; "installedApp"; "installedAppId"]) ;;;
    assign this "locationId" (get_path data ["executeData"; "installedApp"; "locationId"]) ;;;
    assign this "config" (get_path data ["executeData"; "installedApp"; "config"]) ;;;
    assign this "locale" (get_path data ["executeData"; "parameters"; "locale"]) ;;;
    ret (authToken, VUndef)
  else
    let* authToken := get_prop data "authToken" in
    let* refreshToken := get_prop data "refreshToken" in
    set_prop this "executionId" (VStr "") ;;;
    assign this "installedAppId" (get_prop data "installedAppId") ;;;
    assign this "locationId" (get_prop data "locationId") ;;;
    assign this "config" (get_prop data "config") ;;;
    assign this "locale" (get_prop data "locale") ;;;
    ret (authToken, refreshToken).

(** The options literal both call sites of [new SmartThingsApi] build. *)
Definition api_options (this app authToken refreshToken : value)
    (apiMutex : M value) : M (gmap string value) :=
  let* clientId := get_prop app "_clientId" in
  let* clientSecret := get_prop app "_clientSecret" in
  let* log := get_prop app "_log" in
  let* apiUrl := get_prop app "_apiUrl" in
  let* refreshUrl := get_prop app "_refreshUrl" in
  let* locationId := get_prop this "locationId" in
  let* installedAppId := get_prop this "installedAppId" in
  let* contextStore := get_prop app "_contextStore" in
  let* apiMutex := apiMutex in
  ret (<["authToken" := authToken]>
      (<["refreshToken" := refreshToken]>
      (<["clientId" := clientId]>
      (<["clientSecret" := clientSecret]>
      (<["log" := log]>
      (<["apiUrl" := apiUrl]>
      (<["refreshUrl" := refreshUrl]>
      (<["locationId" := locationId]>
      (<["installedAppId" := installedAppId]>
      (<["contextStore" := contextStore]>
      (<["apiMutex" := apiMutex]> ∅))))))))))).

(** The first part of [new SmartAppContext(app, data, apiMutex)], up to
    the end of the [switch]: the payload is normalised into the fields of
    the new context.  The result is the new context with the locals
    [authToken] and [refreshToken]. *)
Definition normalize (app data apiMutex : value) : M (value * (value * value)) :=
  let* this := alloc (Obj CSmartAppContext ∅) in
  set_prop this "event" data ;;;
  set_prop this "app" app ;;;
  set_prop this "apiMutex" apiMutex ;;;
  assign this "api" (alloc (Obj CObject ∅)) ;;;
  let* messageType := get_prop data "messageType" in
  let* lifecycle := get_prop data "lifecycle" in
  let* tokens := switch_lifecycle this data (or_value lifecycle messageType) in
  ret (this, tokens).

(** The second part, after the [switch]: the localization headers and the
    remote client. *)
Definition localize_and_connect (app apiMutex this authToken refreshToken : value)
  : M value :=
  let* enabled := get_prop app "_localizationEnabled" in
  when (truthy enabled)
    (let* locale := get_prop this "locale" in
     when (truthy locale)
       (let* locale := get_prop this "locale" in
        assign this "headers" (alloc (Obj CObject {["accept-language" := locale]})) ;;;
        i18n_init this)) ;;;
  when (truthy authToken)
    (let* options := api_options this app authToken refreshToken (ret apiMutex) in
     assign this "api" (new_SmartThingsApi options)) ;;;
  ret this.

(** [new SmartAppContext(app, data, apiMutex)]; the result is the new
    context. *)
Definition constructor (app data apiMutex : value) : M value :=
  let* '(this, (authToken, refreshToken)) := normalize app data apiMutex in
  localize_and_connect app apiMutex this authToken refreshToken.

Definition isAuthenticated (this : value) : M bool :=
  let* api := get_prop this "api" in
  if negb (truthy api) then ret false else
  let* client := get_path this ["api"; "client"] in
  if negb (truthy client) then ret false else
  let* token := get_path this ["api"; "client"; "authToken"] in
  ret (truthy token).

Definition setLocationId (this id : value) : M unit :=
  set_prop this "locationId" id ;;;
  let* api := get_prop this "api" in
  when (truthy api)
    (let* api := get_prop this "api" in set_prop api "locationId" id).

Definition retrieveTokens (this : value) : M (settled value) :=
  async
    (let* app := get_prop this "app" in
     let* store := get_prop app "_contextStore" in
     when (truthy store)
       (let* store := get_prop app "_contextStore" in
        let* installedAppId := get_prop this "installedAppId" in
        let* data := contextStore_get store installedAppId in
        when (truthy data)
          (assign this "locationId" (get_prop data "locationId") ;;;
           let* authToken := get_prop data "authToken" in
           let* refreshToken := get_prop data "refreshToken" in
           let* options :=
             api_options this app authToken refreshToken
               (let* mutex := get_prop this "apiMutex" in
                if truthy mutex then ret mutex else alloc (Obj CMutex ∅)) in
           assign this "api" (new_SmartThingsApi options))) ;;;
     ret this).

Definition deleteContext (this : value) : M (settled unit) :=
  async
    (let* store := get_path this ["app"; "_contextStore"] in
     when (truthy store)
       (let* store := get_path this ["app"; "_contextStore"] in
        let* installedAppId := get_prop this "installedAppId" in
        contextStore_delete store installedAppId)).

(** *** Configuration accessors *)

(** [this.config[name]]. *)
Definition config_entry (this : value) (name : string) : M value :=
  let* config := get_prop this "config" in
  get_prop config name.

Definition configStringValue (this : value) (name : string) : M value :=
  let* entry := config_entry this name in
  if negb (truthy entry) then ret VUndef else
  get_path entry ["0"; "stringConfig"; "value"].

Definition configBooleanValue (this : value) (name : string) : M value :=
  let* entry := config_entry this name in
  if negb (truthy entry) then ret (VBool false) else
  let* v := get_path entry ["0"; "stringConfig"; "value"] in
  ret (VBool (bool_decide (v = VStr "true"))).

(** [Number(v)]. *)
Definition Number (v : value) : M value :=
  fun st => (st, Ok (VNum (host_ToNumber host (heap st) v))).

Definition configNumberValue (this : value) (name : string) : M value :=
  let* entry := config_entry this name in
  if negb (truthy entry) then ret VUndef else
  let* v := get_path entry ["0"; "stringConfig"; "value"] in
  Number v.

(** [new Date(v)]. *)
Definition new_Date (v : value) : M value :=
  fun st => alloc (DateObj (host_Date_parse host (heap st) v)) st.

Definition configDateValue (this : value) (name : string) : M value :=
  let* entry := config_entry this name in
  if negb (truthy entry) then ret VUndef else
  let* v := get_path entry ["0"; "stringConfig"; "value"] in
  new_Date v.

(** [date.toLocaleTimeString(locales, options)]: an Invalid Date prints as
    "Invalid Date" before the locale and the options are looked at;
    otherwise the host formats the time, or rejects them. *)
Definition toLocaleTimeString (date locales options : value) : M value :=
  fun st =>
    match date with
    | VRef l =>
        match heap st !! l with
        | Some (DateObj None) => (st, Ok (VStr "Invalid Date"))
        | Some (DateObj (Some t)) =>
            match host_formatTime host (heap st) t locales options with
            | Ok s => (st, Ok (VStr s))
            | Throw e => (st, Throw e)
            end
        | Some _ => (st, Throw TypeError)
        | None => (st, Throw Stuck)
        end
    | _ => (st, Throw TypeError)
    end.

(** [options] is [VUndef] when the caller leaves the argument out; the
    default [{}] is then a fresh object. *)
Definition configTimeString (this : value) (name : string) (options : value) : M value :=
  let* options := (if bool_decide (options = VUndef) then alloc (Obj CObject ∅)
                   else ret options) in
  let* entry := configDateValue this name in
  if negb (truthy entry) then ret VUndef else
  let* n := Object_entries_length options in
  let* plain := (if bool_decide (n = 0) then constructor_is_Object options
                 else ret false) in
  when plain
    (set_prop options "hour" (VStr "2-digit") ;;;
     set_prop options "minute" (VStr "2-digit")) ;;;
  let* locale := get_prop this "locale" in
  toLocaleTimeString entry locale options.

Definition configModeIds (this : value) (name : string) : M value :=
  let* entry := config_entry this name in
  if negb (truthy entry) then ret VUndef else
  let* items := array_elems entry in
  let* ids := mapM (fun it => get_path it ["modeConfig"; "modeId"]) items in
  alloc (Arr ids).

(** *** Device enrichment *)

(** The body of the [forEach] callback of both aggregates, as far as it
    runs inside the loop: [componentId] is read and the metadata lookup is
    issued.  The [then] callbacks are registered on the promise it hands
    back, with the [componentId] they close over. *)
Definition device_request (this item : value) : M (value * promise) :=
  let* componentId := get_path item ["deviceConfig"; "componentId"] in
  let* devices := get_path this ["api"; "devices"] in
  require_object devices ;;;
  let* deviceId := get_path item ["deviceConfig"; "deviceId"] in
  let* found := devices_call GetDevice devices deviceId in
  ret (componentId, found).

(** The [then] of [configDevices], and the first one of
    [configDevicesWithState]: the record of the device. *)
Definition describe (componentId : value) (found : promise) : M promise :=
  then_ found (fun device =>
    let* deviceId := get_prop device "deviceId" in
    let* name := get_prop device "name" in
    let* label := get_prop device "label" in
    alloc (Obj CObject
             (<["deviceId" := deviceId]>
             (<["name" := name]>
             (<["label" := label]>
             (<["componentId" := componentId]> ∅)))))).

(** A property name computed from a value ([ToPropertyKey]). *)
Definition property_key (v : value) : M string :=
  fun st =>
    match v with
    | VUndef => (st, Ok "undefined")
    | VNull => (st, Ok "null")
    | VBool true => (st, Ok "true")
    | VBool false => (st, Ok "false")
    | VNum r => (st, Ok r)
    | VStr s => (st, Ok s)
    | VRef _ | VInherited _ => (st, Ok (host_ToString host (heap st) v))
    end.

(** The two [then]s of [configDevicesWithState]: the state lookup is issued
    when the record is there, that is at the instant the metadata lookup
    settles, and its own callback adds the state to the record.  That last
    callback issues no lookup; the model runs it with the chain it ends. *)
Definition describe_with_state (this componentId : value) (found : promise)
  : M promise :=
  let* described := describe componentId found in
  then_promise described (fun entry =>
    let* devices := get_path this ["api"; "devices"] in
    require_object devices ;;;
    let* deviceId := get_prop entry "deviceId" in
    let* answered := devices_call GetState devices deviceId in
    then_ answered (fun state =>
      let* components := get_prop state "components" in
      let* key := property_key componentId in
      assign entry "state" (get_prop components key) ;;;
      ret entry)).

(** The loop issues every metadata lookup; the callbacks run afterwards,
    as the lookups settle; [Promise.all] gathers the promises in the order
    of the loop.  When a turn of the loop throws, so does the method. *)
Definition configDevices (this : value) (name : string) : M ret_value :=
  let* entry := config_entry this name in
  if negb (truthy entry) then ret RetUndefined else
  let* items := array_elems entry in
  let* ' (pending, thrown) := forEach_push (device_request this) items in
  let* list := later describe pending in
  match thrown with
  | Some e => throw e
  | None => let* all := Promise_all list in ret (RetPromise all)
  end.

Definition configDevicesWithState (this : value) (name : string) : M ret_value :=
  let* entry := config_entry this name in
  if negb (truthy entry) then ret RetUndefined else
  let* items := array_elems entry in
  let* ' (pending, thrown) := forEach_push (device_request this) items in
  let* list := later (describe_with_state this) pending in
  match thrown with
  | Some e => throw e
  | None => let* all := Promise_all list in ret (RetPromise all)
  end.

End SmartAppContext.

(** ** A concrete host and concrete payloads *)

Module Sample.

(** Two devices are known to the platform; the state of the second one
    cannot be fetched.  One ISO date string parses. *)
Definition lamp : data :=
  DObj [("deviceId", DStr "lamp"); ("name", DStr "bulb"); ("label", DStr "Desk lamp")].

Definition lock : data :=
  DObj [("deviceId", DStr "lock"); ("name", DStr "deadbolt"); ("label", DStr "Front door")].

Definition lamp_state : data :=
  DObj [("components", DObj [("main", DObj [("switch", DStr "on")])])].

Definition host : Host := {|
  host_ToNumber := fun _ v =>
    match v with
    | VStr s => match index_of_key s with Some _ => s | None => "NaN" end
    | _ => "NaN"
    end;
  host_ToString := fun _ _ => "[object Object]";
  host_Date_parse := fun _ v =>
    if bool_decide (v = VStr "2020-01-01T10:30:00Z") then Some 1577874600000%Z
    else None;
  host_formatTime := fun _ t _ _ =>
    if bool_decide (t = 1577874600000%Z) then Ok "10:30 AM" else Ok "12:00 AM";
  host_i18n_init := fun m => <["languages" := VNull]> m;
  host_devices_get := fun t id =>
    if bool_decide (id = VStr "lamp") then Response (t + 5) (Ok lamp)
    else if bool_decide (id = VStr "lock") then Response (t + 2) (Ok lock)
    else Response (t + 1) (Throw (Rejection "404"));
  host_devices_getState := fun t id =>
    if bool_decide (id = VStr "lamp") then Response (t + 3) (Ok lamp_state)
    else Response (t + 4) (Throw (Rejection "503"));
  host_contextStore_get := fun _ => Response 1 (Ok DUndef);
  host_contextStore_delete := fun _ => Ok tt
|}.

Definition obj (fields : list (string * value)) : object :=
  Obj CObject (list_to_map fields).

(** Heap cells 0..: the application, then one payload with what it
    references. *)
Definition app : object :=
  Obj CSmartApp (list_to_map [("_clientId", VStr "id"); ("_clientSecret", VStr "secret")]).

Definition config_cells (base : nat) : list object :=
  [ obj [("flag", VRef (base + 1)); ("when", VRef (base + 4)); ("bad", VRef (base + 7));
         ("sensors", VRef (base + 10))];
    Arr [VRef (base + 2)];
    obj [("stringConfig", VRef (base + 3))];
    obj [("value", VStr "true")];
    Arr [VRef (base + 5)];
    obj [("stringConfig", VRef (base + 6))];
    obj [("value", VStr "2020-01-01T10:30:00Z")];
    Arr [VRef (base + 8)];
    obj [("stringConfig", VRef (base + 9))];
    obj [("value", VStr "tomorrow-ish")];
    Arr [VRef (base + 11); VRef (base + 13)];
    obj [("deviceConfig", VRef (base + 12))];
    obj [("deviceId", VStr "lamp"); ("componentId", VStr "main")];
    obj [("deviceConfig", VRef (base + 14))];
    obj [("deviceId", VStr "lock"); ("componentId", VStr "bolt")] ].

(** An UPDATE payload whose client asks for French while the payload
    locale is English. *)
Definition update_payload : gmap string value :=
  list_to_map [("lifecycle", VStr "UPDATE"); ("executionId", VStr "e1");
               ("locale", VStr "en"); ("client", VRef 2); ("updateData", VRef 3)].

(** The same payload as an INSTALL. *)
Definition install_payload : gmap string value :=
  list_to_map [("lifecycle", VStr "INSTALL"); ("executionId", VStr "e1");
               ("locale", VStr "en"); ("client", VRef 2); ("installData", VRef 3)].

Definition uninstall_payload : gmap string value :=
  list_to_map [("lifecycle", VStr "UNINSTALL"); ("executionId", VStr "e2");
               ("uninstallData", VRef 2)].

(** A payload with a discriminator the switch does not know. *)
Definition proactive_payload : gmap string value :=
  list_to_map [("lifecycle", VStr "PING"); ("authToken", VStr "tok");
               ("refreshToken", VStr "ref"); ("installedAppId", VStr "app-1");
               ("locationId", VStr "loc-1"); ("config", VRef 2); ("locale", VStr "en")].

Definition update_heap : list object :=
  [ app;
    Obj CObject update_payload;
    obj [("language", VStr "fr")];
    obj [("authToken", VStr "tok"); ("refreshToken", VStr "ref"); ("installedApp", VRef 4)];
    obj [("installedAppId", VStr "app-1"); ("locationId", VStr "loc-1"); ("config", VRef 5)] ]
  ++ config_cells 5.

Definition install_heap : list object :=
  [ app;
    Obj CObject install_payload;
    obj [("language", VStr "fr")];
    obj [("authToken", VStr "tok"); ("refreshToken", VStr "ref"); ("installedApp", VRef 4)];
    obj [("installedAppId", VStr "app-1"); ("locationId", VStr "loc-1"); ("config", VRef 5)] ]
  ++ config_cells 5.

Definition uninstall_heap : list object :=
  [ app;
    Obj CObject uninstall_payload;
    obj [("installedApp", VRef 3)];
    obj [("installedAppId", VStr "app-1"); ("locationId", VStr "loc-1")] ].

Definition proactive_heap : list object :=
  [ app; Obj CObject proactive_payload ] ++ config_cells 2.

Definition start (h : list object) : state := State h 0 [].

(** The context built from a heap whose cell 0 is the application and
    cell 1 the payload. *)
Definition built (h : list object) : state * result value :=
  constructor host (VRef 0) (VRef 1) VUndef (start h).

(** The states the constructor leaves; the new context is cell 20 of the
    first and cell 4 of the second. *)
Definition updated : state := Eval vm_compute in (built update_heap).1.

Definition uninstalled : state := Eval vm_compute in (built uninstall_heap).1.

(** [updated] with an empty options object in a new cell, 25. *)
Definition with_options : state :=
  Eval vm_compute in (alloc (Obj CObject ∅) updated).1.

(** A context of an application that has a context store; the store of
    the sample host has nothing to give. *)
Definition with_store : state :=
  start [ Obj CSmartApp (list_to_map [("_contextStore", VRef 2)]);
          Obj CSmartAppContext
            (list_to_map [("app", VRef 0); ("installedAppId", VStr "app-1");
                          ("locationId", VStr "loc-1"); ("api", VRef 3)]);
          Obj CContextStore ∅;
          Obj CObject ∅ ].

(** The lookups [configDevicesWithState] issues for the two sensors, in the
    order in which it issues them: both devices are found, the lock first;
    the state of the lock cannot be fetched, the state of the lamp is. *)
Definition lookups : list remote_call :=
  Eval vm_compute in
    calls (configDevicesWithState host (VRef 20) "sensors" updated).1.

End Sample.

(** ** Vocabulary of the statements *)

(** The value read for [k] from an object with own properties [m]. *)
Definition prop (m : gmap string value) (k : string) : value :=
  default (inherited k) (m !! k).

Definition with_heap (st : state) (h : list object) : state :=
  State h (clock st) (calls st).

(** [this] is an object whose [config] is the map [mc]. *)
Definition has_config (st : state) (this : loc) (mc : gmap string value) : Prop :=
  exists c m cfg cc,
    heap st !! this = Some (Obj c m) /\
    m !! "config" = Some (VRef cfg) /\
    heap st !! cfg = Some (Obj cc mc).


(** The first entry of [entry] carries the scalar [v]:
    [entry[0].stringConfig.value] reads as [v]. *)
Definition first_string (st : state) (entry v : value) : Prop :=
  get_path entry ["0"; "stringConfig"; "value"] st = (st, Ok v).

(** What [this.config[name]] finds under [name]: nothing, the name being
    neither a key of the config map nor one of the names every object
    inherits, or an entry list whose first entry carries the scalar [v]. *)
Definition stored_string (st : state) (this : loc) (name : string)
    (stored : option value) : Prop :=
  exists mc,
    has_config st this mc /\
    match stored with
    | None => mc !! name = None /\ name ∉ Object_prototype
    | Some v =>
        exists entry,
          mc !! name = Some entry /\ truthy entry = true /\ first_string st entry v
    end.





(** The options [configTimeString] falls back to. *)
Definition default_time_options : gmap string value :=
  <["minute" := VStr "2-digit"]> (<["hour" := VStr "2-digit"]> ∅).

(** The discriminators the switch knows. *)
Definition lifecycles : list value :=
  [VStr "EVENT"; VStr "INSTALL"; VStr "UPDATE"; VStr "CONFIGURATION";
   VStr "UNINSTALL"; VStr "EXECUTE"].

(** [lifecycle || messageType] of a payload with own properties [m]. *)
Definition discriminator (m : gmap string value) : value :=
  or_value (prop m "lifecycle") (prop m "messageType").

(** A remote lookup that failed. *)
Definition failed (c : remote_call) : Prop :=
  exists e, resp_outcome (rc_response c) = Throw e.

(** The aggregate call failed: it threw, or the promise it returned is
    rejected. *)
Definition aggregate_failed (r : result ret_value) : Prop :=
  match r with
  | Throw _ => True
  | Ok (RetPromise p) => is_rejected p = true
  | Ok RetUndefined => False
  end.

(** Frames: a computation relates the state it starts in to the state it
    ends in. *)
Definition preserves {A} (R : relation state) (c : M A) : Prop :=
  forall st, R st (c st).1.

(** The cell [d] keeps its content. *)
Definition keeps (d : loc) : relation state :=
  fun st st' => forall o, heap st !! d = Some o -> heap st' !! d = Some o.

(** No remote lookup is issued. *)
Definition silent : relation state :=
  fun st st' => calls st' = calls st.

(** The cells [ls] hold objects with properties. *)
Definition is_object (st : state) (l : loc) : Prop :=
  exists c m, heap st !! l = Some (Obj c m).

Definition live (ls : list loc) (st : state) : Prop :=
  Forall (is_object st) ls.

(** A computation returns normally from every state that satisfies [I],
    and re-establishes [I]. *)
Definition succeeds {A} (I : state -> Prop) (c : M A) : Prop :=
  forall st, I st -> exists st' a, c st = (st', Ok a) /\ I st'.

(** The aggregate call, with or without the state lookups. *)
Definition device_aggregate (host : Host) (with_state : bool)
    (this : value) (name : string) : M ret_value :=
  if with_state then configDevicesWithState host this name
  else configDevices host this name.

(** A computation that hands back a promise and accounts for the lookups it
    issues: they are added to the record, and if one of them failed the
    promise is rejected. *)
Definition accountable (c : M promise) : Prop :=
  forall st, exists new,
    calls (c st).1 = calls st ++ new /\
    (Exists failed new ->
     match (c st).2 with Ok p => is_rejected p = true | Throw _ => True end).

(** A computation that continues the promise [p]: it cannot throw, and the
    promise it hands back is rejected if [p] is, or if a lookup it issued
    failed. *)
Definition follows (p : promise) (c : M promise) : Prop :=
  forall st, exists new,
    calls (c st).1 = calls st ++ new /\
    exists q, (c st).2 = Ok q /\
              (is_rejected p = true \/ Exists failed new -> is_rejected q = true).

(** The fields of a context right after its creation. *)
Definition fresh_context (app data apiMutex : value) (t : loc) : gmap string value :=
  <["api" := VRef (S t)]>
    (<["apiMutex" := apiMutex]> (<["app" := app]> (<["event" := data]> ∅))).

(** The value of [data.client && data.client.language] for the payload in
    cell [d], whose own properties are [md]. *)
Definition anded_language (st : state) (d : loc) (md : gmap string value)
    (lang : value) : Prop :=
  if truthy (prop md "client")
  then get_path (VRef d) ["client"; "language"] st = (st, Ok lang)
  else lang = prop md "client".

(** The payload field each known lifecycle keeps its data in. *)
Definition data_sections : list (string * string) :=
  [("EVENT", "eventData"); ("INSTALL", "installData"); ("UPDATE", "updateData");
   ("CONFIGURATION", "configurationData"); ("UNINSTALL", "uninstallData");
   ("EXECUTE", "executeData")].

(** The options the constructor of the client is called with, for a
    context with properties [mt] and an application with properties [ma]. *)
Definition client_options (mt ma : gmap string value)
    (authToken refreshToken apiMutex : value) : gmap string value :=
  <["authToken" := authToken]>
  (<["refreshToken" := refreshToken]>
  (<["clientId" := prop ma "_clientId"]>
  (<["clientSecret" := prop ma "_clientSecret"]>
  (<["log" := prop ma "_log"]>
  (<["apiUrl" := prop ma "_apiUrl"]>
  (<["refreshUrl" := prop ma "_refreshUrl"]>
  (<["locationId" := prop mt "locationId"]>
  (<["installedAppId" := prop mt "installedAppId"]>
  (<["contextStore" := prop ma "_contextStore"]>
  (<["apiMutex" := apiMutex]> ∅)))))))))).

(** The heap once a client with options [options] is built and stored in
    the [api] of the context in cell [t]. *)
Definition connected (h : list object) (t : loc) (c : class) (mt options : gmap string value)
  : list object :=
  <[t := Obj c (<["api" := VRef (S (S (length h)))]> mt)]>
    (h ++ [Obj CObject options;
           Obj CDevices ∅;
           Obj CSmartThingsApi
             (<["client" := VRef (length h)]>
             (<["devices" := VRef (S (length h))]>
             (<["locationId" := prop options "locationId"]>
             (<["installedAppId" := prop options "installedAppId"]> ∅))))]).

(** The metadata lookup issued at instant [now] for the device [id]. *)
Definition metadata_lookup (host : Host) (now : nat) (id : value) : remote_call :=
  RemoteCall GetDevice now id (host_devices_get host now id).

(** The value [v] is a record for the component [cid]. *)
Definition record_for (st : state) (cid v : value) : Prop :=
  exists l m, v = VRef l /\ heap st !! l = Some (Obj CObject m) /\
              m !! "componentId" = Some cid.

(** The entry [item] names the device [id] and its component [cid]. *)
Definition device_entry (st : state) (item cid id : value) : Prop :=
  get_path item ["deviceConfig"; "componentId"] st = (st, Ok cid) /\
  get_path item ["deviceConfig"; "deviceId"] st = (st, Ok id).

(** Every property of [v] can be read. *)
Definition readable (st : state) (v : value) : Prop :=
  forall k, exists x, get_prop v k st = (st, Ok x).

(** The metadata lookup answered by [r] gives the callbacks a device to
    describe: it has succeeded, with something that has properties. *)
Definition answers (r : response) : bool :=
  match resp_outcome r with
  | Ok DUndef | Ok DNull | Throw _ => false
  | Ok _ => true
  end.

(** The same, seen from the promise of the lookup. *)
Definition hands_over (p : promise) : bool :=
  match outcome p with
  | Ok VUndef | Ok VNull | Throw _ => false
  | Ok _ => true
  end.

(** The instant at which the callbacks on [p] issue a state lookup, if
    they issue one. *)
Definition state_lookup_instant (p : promise) : option nat :=
  if hands_over p then Some (settled_at p) else None.

(** What a turn of the loop registers for the entry naming the device
    [id] and the component [cid], at the instant [now]: the component, and
    the promise of the metadata lookup. *)
Definition registered (host : Host) (now : nat) (st : state)
    (e : value * value) (x : value * promise) : Prop :=
  let r := host_devices_get host now e.2 in
  x.1 = e.1 /\
  settled_at x.2 = resp_at r /\
  hands_over x.2 = answers r /\
  (forall v, outcome x.2 = Ok v -> hands_over x.2 = true -> readable st v).

(** ** Further payloads and contexts *)

Module Cases.

Import Sample.

(** An EVENT payload that names its kind in [messageType]. *)
Definition event_payload : gmap string value :=
  list_to_map [("messageType", VStr "EVENT"); ("executionId", VStr "e3");
               ("locale", VStr "en"); ("eventData", VRef 2)].

Definition event_heap : list object :=
  [ app;
    Obj CObject event_payload;
    obj [("authToken", VStr "tok"); ("installedApp", VRef 3)];
    obj [("installedAppId", VStr "app-1"); ("locationId", VStr "loc-1"); ("config", VRef 4)] ]
  ++ config_cells 4.

Definition execute_payload : gmap string value :=
  list_to_map [("lifecycle", VStr "EXECUTE"); ("executionId", VStr "e4");
               ("locale", VStr "en"); ("executeData", VRef 2)].

Definition execute_heap : list object :=
  [ app;
    Obj CObject execute_payload;
    obj [("authToken", VStr "tok"); ("installedApp", VRef 3); ("parameters", VRef 4)];
    obj [("installedAppId", VStr "app-1"); ("locationId", VStr "loc-1"); ("config", VRef 5)];
    obj [("locale", VStr "de")] ]
  ++ config_cells 5.

Definition configuration_payload : gmap string value :=
  list_to_map [("lifecycle", VStr "CONFIGURATION"); ("executionId", VStr "e5");
               ("locale", VStr "en"); ("client", VRef 2); ("configurationData", VRef 3)].

Definition configuration_heap : list object :=
  [ app;
    Obj CObject configuration_payload;
    obj [("language", VStr "fr")];
    obj [("installedAppId", VStr "app-1"); ("locationId", VStr "loc-1"); ("config", VRef 4)] ]
  ++ config_cells 4.

(** An INSTALL payload that lacks its data section. *)
Definition bare_payload : gmap string value :=
  list_to_map [("lifecycle", VStr "INSTALL"); ("executionId", VStr "e6")].

Definition bare_heap : list object := [ app; Obj CObject bare_payload ].

(** The context of the CONFIGURATION payload, cell 19: it has a config map
    and no client. *)
Definition configured : state := Eval vm_compute in (built configuration_heap).1.

(** A context whose config has three modes under one key and an empty
    entry list under another. *)
Definition mode_config : gmap string value :=
  list_to_map [("modes", VRef 2); ("none", VRef 9)].

Definition moded : state :=
  start [ Obj CSmartAppContext (list_to_map [("config", VRef 1); ("locale", VStr "en");
                                             ("api", VRef 10)]);
          Obj CObject mode_config;
          Arr [VRef 3; VRef 5; VRef 7];
          obj [("modeConfig", VRef 4)]; obj [("modeId", VStr "home")];
          obj [("modeConfig", VRef 6)]; obj [("modeId", VStr "away")];
          obj [("modeConfig", VRef 8)]; obj [("modeId", VStr "night")];
          Arr [];
          Obj CObject ∅ ].

(** [updated] with options that ask for a numeric hour, in cell 25. *)
Definition hour_options : gmap string value := {[ "hour" := VStr "numeric" ]}.

Definition with_hour : state := with_heap updated (heap updated ++ [Obj CObject hour_options]).

(** An application with localization enabled and a context that has a
    locale. *)
Definition localized : state :=
  start [ Obj CSmartApp (list_to_map [("_localizationEnabled", VBool true)]);
          Obj CSmartAppContext (list_to_map [("app", VRef 0); ("locale", VStr "fr")]) ].

(** A host whose context store knows the installed application. *)
Definition stored : data :=
  DObj [("authToken", DStr "tok-2"); ("refreshToken", DStr "ref-2");
        ("locationId", DStr "loc-2")].

Definition keeper : Host := {|
  host_ToNumber := host_ToNumber host;
  host_ToString := host_ToString host;
  host_Date_parse := host_Date_parse host;
  host_formatTime := host_formatTime host;
  host_i18n_init := host_i18n_init host;
  host_devices_get := host_devices_get host;
  host_devices_getState := host_devices_getState host;
  host_contextStore_get := fun _ => Response 4 (Ok stored);
  host_contextStore_delete := host_contextStore_delete host
|}.

(** What [configDevices] leaves and returns for the two sensors. *)
Definition sensors_state : state :=
  Eval vm_compute in (configDevices host (VRef 20) "sensors" updated).1.

Definition sensors_promise : promise :=
  Eval vm_compute in
    match (configDevices host (VRef 20) "sensors" updated).2 with
    | Ok (RetPromise p) => p
    | _ => Promise 0 (Throw TypeError)
    end.

End Cases.

(** ** Properties *)

(** ** Running computations step by step *)

Lemma bind_ok {A B} (c : M A) (k : A -> M B) st st' a :
  c st = (st', Ok a) -> bind c k st = k a st'.
Proof. intros H. unfold bind. rewrite H. reflexivity. Qed.

Lemma bind_throw {A B} (c : M A) (k : A -> M B) st st' e :
  c st = (st', Throw e) -> bind c k st = (st', Throw e).
Proof. intros H. unfold bind. rewrite H. reflexivity. Qed.

Lemma get_prop_obj st l c m k :
  heap st !! l = Some (Obj c m) ->
  get_prop (VRef l) k st = (st, Ok (prop m k)).
Proof. intros H. unfold get_prop. rewrite H. reflexivity. Qed.

Lemma get_prop_pure v k st : (get_prop v k st).1 = st.
Proof.
  unfold get_prop.
  repeat (case_match; simpl; try reflexivity).
Qed.

Lemma get_path_pure ks : forall v st, (get_path v ks st).1 = st.
Proof.
  induction ks as [|k ks IH]; intros v st; simpl; [reflexivity|].
  unfold bind. pose proof (get_prop_pure v k st) as Hp.
  destruct (get_prop v k st) as [st' [w|e]]; simpl in Hp; subst st'.
  - apply IH.
  - reflexivity.
Qed.

Lemma set_prop_obj st l c m k x :
  heap st !! l = Some (Obj c m) ->
  set_prop (VRef l) k x st
    = (with_heap st (<[l := Obj c (<[k := x]> m)]> (heap st)), Ok tt).
Proof. intros H. unfold set_prop. rewrite H. reflexivity. Qed.

Lemma Object_entries_length_obj st l c m :
  heap st !! l = Some (Obj c m) ->
  Object_entries_length (VRef l) st = (st, Ok (size m)).
Proof. intros H. unfold Object_entries_length. rewrite H. reflexivity. Qed.

Lemma constructor_is_Object_obj st l c m :
  heap st !! l = Some (Obj c m) ->
  constructor_is_Object (VRef l) st
  = (st, Ok (bool_decide (c = CObject) && bool_decide (m !! "constructor" = None))).
Proof. intros H. unfold constructor_is_Object. rewrite H. reflexivity. Qed.

Lemma alloc_run o st :
  alloc o st = (with_heap st (heap st ++ [o]), Ok (VRef (length (heap st)))).
Proof. reflexivity. Qed.

(** Reading is stable when the heap grows at its end. *)
Lemma get_prop_grow v k st x ext :
  get_prop v k st = (st, Ok x) ->
  get_prop v k (with_heap st (heap st ++ ext)) = (with_heap st (heap st ++ ext), Ok x).
Proof.
  unfold get_prop. destruct v; simpl;
    try (repeat case_match; intros Hr; inversion Hr; reflexivity).
  destruct (heap st !! l) as [o|] eqn:Hl; [|intros Hr; inversion Hr].
  rewrite (lookup_app_l_Some _ _ _ _ Hl).
  destruct o; repeat case_match; intros Hr; inversion Hr; reflexivity.
Qed.

Lemma get_path_grow ks : forall v st x ext,
  get_path v ks st = (st, Ok x) ->
  get_path v ks (with_heap st (heap st ++ ext)) = (with_heap st (heap st ++ ext), Ok x).
Proof.
  induction ks as [|k ks IH]; intros v st x ext; simpl.
  - unfold ret. intros H. inversion H. reflexivity.
  - unfold bind. pose proof (get_prop_pure v k st) as Hp.
    destruct (get_prop v k st) as [st' [w|e]] eqn:Hg; simpl in Hp; subst st'.
    + rewrite (get_prop_grow _ _ _ _ ext Hg). apply IH.
    + intros H. inversion H.
Qed.

Lemma config_entry_present st this mc name :
  has_config st this mc ->
  config_entry (VRef this) name st = (st, Ok (prop mc name)).
Proof.
  intros (c & m & cfg & cc & Ht & Hc & Hcfg). unfold config_entry.
  rewrite (bind_ok _ _ _ _ _ (get_prop_obj _ _ _ _ _ Ht)).
  unfold prop at 1. rewrite Hc. simpl.
  eapply get_prop_obj. exact Hcfg.
Qed.


Lemma has_config_grow st this mc ext :
  has_config st this mc -> has_config (with_heap st (heap st ++ ext)) this mc.
Proof.
  intros (c & m & cfg & cc & Ht & Hc & Hcfg).
  exists c, m, cfg, cc. simpl.
  rewrite (lookup_app_l_Some _ _ _ _ Ht), (lookup_app_l_Some _ _ _ _ Hcfg). auto.
Qed.








Lemma config_entry_stored st this name v :
  stored_string st this name (Some v) ->
  exists entry, config_entry (VRef this) name st = (st, Ok entry) /\
                truthy entry = true /\ first_string st entry v.
Proof.
  intros (mc & Hc & entry & He & Htr & Hv). exists entry.
  rewrite (config_entry_present _ _ _ _ Hc). unfold prop. rewrite He. auto.
Qed.

Section Accessors.

Context (host : Host).






Lemma toLocaleTimeString_date st l d locales options :
  heap st !! l = Some (DateObj d) ->
  toLocaleTimeString host (VRef l) locales options st
  = (st, match d with
         | None => Ok (VStr "Invalid Date")
         | Some t =>
             match host_formatTime host (heap st) t locales options with
             | Ok s => Ok (VStr s)
             | Throw e => Throw e
             end
         end).
Proof.
  intros H. unfold toLocaleTimeString. rewrite H.
  destruct d as [t|]; [|reflexivity].
  destruct (host_formatTime host (heap st) t locales options); reflexivity.
Qed.

Lemma configTimeString_omitted st this name :
  configTimeString host this name VUndef st
  = configTimeString host this name (VRef (length (heap st)))
      (with_heap st (heap st ++ [Obj CObject ∅])).
Proof. reflexivity. Qed.

Lemma configDateValue_stored st this name v :
  stored_string st this name (Some v) ->
  configDateValue host (VRef this) name st
  = (with_heap st (heap st ++ [DateObj (host_Date_parse host (heap st) v)]),
     Ok (VRef (length (heap st)))).
Proof.
  intros Hs. destruct (config_entry_stored _ _ _ _ Hs) as (entry & He & Htr & Hv).
  unfold configDateValue. rewrite (bind_ok _ _ _ _ _ He), Htr. simpl.
  rewrite (bind_ok _ _ _ _ _ Hv). reflexivity.
Qed.

Lemma configTimeString_empty_options st this c m name v o :
  stored_string st this name (Some v) ->
  heap st !! this = Some (Obj c m) ->
  heap st !! o = Some (Obj CObject ∅) ->
  configTimeString host (VRef this) name (VRef o) st
  = let d := host_Date_parse host (heap st) v in
    let st' := with_heap st (<[o := Obj CObject default_time_options]>
                               (heap st ++ [DateObj d])) in
    (st', match d with
          | None => Ok (VStr "Invalid Date")
          | Some t =>
              match host_formatTime host (heap st') t (prop m "locale") (VRef o) with
              | Ok s => Ok (VStr s)
              | Throw e => Throw e
              end
          end).
Proof.
  intros Hs Ht Ho.
  pose proof (lookup_lt_Some _ _ _ Ht) as Hlt.
  pose proof (lookup_lt_Some _ _ _ Ho) as Hlo.
  assert (Hne : o <> this).
  { intros ->. rewrite Ht in Ho. inversion Ho; subst.
    destruct Hs as (mc & (c' & m' & cfg & cc & Ht' & Hc & _) & _).
    rewrite Ht in Ht'. inversion Ht'; subst. rewrite lookup_empty in Hc. discriminate. }
  unfold configTimeString.
  rewrite (bind_ok _ _ st st (VRef o)) by reflexivity.
  rewrite (bind_ok _ _ _ _ _ (configDateValue_stored _ _ _ _ Hs)).
  cbn [truthy negb].
  set (d := host_Date_parse host (heap st) v).
  set (st1 := with_heap st (heap st ++ [DateObj d])).
  assert (Ho1 : heap st1 !! o = Some (Obj CObject ∅))
    by (apply lookup_app_l_Some; exact Ho).
  rewrite (bind_ok _ _ _ _ _ (Object_entries_length_obj _ _ _ _ Ho1)).
  rewrite map_size_empty, (bool_decide_eq_true_2 (0 = 0)) by reflexivity.
  rewrite (bind_ok _ _ st1 st1 true)
    by (rewrite (constructor_is_Object_obj _ _ _ _ Ho1); reflexivity).
  unfold when.
  rewrite (bind_ok _ _ st1
             (with_heap st (<[o := Obj CObject default_time_options]> (heap st1))) tt).
  2:{ rewrite (bind_ok _ _ _ _ _ (set_prop_obj _ _ _ _ "hour" (VStr "2-digit") Ho1)).
      erewrite set_prop_obj.
      2:{ simpl. apply list_lookup_insert_eq. rewrite length_app. simpl. lia. }
      simpl. rewrite list_insert_insert_eq. reflexivity. }
  set (st2 := with_heap st _).
  assert (Ht2 : heap st2 !! this = Some (Obj c m)).
  { simpl. rewrite list_lookup_insert_ne by exact Hne.
    apply lookup_app_l_Some. exact Ht. }
  rewrite (bind_ok _ _ _ _ _ (get_prop_obj _ _ _ _ "locale" Ht2)).
  assert (Hd : heap st2 !! length (heap st) = Some (DateObj d)).
  { simpl. rewrite list_lookup_insert_ne by lia.
    apply list_lookup_middle. reflexivity. }
  rewrite (toLocaleTimeString_date _ _ _ _ _ Hd). reflexivity.
Qed.

(** C10.  When the caller passes an empty plain object as [options] and the
    named date value exists, [configTimeString] writes into that very
    object: after the call it holds [hour] and [minute], both "2-digit". *)
Theorem configTimeString_fills_empty_options st this name v o :
  stored_string st this name (Some v) ->
  heap st !! o = Some (Obj CObject ∅) ->
  heap (configTimeString host (VRef this) name (VRef o) st).1 !! o
    = Some (Obj CObject default_time_options) /\
  default_time_options !! "hour" = Some (VStr "2-digit") /\
  default_time_options !! "minute" = Some (VStr "2-digit").
Proof.
  intros Hs Ho. split; [|split; reflexivity].
  destruct Hs as (mc & Hc & Hs).
  assert (Hs' : stored_string st this name (Some v)) by (exists mc; auto).
  destruct Hc as (c & m & cfg & cc & Ht & _).
  rewrite (configTimeString_empty_options _ _ _ _ _ _ _ Hs' Ht Ho). simpl.
  apply list_lookup_insert_eq. rewrite length_app.
  pose proof (lookup_lt_Some _ _ _ Ho). lia.
Qed.


End Accessors.

Lemma with_heap_same st : with_heap st (heap st) = st.
Proof. destruct st; reflexivity. Qed.

Lemma alloc_data_falsy d h :
  truthy (alloc_data d h).1 = false -> (alloc_data d h).2 = h.
Proof.
  destruct d; simpl; try reflexivity.
  - match goal with |- context [let '(_, _) := ?x in _] => destruct x end.
    simpl. discriminate.
  - match goal with |- context [let '(_, _) := ?x in _] => destruct x end.
    simpl. discriminate.
Qed.

Lemma receive_falsy d st :
  truthy (alloc_data d (heap st)).1 = false ->
  receive d st = (st, Ok (alloc_data d (heap st)).1).
Proof.
  intros Hf. unfold receive.
  pose proof (alloc_data_falsy _ _ Hf) as Hh.
  destruct (alloc_data d (heap st)) as [v h]. simpl in *. subst h.
  destruct st; reflexivity.
Qed.

Section Tokens.

Context (host : Host).

(** C5.  After [setLocationId(id)] the [locationId] of the context is [id],
    and so is the [locationId] of the object held in [api]: the remote
    client, when there is one, and the context agree. *)
Theorem setLocationId_updates_both_copies st this c m a ca ma id :
  heap st !! this = Some (Obj c m) ->
  m !! "api" = Some (VRef a) ->
  heap st !! a = Some (Obj ca ma) ->
  exists st',
    setLocationId (VRef this) id st = (st', Ok tt) /\
    get_prop (VRef this) "locationId" st' = (st', Ok id) /\
    get_path (VRef this) ["api"; "locationId"] st' = (st', Ok id).
Proof.
  intros Ht Hapi Ha.
  pose proof (lookup_lt_Some _ _ _ Ht) as Hlt.
  pose proof (lookup_lt_Some _ _ _ Ha) as Hla.
  unfold setLocationId.
  rewrite (bind_ok _ _ _ _ _ (set_prop_obj _ _ _ _ "locationId" id Ht)).
  set (st1 := with_heap st _).
  assert (Ht1 : heap st1 !! this = Some (Obj c (<["locationId" := id]> m)))
    by (apply list_lookup_insert_eq; exact Hlt).
  assert (Hapi1 : prop (<["locationId" := id]> m) "api" = VRef a).
  { unfold prop. rewrite lookup_insert_ne by discriminate. rewrite Hapi. reflexivity. }
  rewrite (bind_ok _ _ _ _ _ (get_prop_obj _ _ _ _ "api" Ht1)), Hapi1.
  cbn [truthy when].
  rewrite (bind_ok _ _ _ _ _ (get_prop_obj _ _ _ _ "api" Ht1)), Hapi1.
  destruct (decide (a = this)) as [-> | Hne].
  - rewrite (set_prop_obj _ _ _ _ "locationId" id Ht1).
    eexists. split; [reflexivity|].
    assert (Ht2 : heap (with_heap st1 (<[this := Obj c (<["locationId" := id]>
                     (<["locationId" := id]> m))]> (heap st1))) !! this
                  = Some (Obj c (<["locationId" := id]> (<["locationId" := id]> m)))).
    { apply list_lookup_insert_eq. simpl. rewrite length_insert. exact Hlt. }
    assert (Hapi2 : prop (<["locationId" := id]> (<["locationId" := id]> m)) "api" = VRef this).
    { unfold prop. rewrite !lookup_insert_ne by discriminate. rewrite Hapi. reflexivity. }
    split.
    + rewrite (get_prop_obj _ _ _ _ "locationId" Ht2).
      unfold prop. rewrite lookup_insert_eq. reflexivity.
    + cbn [get_path].
      rewrite (bind_ok _ _ _ _ _ (get_prop_obj _ _ _ _ "api" Ht2)), Hapi2.
      rewrite (bind_ok _ _ _ _ _ (get_prop_obj _ _ _ _ "locationId" Ht2)).
      unfold prop. rewrite lookup_insert_eq. reflexivity.
  - assert (Ha1 : heap st1 !! a = Some (Obj ca ma)).
    { simpl. rewrite list_lookup_insert_ne by congruence. exact Ha. }
    rewrite (set_prop_obj _ _ _ _ "locationId" id Ha1).
    eexists. split; [reflexivity|].
    set (st2 := with_heap st1 _).
    assert (Ht2 : heap st2 !! this = Some (Obj c (<["locationId" := id]> m))).
    { simpl. rewrite list_lookup_insert_ne by exact Hne.
      apply list_lookup_insert_eq. exact Hlt. }
    assert (Ha2 : heap st2 !! a = Some (Obj ca (<["locationId" := id]> ma))).
    { simpl. apply list_lookup_insert_eq. rewrite length_insert. exact Hla. }
    split.
    + rewrite (get_prop_obj _ _ _ _ "locationId" Ht2).
      unfold prop. rewrite lookup_insert_eq. reflexivity.
    + cbn [get_path].
      rewrite (bind_ok _ _ _ _ _ (get_prop_obj _ _ _ _ "api" Ht2)), Hapi1.
      rewrite (bind_ok _ _ _ _ _ (get_prop_obj _ _ _ _ "locationId" Ha2)).
      unfold prop. rewrite lookup_insert_eq. reflexivity.
Qed.

(** C8.  [retrieveTokens()] changes nothing and is fulfilled with the
    context itself when the application has no context store, and also when
    the store has nothing for this installed app. *)
Theorem retrieveTokens_without_stored_tokens st this c m a ca ma :
  heap st !! this = Some (Obj c m) ->
  m !! "app" = Some (VRef a) ->
  heap st !! a = Some (Obj ca ma) ->
  truthy (prop ma "_contextStore") = false \/
  (exists s ms t d,
     prop ma "_contextStore" = VRef s /\
     heap st !! s = Some (Obj CContextStore ms) /\
     host_contextStore_get host (prop m "installedAppId") = Response t (Ok d) /\
     truthy (alloc_data d (heap st)).1 = false) ->
  retrieveTokens host (VRef this) st = (st, Ok (Fulfilled (VRef this))).
Proof.
  intros Ht Happ Ha Hcase.
  assert (Happ' : prop m "app" = VRef a) by (unfold prop; rewrite Happ; reflexivity).
  unfold retrieveTokens, async.
  rewrite (bind_ok _ _ _ _ _ (get_prop_obj _ _ _ _ "app" Ht)), Happ'.
  rewrite (bind_ok _ _ _ _ _ (get_prop_obj _ _ _ _ "_contextStore" Ha)).
  destruct Hcase as [Hno | (s & ms & t & d & Hs & Hst & Hget & Hmiss)].
  - rewrite Hno. reflexivity.
  - rewrite Hs. cbn [truthy when].
    rewrite (bind_ok _ _ st st tt); [reflexivity|].
    rewrite (bind_ok _ _ _ _ _ (get_prop_obj _ _ _ _ "_contextStore" Ha)), Hs.
    rewrite (bind_ok _ _ _ _ _ (get_prop_obj _ _ _ _ "installedAppId" Ht)).
    rewrite (bind_ok _ _ st st (alloc_data d (heap st)).1).
    + rewrite Hmiss. reflexivity.
    + unfold contextStore_get. rewrite Hst, Hget. unfold settle. simpl.
      rewrite (bind_ok _ _ st st (Promise t (Ok (alloc_data d (heap st)).1))).
      * reflexivity.
      * rewrite (bind_ok _ _ _ _ _ (receive_falsy _ _ Hmiss)). reflexivity.
Qed.

End Tokens.

(** ** The context under construction: the heap is [h ++ Obj c m :: rest] *)

Lemma insert_middle {A} (h : list A) x y rest :
  <[length h := x]> (h ++ y :: rest) = h ++ x :: rest.
Proof. induction h as [|z h IH]; simpl; [reflexivity|]. f_equal. exact IH. Qed.

Lemma set_prop_middle st h c m rest k x :
  set_prop (VRef (length h)) k x (with_heap st (h ++ Obj c m :: rest))
  = (with_heap st (h ++ Obj c (<[k := x]> m) :: rest), Ok tt).
Proof.
  erewrite set_prop_obj by (simpl; apply list_lookup_middle; reflexivity).
  simpl. rewrite insert_middle. reflexivity.
Qed.

Lemma get_prop_middle st h c m rest k :
  get_prop (VRef (length h)) k (with_heap st (h ++ Obj c m :: rest))
  = (with_heap st (h ++ Obj c m :: rest), Ok (prop m k)).
Proof. apply (get_prop_obj _ _ c). simpl. apply list_lookup_middle. reflexivity. Qed.

Lemma get_prop_left st h rest l c m k :
  h !! l = Some (Obj c m) ->
  get_prop (VRef l) k (with_heap st (h ++ rest))
  = (with_heap st (h ++ rest), Ok (prop m k)).
Proof. intros H. apply (get_prop_obj _ _ c). simpl. apply lookup_app_l_Some. exact H. Qed.

Lemma assign_middle st h c m rest k (e : M value) v :
  e (with_heap st (h ++ Obj c m :: rest)) = (with_heap st (h ++ Obj c m :: rest), Ok v) ->
  assign (VRef (length h)) k e (with_heap st (h ++ Obj c m :: rest))
  = (with_heap st (h ++ Obj c (<[k := v]> m) :: rest), Ok tt).
Proof.
  intros He. unfold assign. rewrite (bind_ok _ _ _ _ _ He). apply set_prop_middle.
Qed.

Lemma normalize_run app d cd md apiMutex st :
  heap st !! d = Some (Obj cd md) ->
  normalize app (VRef d) apiMutex st
  = (let* tokens := switch_lifecycle (VRef (length (heap st))) (VRef d) (discriminator md) in
     ret (VRef (length (heap st)), tokens))
      (with_heap st
         (heap st ++ [Obj CSmartAppContext
                        (fresh_context app (VRef d) apiMutex (length (heap st)));
                      Obj CObject ∅])).
Proof.
  intros Hd. unfold normalize.
  rewrite (bind_ok _ _ _ _ _ (alloc_run _ _)).
  rewrite (bind_ok _ _ _ _ _ (set_prop_middle st (heap st) _ _ [] "event" (VRef d))).
  rewrite (bind_ok _ _ _ _ _ (set_prop_middle st (heap st) _ _ [] "app" app)).
  rewrite (bind_ok _ _ _ _ _ (set_prop_middle st (heap st) _ _ [] "apiMutex" apiMutex)).
  rewrite (bind_ok _ _ _
             (with_heap st (heap st ++ [Obj CSmartAppContext
                        (fresh_context app (VRef d) apiMutex (length (heap st)));
                      Obj CObject ∅])) tt).
  2:{ unfold assign. rewrite (bind_ok _ _ _ _ _ (alloc_run _ _)). simpl heap.
      rewrite <- app_assoc. cbn [Datatypes.app].
      replace (length (heap st ++ [Obj CSmartAppContext
                 (<["apiMutex":=apiMutex]> (<["app":=app]> (<["event":=VRef d]> ∅)))]))
        with (S (length (heap st))) by (rewrite length_app; simpl; lia).
      apply (set_prop_middle st (heap st)). }
  rewrite (bind_ok _ _ _ _ _ (get_prop_left _ _ _ _ _ _ "messageType" Hd)).
  rewrite (bind_ok _ _ _ _ _ (get_prop_left _ _ _ _ _ _ "lifecycle" Hd)).
  reflexivity.
Qed.

(** ** Frames *)

Global Instance keeps_preorder d : PreOrder (keeps d).
Proof. split; [intros st o H; exact H | intros a b c H1 H2 o H; auto]. Qed.

Global Instance silent_preorder : PreOrder silent.
Proof. split; [intros st; reflexivity | intros a b c H1 H2; unfold silent in *; congruence]. Qed.

Section Preserves.

Context (R : relation state) `{!PreOrder R}.

Lemma preserves_ret {A} (a : A) : preserves R (ret a).
Proof. intros st. reflexivity. Qed.

Lemma preserves_bind {A B} (c : M A) (k : A -> M B) :
  preserves R c -> (forall a, preserves R (k a)) -> preserves R (bind c k).
Proof.
  intros Hc Hk st. unfold bind. specialize (Hc st).
  destruct (c st) as [st1 [a|e]]; simpl in *.
  - etransitivity; [exact Hc | apply Hk].
  - exact Hc.
Qed.

Lemma preserves_when b (c : M unit) : preserves R c -> preserves R (when b c).
Proof. intros Hc. destruct b; [exact Hc | apply preserves_ret]. Qed.

Lemma preserves_mapM {A B} (f : A -> M B) l :
  (forall x, preserves R (f x)) -> preserves R (mapM f l).
Proof.
  intros Hf. induction l as [|x l IH]; simpl.
  - apply preserves_ret.
  - apply preserves_bind; [apply Hf|]. intros y.
    apply preserves_bind; [exact IH|]. intros ys. apply preserves_ret.
Qed.

Lemma preserves_pure {A} (c : M A) : (forall st, (c st).1 = st) -> preserves R c.
Proof. intros H st. rewrite H. reflexivity. Qed.

Lemma preserves_get_prop v k : preserves R (get_prop v k).
Proof. apply preserves_pure. apply get_prop_pure. Qed.

Lemma preserves_get_path v ks : preserves R (get_path v ks).
Proof. apply preserves_pure. intros st. apply get_path_pure. Qed.

Lemma preserves_assign this k e :
  preserves R e -> (forall v, preserves R (set_prop this k v)) ->
  preserves R (assign this k e).
Proof. intros He Hs. apply preserves_bind; assumption. Qed.

End Preserves.

(** What leaves a cell alone. *)
Lemma keeps_alloc d o : preserves (keeps d) (alloc o).
Proof. intros st x H. simpl. apply lookup_app_l_Some. exact H. Qed.

Lemma keeps_set_prop d v k x : v <> VRef d -> preserves (keeps d) (set_prop v k x).
Proof.
  intros Hne st o H. unfold set_prop.
  destruct v; try exact H.
  destruct (heap st !! l) as [[c m| |]|] eqn:Hl; simpl; try exact H.
  rewrite list_lookup_insert_ne by congruence. exact H.
Qed.

Lemma keeps_i18n_init host d v : v <> VRef d -> preserves (keeps d) (i18n_init host v).
Proof.
  intros Hne st o H. unfold i18n_init.
  destruct v; try exact H.
  destruct (heap st !! l) as [[c m| |]|] eqn:Hl; simpl; try exact H.
  rewrite list_lookup_insert_ne by congruence. exact H.
Qed.

Lemma keeps_new_SmartThingsApi d options : preserves (keeps d) (new_SmartThingsApi options).
Proof.
  unfold new_SmartThingsApi.
  repeat (apply preserves_bind; [apply _ | apply keeps_alloc | intros ?]).
  apply keeps_alloc.
Qed.

Lemma keeps_api_options d this app authToken refreshToken mutex :
  preserves (keeps d) mutex ->
  preserves (keeps d) (api_options this app authToken refreshToken mutex).
Proof.
  intros Hm. unfold api_options.
  repeat (apply preserves_bind; [apply _ | apply preserves_get_prop; apply _ | intros ?]).
  apply preserves_bind; [apply _ | exact Hm | intros ?].
  apply preserves_ret; apply _.
Qed.

Lemma client_language_or_locale_pure data s :
  (client_language_or_locale data s).1 = s.
Proof.
  unfold client_language_or_locale, bind.
  pose proof (get_prop_pure data "client" s) as H1.
  destruct (get_prop data "client" s) as [s1 [client|e]]; simpl in H1; subst s1;
    [|reflexivity].
  assert (H2 : ((if truthy client then get_path data ["client"; "language"]
                 else ret client) s).1 = s).
  { destruct (truthy client); [apply get_path_pure | reflexivity]. }
  destruct ((if truthy client then get_path data ["client"; "language"] else ret client) s)
    as [s2 [lang|e]]; simpl in H2; subst s2; [|reflexivity].
  destruct (truthy lang); [reflexivity | apply get_prop_pure].
Qed.

Lemma keeps_client_language_or_locale d data :
  preserves (keeps d) (client_language_or_locale data).
Proof.
  apply preserves_pure; [apply _|]. apply client_language_or_locale_pure.
Qed.

Ltac keeps_step :=
  first
    [ apply preserves_ret; apply _
    | apply preserves_get_prop; apply _
    | apply preserves_get_path; apply _
    | apply keeps_alloc
    | apply keeps_client_language_or_locale
    | apply keeps_new_SmartThingsApi
    | apply keeps_api_options
    | apply keeps_set_prop; congruence
    | apply keeps_i18n_init; congruence
    | apply preserves_when; [apply _|]
    | apply preserves_assign; [apply _| |intros ?]
    | apply preserves_bind; [apply _| |intros ?] ].

Lemma keeps_localize_and_connect host d app apiMutex this authToken refreshToken :
  this <> VRef d ->
  preserves (keeps d) (localize_and_connect host app apiMutex this authToken refreshToken).
Proof.
  intros Hne. unfold localize_and_connect.
  repeat keeps_step.
Qed.

Lemma bind_assoc {A B C} (c : M A) (k1 : A -> M B) (k2 : B -> M C) st :
  bind (bind c k1) k2 st = bind c (fun a => bind (k1 a) k2) st.
Proof. unfold bind. destruct (c st) as [st1 [a|e]]; reflexivity. Qed.

Lemma preserves_bind_ret (R : relation state) {A B} (a : A) (k : A -> M B) :
  preserves R (k a) -> preserves R (bind (ret a) k).
Proof. intros H st. exact (H st). Qed.

Lemma bind_run_eq {A B} (c c' : M A) (k : A -> M B) st st' :
  c st = c' st' -> bind c k st = bind c' k st'.
Proof. intros H. unfold bind. rewrite H. reflexivity. Qed.

Lemma bind_ok_inv {A B} (c : M A) (k : A -> M B) st st' b :
  bind c k st = (st', Ok b) ->
  exists st1 a, c st = (st1, Ok a) /\ k a st1 = (st', Ok b).
Proof.
  unfold bind. destruct (c st) as [st1 [a|e]]; [|discriminate].
  intros H. exists st1, a. auto.
Qed.

Lemma localize_and_connect_result host app apiMutex this authToken refreshToken st st' v :
  localize_and_connect host app apiMutex this authToken refreshToken st = (st', Ok v) ->
  v = this.
Proof.
  unfold localize_and_connect. intros H.
  apply bind_ok_inv in H as (s1 & enabled & _ & H).
  apply bind_ok_inv in H as (s2 & [] & _ & H).
  apply bind_ok_inv in H as (s3 & [] & _ & H).
  inversion H. reflexivity.
Qed.

(** One step of a computation whose outcome is known. *)
Tactic Notation "run" uconstr(H) :=
  rewrite ?bind_assoc; rewrite (bind_ok _ _ _ _ _ H); cbv beta.

Lemma constructor_run host app data apiMutex st :
  constructor host app data apiMutex st
  = bind (normalize app data apiMutex)
      (fun r => localize_and_connect host app apiMutex r.1 r.2.1 r.2.2) st.
Proof.
  unfold constructor, bind.
  destruct (normalize app data apiMutex st) as [st1 [[this [a r]]|e]]; reflexivity.
Qed.

(** ** Computations that cannot throw *)

Lemma live_grow ls st ext : live ls st -> live ls (with_heap st (heap st ++ ext)).
Proof.
  unfold live. intros Hl. eapply Forall_impl; [exact Hl|].
  intros l (c & m & H). exists c, m.
  simpl. apply lookup_app_l_Some. exact H.
Qed.

Lemma live_update ls st l c m :
  live ls st -> live ls (with_heap st (<[l := Obj c m]> (heap st))).
Proof.
  unfold live. intros Hl. eapply Forall_impl; [exact Hl|].
  intros l' (c' & m' & H). simpl.
  destruct (decide (l = l')) as [<- | Hne].
  - exists c, m. simpl. apply list_lookup_insert_eq. eapply lookup_lt_Some. exact H.
  - exists c', m'. simpl. rewrite list_lookup_insert_ne by exact Hne. exact H.
Qed.

Lemma live_elem ls st l : live ls st -> l ∈ ls -> is_object st l.
Proof. unfold live. rewrite Forall_forall. auto. Qed.

Section Succeeds.

Context (ls : list loc).

Lemma succeeds_ret {A} (a : A) : succeeds (live ls) (ret a).
Proof. intros st H. exists st, a. auto. Qed.

Lemma succeeds_bind {A B} (c : M A) (k : A -> M B) :
  succeeds (live ls) c -> (forall a, succeeds (live ls) (k a)) ->
  succeeds (live ls) (bind c k).
Proof.
  intros Hc Hk st H. destruct (Hc st H) as (st1 & a & E & H1).
  rewrite (bind_ok _ _ _ _ _ E). apply Hk. exact H1.
Qed.

Lemma succeeds_when b (c : M unit) :
  succeeds (live ls) c -> succeeds (live ls) (when b c).
Proof. intros Hc. destruct b; [exact Hc | apply succeeds_ret]. Qed.

Lemma succeeds_get_prop l k : l ∈ ls -> succeeds (live ls) (get_prop (VRef l) k).
Proof.
  intros Hl st H. destruct (live_elem _ _ _ H Hl) as (c & m & E).
  exists st, (prop m k). split; [apply (get_prop_obj _ _ c); exact E | exact H].
Qed.

Lemma succeeds_set_prop l k x : l ∈ ls -> succeeds (live ls) (set_prop (VRef l) k x).
Proof.
  intros Hl st H. destruct (live_elem _ _ _ H Hl) as (c & m & E).
  eexists _, tt. split; [apply set_prop_obj; exact E | apply live_update; exact H].
Qed.

Lemma succeeds_alloc o : succeeds (live ls) (alloc o).
Proof.
  intros st H. eexists _, _. split; [apply alloc_run | apply live_grow; exact H].
Qed.

Lemma succeeds_assign l k e :
  l ∈ ls -> succeeds (live ls) e -> succeeds (live ls) (assign (VRef l) k e).
Proof.
  intros Hl He. apply succeeds_bind; [exact He|]. intros v.
  apply succeeds_set_prop. exact Hl.
Qed.

Lemma succeeds_i18n_init host l : l ∈ ls -> succeeds (live ls) (i18n_init host (VRef l)).
Proof.
  intros Hl st H. destruct (live_elem _ _ _ H Hl) as (c & m & E).
  eexists _, tt. split.
  - unfold i18n_init. rewrite E. reflexivity.
  - apply live_update. exact H.
Qed.

Lemma succeeds_new_SmartThingsApi options :
  succeeds (live ls) (new_SmartThingsApi options).
Proof.
  unfold new_SmartThingsApi.
  repeat (apply succeeds_bind; [apply succeeds_alloc | intros ?]).
  apply succeeds_alloc.
Qed.

Lemma succeeds_api_options this app authToken refreshToken mutex :
  this ∈ ls -> app ∈ ls -> succeeds (live ls) mutex ->
  succeeds (live ls)
    (api_options (VRef this) (VRef app) authToken refreshToken mutex).
Proof.
  intros Ht Ha Hm. unfold api_options.
  repeat (apply succeeds_bind; [apply succeeds_get_prop; assumption | intros ?]).
  apply succeeds_bind; [exact Hm | intros ?].
  apply succeeds_ret.
Qed.

Lemma succeeds_localize_and_connect host app apiMutex this authToken refreshToken :
  this ∈ ls -> app ∈ ls ->
  succeeds (live ls)
    (localize_and_connect host (VRef app) apiMutex (VRef this) authToken refreshToken).
Proof.
  intros Ht Ha. unfold localize_and_connect.
  repeat first
    [ apply succeeds_ret
    | apply succeeds_get_prop; assumption
    | apply succeeds_alloc
    | apply succeeds_i18n_init; assumption
    | apply succeeds_new_SmartThingsApi
    | apply succeeds_api_options; [assumption | assumption |]
    | apply succeeds_when
    | apply succeeds_assign; [assumption|]
    | apply succeeds_bind; [|intros ?] ].
Qed.

End Succeeds.

Lemma switch_lifecycle_default this data disc :
  disc ∉ lifecycles ->
  switch_lifecycle this data disc
  = (let* authToken := get_prop data "authToken" in
     let* refreshToken := get_prop data "refreshToken" in
     set_prop this "executionId" (VStr "") ;;;
     assign this "installedAppId" (get_prop data "installedAppId") ;;;
     assign this "locationId" (get_prop data "locationId") ;;;
     assign this "config" (get_prop data "config") ;;;
     assign this "locale" (get_prop data "locale") ;;;
     ret (authToken, refreshToken)).
Proof.
  intros H. unfold switch_lifecycle.
  repeat (case_bool_decide;
          [exfalso; apply H; subst disc; unfold lifecycles; set_solver|]).
  reflexivity.
Qed.

Lemma pure_bind_inv {A B} (c : M A) (k : A -> M B) st st' b :
  (forall s, (c s).1 = s) ->
  bind c k st = (st', Ok b) ->
  exists a, c st = (st, Ok a) /\ k a st = (st', Ok b).
Proof.
  intros Hp H. apply bind_ok_inv in H as (s & a & Hc & Hk).
  pose proof (Hp st) as E. rewrite Hc in E. simpl in E. subst s.
  exists a. auto.
Qed.

Lemma assign_middle_inv st h c m rest k (e : M value) st' :
  (forall s, (e s).1 = s) ->
  assign (VRef (length h)) k e (with_heap st (h ++ Obj c m :: rest)) = (st', Ok tt) ->
  exists v,
    e (with_heap st (h ++ Obj c m :: rest)) = (with_heap st (h ++ Obj c m :: rest), Ok v) /\
    st' = with_heap st (h ++ Obj c (<[k := v]> m) :: rest).
Proof.
  intros Hp H. unfold assign in H.
  apply pure_bind_inv in H as (v & He & Hs); [|exact Hp].
  exists v. split; [exact He|].
  rewrite set_prop_middle in Hs. inversion Hs. reflexivity.
Qed.

(** Once [client] is cleared, the locale expression of the UPDATE branch
    can only give the root locale. *)
Lemma cleared_client_yields_root_locale st d cd md :
  heap st !! d = Some (Obj cd md) ->
  md !! "client" = Some VUndef ->
  client_language_or_locale (VRef d) st = (st, Ok (prop md "locale")).
Proof.
  intros Hd Hc. unfold client_language_or_locale.
  assert (Hp : prop md "client" = VUndef) by (unfold prop; rewrite Hc; reflexivity).
  rewrite (bind_ok _ _ _ _ _ (get_prop_obj _ _ _ _ "client" Hd)), Hp.
  rewrite (bind_ok _ _ st st VUndef) by reflexivity.
  cbn [truthy]. apply (get_prop_obj _ _ cd). exact Hd.
Qed.

(** The UPDATE branch in general: whatever [client.language] the payload
    carries, the locale of the context is the root locale of the payload. *)
Lemma UPDATE_locale_is_root_locale st app d cd md apiMutex st' this tokens :
  heap st !! d = Some (Obj cd md) ->
  discriminator md = VStr "UPDATE" ->
  normalize app (VRef d) apiMutex st = (st', Ok (this, tokens)) ->
  get_prop this "locale" st' = (st', Ok (prop md "locale")).
Proof.
  intros Hd Hdisc H.
  pose proof (lookup_lt_Some _ _ _ Hd) as Hlt.
  rewrite (normalize_run _ _ _ _ _ _ Hd), Hdisc in H.
  unfold switch_lifecycle in H.
  repeat (case_bool_decide; try discriminate). 2: congruence.
  rewrite !bind_assoc in H.
  erewrite bind_ok in H.
  2:{ apply (set_prop_obj _ d cd md). simpl. apply lookup_app_l_Some. exact Hd. }
  simpl heap in H. rewrite insert_app_l in H by exact Hlt.
  set (h := <[d := Obj cd (<["client" := VUndef]> md)]> (heap st)) in H.
  assert (Hlen : length (heap st) = length h) by (unfold h; rewrite length_insert; reflexivity).
  assert (Hd' : h !! d = Some (Obj cd (<["client" := VUndef]> md)))
    by (apply list_lookup_insert_eq; exact Hlt).
  rewrite Hlen in H.
  change (with_heap (with_heap st ?a) ?b) with (with_heap st b) in H.
  cbv beta in H. rewrite !bind_assoc in H.
  apply pure_bind_inv in H as (authToken & _ & H); [|intros; apply get_path_pure].
  rewrite !bind_assoc in H.
  apply pure_bind_inv in H as (refreshToken & _ & H); [|intros; apply get_path_pure].
  rewrite !bind_assoc in H.
  apply bind_ok_inv in H as (s1 & [] & E1 & H).
  apply assign_middle_inv in E1 as (v1 & _ & ->); [|intros; apply get_prop_pure].
  rewrite !bind_assoc in H.
  apply bind_ok_inv in H as (s2 & [] & E2 & H).
  apply assign_middle_inv in E2 as (v2 & _ & ->); [|intros; apply get_path_pure].
  rewrite !bind_assoc in H.
  apply bind_ok_inv in H as (s3 & [] & E3 & H).
  apply assign_middle_inv in E3 as (v3 & _ & ->); [|intros; apply get_path_pure].
  rewrite !bind_assoc in H.
  apply bind_ok_inv in H as (s4 & [] & E4 & H).
  apply assign_middle_inv in E4 as (v4 & _ & ->); [|intros; apply get_path_pure].
  rewrite !bind_assoc in H.
  apply bind_ok_inv in H as (s5 & [] & E5 & H).
  apply assign_middle_inv in E5 as (v5 & Hv5 & ->);
    [|intros; apply client_language_or_locale_pure].
  rewrite (cleared_client_yields_root_locale _ d cd (<["client" := VUndef]> md)) in Hv5.
  2:{ simpl. apply lookup_app_l_Some. exact Hd'. }
  2:{ apply lookup_insert_eq. }
  inversion Hv5 as [Hv]. clear Hv5.
  unfold ret in H. inversion H. subst.
  rewrite get_prop_middle. do 2 f_equal.
  unfold prop. rewrite lookup_insert_eq. simpl.
  rewrite lookup_insert_ne by discriminate. reflexivity.
Qed.

Section Constructor.

Context (host : Host).

(** C9.  Constructing a context from an UPDATE payload writes into the
    payload object of the caller: when the constructor is done, however it
    ends, the [client] field of that object is [undefined] and the other
    fields are as they were. *)
Theorem constructor_clears_client_of_UPDATE_payload st app d cd md apiMutex :
  heap st !! d = Some (Obj cd md) ->
  discriminator md = VStr "UPDATE" ->
  heap (constructor host app (VRef d) apiMutex st).1 !! d
  = Some (Obj cd (<["client" := VUndef]> md)).
Proof.
  intros Hd Hdisc.
  pose proof (lookup_lt_Some _ _ _ Hd) as Hlt.
  rewrite constructor_run.
  rewrite (bind_run_eq _ _ _ _ _ (normalize_run _ _ _ _ _ _ Hd)), Hdisc.
  set (this := VRef (length (heap st))).
  set (st1 := with_heap st _).
  assert (Hd1 : heap st1 !! d = Some (Obj cd md))
    by (apply lookup_app_l_Some; exact Hd).
  unfold switch_lifecycle.
  repeat (case_bool_decide; try discriminate). 2: congruence.
  rewrite !bind_assoc.
  rewrite (bind_ok _ _ _ _ _ (set_prop_obj _ _ _ _ "client" VUndef Hd1)).
  set (st2 := with_heap st1 _).
  assert (Hd2 : heap st2 !! d = Some (Obj cd (<["client" := VUndef]> md))).
  { apply list_lookup_insert_eq. simpl. rewrite length_app. lia. }
  assert (Hne : this <> VRef d) by (unfold this; intros [=]; lia).
  match goal with
  | |- heap (?c st2).1 !! d = _ => assert (Hk : preserves (keeps d) c)
  end.
  { repeat first
      [ apply preserves_bind_ret; cbn [fst snd];
        apply keeps_localize_and_connect; exact Hne
      | keeps_step ]. }
  apply Hk. exact Hd2.
Qed.

(** C6.  A payload whose discriminator is none of EVENT, INSTALL, UPDATE,
    CONFIGURATION, UNINSTALL and EXECUTE is normalised by the default branch
    and nothing is thrown: [authToken] and [refreshToken] are the root
    fields of the payload, and so are the [installedAppId], [locationId],
    [config] and [locale] of the new context; the payload itself is not
    touched, and the constructor returns the new context. *)
Theorem normalize_unknown_discriminator st a ca ma d cd md apiMutex :
  heap st !! a = Some (Obj ca ma) ->
  heap st !! d = Some (Obj cd md) ->
  discriminator md ∉ lifecycles ->
  let this := length (heap st) in
  exists st1 mt,
    normalize (VRef a) (VRef d) apiMutex st
      = (st1, Ok (VRef this, (prop md "authToken", prop md "refreshToken"))) /\
    heap st1 !! this = Some (Obj CSmartAppContext mt) /\
    prop mt "installedAppId" = prop md "installedAppId" /\
    prop mt "locationId" = prop md "locationId" /\
    prop mt "config" = prop md "config" /\
    prop mt "locale" = prop md "locale" /\
    heap st1 !! d = Some (Obj cd md) /\
    exists st2, constructor host (VRef a) (VRef d) apiMutex st = (st2, Ok (VRef this)).
Proof.
  intros Ha Hd Hdisc this.
  pose proof (lookup_lt_Some _ _ _ Hd) as Hlt.
  assert (Hrun : exists mt,
    normalize (VRef a) (VRef d) apiMutex st
      = (with_heap st (heap st ++ [Obj CSmartAppContext mt; Obj CObject ∅]),
         Ok (VRef this, (prop md "authToken", prop md "refreshToken"))) /\
    prop mt "installedAppId" = prop md "installedAppId" /\
    prop mt "locationId" = prop md "locationId" /\
    prop mt "config" = prop md "config" /\
    prop mt "locale" = prop md "locale").
  { eexists. split.
    - rewrite (normalize_run _ _ _ _ _ _ Hd).
      rewrite (switch_lifecycle_default _ _ _ Hdisc).
      run (get_prop_left st (heap st) _ _ _ _ "authToken" Hd).
      run (get_prop_left st (heap st) _ _ _ _ "refreshToken" Hd).
      run (set_prop_middle st (heap st) CSmartAppContext _ _ _ _).
      run (assign_middle st (heap st) CSmartAppContext _ _ "installedAppId" _ _
             (get_prop_left _ _ _ _ _ _ "installedAppId" Hd)).
      run (assign_middle st (heap st) CSmartAppContext _ _ "locationId" _ _
             (get_prop_left _ _ _ _ _ _ "locationId" Hd)).
      run (assign_middle st (heap st) CSmartAppContext _ _ "config" _ _
             (get_prop_left _ _ _ _ _ _ "config" Hd)).
      run (assign_middle st (heap st) CSmartAppContext _ _ "locale" _ _
             (get_prop_left _ _ _ _ _ _ "locale" Hd)).
      reflexivity.
    - unfold prop at 1 3 5 7.
      repeat split;
        repeat first [ rewrite lookup_insert_eq | rewrite lookup_insert_ne by discriminate ];
        reflexivity. }
  destruct Hrun as (mt & Hrun & H1 & H2 & H3 & H4).
  eexists _, mt. split; [exact Hrun|].
  split; [simpl; apply list_lookup_middle; reflexivity|].
  do 4 (split; [assumption|]).
  split; [simpl; apply lookup_app_l_Some; exact Hd|].
  rewrite constructor_run, (bind_ok _ _ _ _ _ Hrun). cbn [fst snd].
  destruct (succeeds_localize_and_connect [this; a] host a apiMutex this
              (prop md "authToken") (prop md "refreshToken")
              ltac:(set_solver) ltac:(set_solver)
              (with_heap st (heap st ++ [Obj CSmartAppContext mt; Obj CObject ∅])))
    as (st2 & r & E & _).
  - repeat constructor.
    + exists CSmartAppContext, mt. simpl. apply list_lookup_middle. reflexivity.
    + exists ca, ma. simpl. apply lookup_app_l_Some. exact Ha.
  - exists st2. rewrite E.
    rewrite (localize_and_connect_result _ _ _ _ _ _ _ _ _ E). reflexivity.
Qed.

End Constructor.

(** ** What stays silent *)

Lemma silent_alloc o : preserves silent (alloc o).
Proof. intros st. reflexivity. Qed.

Lemma silent_set_prop v k x : preserves silent (set_prop v k x).
Proof.
  intros st. unfold set_prop, silent.
  destruct v; try reflexivity.
  destruct (heap st !! l) as [[c m| |]|]; reflexivity.
Qed.

Lemma silent_receive d : preserves silent (receive d).
Proof. intros st. unfold receive, silent. destruct (alloc_data d (heap st)). reflexivity. Qed.

Lemma silent_array_elems v : preserves silent (array_elems v).
Proof.
  apply preserves_pure; [apply _|]. intros st. unfold array_elems.
  destruct v; try reflexivity.
  destruct (heap st !! l) as [[c m|es|t]|]; reflexivity.
Qed.

Lemma silent_config_entry this name : preserves silent (config_entry this name).
Proof.
  unfold config_entry. apply preserves_bind; [apply _ | |intros ?];
    apply preserves_get_prop; apply _.
Qed.

Lemma silent_property_key host v : preserves silent (property_key host v).
Proof.
  apply preserves_pure; [apply _|]. intros st. unfold property_key.
  destruct v as [| |[]| | | |]; reflexivity.
Qed.

Lemma silent_at_instant {A} t (c : M A) :
  preserves silent c -> preserves silent (at_instant t c).
Proof.
  intros Hc st. unfold at_instant, silent.
  specialize (Hc (State (heap st) t (calls st))).
  destruct (c (State (heap st) t (calls st))) as [st' r]. exact Hc.
Qed.

Lemma first_rejected_is_rejected ps : forall q,
  first_rejected ps = Some q -> is_rejected q = true.
Proof.
  induction ps as [|p ps IH]; intros q; simpl; [discriminate|].
  destruct (first_rejected ps) as [q'|].
  - destruct (is_rejected p && bool_decide (settled_at p <= settled_at q')) eqn:Hb;
      intros [= <-].
    + apply andb_true_iff in Hb. tauto.
    + apply IH. reflexivity.
  - destruct (is_rejected p) eqn:Hp; intros [= <-]. exact Hp.
Qed.

Lemma first_rejected_none ps :
  first_rejected ps = None -> Forall (fun p => is_rejected p = false) ps.
Proof.
  induction ps as [|p ps IH]; simpl; [constructor|].
  destruct (first_rejected ps) as [q'|].
  - destruct (is_rejected p && bool_decide (settled_at p <= settled_at q')); discriminate.
  - destruct (is_rejected p) eqn:Hp; [discriminate|]. intros _.
    constructor; [exact Hp | apply IH; reflexivity].
Qed.

Lemma first_rejected_exists ps :
  Exists (fun p => is_rejected p = true) ps ->
  exists q, first_rejected ps = Some q /\ is_rejected q = true.
Proof.
  intros H. destruct (first_rejected ps) as [q|] eqn:Hq.
  - exists q. split; [reflexivity|]. eapply first_rejected_is_rejected. exact Hq.
  - apply first_rejected_none in Hq. exfalso.
    apply Exists_exists in H as (p & Hin & Hp).
    rewrite Forall_forall in Hq. specialize (Hq p Hin). congruence.
Qed.

Lemma silent_Promise_all ps : preserves silent (Promise_all ps).
Proof.
  intros st. unfold Promise_all. destruct (first_rejected ps); reflexivity.
Qed.

Lemma Promise_all_rejected ps st :
  Exists (fun p => is_rejected p = true) ps ->
  exists q, (Promise_all ps st).2 = Ok q /\ is_rejected q = true.
Proof.
  intros H. destruct (first_rejected_exists _ H) as (q & Hq & Hr).
  unfold Promise_all. rewrite Hq. simpl.
  exists (Promise (settled_at q) (outcome q)). split; [reflexivity|].
  unfold is_rejected in *. simpl. exact Hr.
Qed.

(** ** Accounting for the lookups *)

Lemma accountable_bind_silent {A} (c : M A) (k : A -> M promise) :
  preserves silent c -> (forall a, accountable (k a)) -> accountable (bind c k).
Proof.
  intros Hc Hk st. specialize (Hc st). unfold bind, silent in *.
  destruct (c st) as [st1 [a|e]]; simpl in *.
  - destruct (Hk a st1) as (new & Hn & Hf). exists new. rewrite <- Hc. auto.
  - exists []. rewrite app_nil_r. auto.
Qed.

Lemma then_spec p f st :
  (forall v, preserves silent (f v)) ->
  calls (then_ p f st).1 = calls st /\
  exists q, (then_ p f st).2 = Ok q /\
            (is_rejected p = true -> is_rejected q = true).
Proof.
  intros Hf. unfold then_, is_rejected. destruct (outcome p) as [v|e] eqn:Hp.
  - pose proof (silent_at_instant (settled_at p) (f v) (Hf v) st) as Hs.
    destruct (at_instant (settled_at p) (f v) st) as [st' r]. simpl in *.
    split; [exact Hs|]. eexists. split; [reflexivity|]. discriminate.
  - simpl. split; [reflexivity|]. exists p. rewrite Hp. auto.
Qed.

Lemma settle_spec r st :
  calls (settle r st).1 = calls st /\
  exists p, (settle r st).2 = Ok p /\
            (forall e, resp_outcome r = Throw e -> is_rejected p = true).
Proof.
  unfold settle. destruct (resp_outcome r) as [d|e].
  - unfold bind. pose proof (silent_receive d st) as Hs. unfold silent in Hs.
    assert (Hok : exists v, (receive d st).2 = Ok v).
    { unfold receive. destruct (alloc_data d (heap st)). eexists; reflexivity. }
    destruct (receive d st) as [st1 rv]. simpl in *. destruct Hok as [v ->]. simpl.
    split; [exact Hs|]. eexists. split; [reflexivity|]. discriminate.
  - simpl. split; [reflexivity|]. eexists. split; [reflexivity|]. reflexivity.
Qed.

Lemma follows_then p f :
  (forall v, preserves silent (f v)) -> follows p (then_ p f).
Proof.
  intros Hf st. destruct (then_spec p f st Hf) as (Hc & q & Hq & Hr).
  exists []. rewrite app_nil_r. split; [exact Hc|].
  exists q. split; [exact Hq|]. intros [H | H]; [auto | inversion H].
Qed.

Lemma follows_bind p (c : M promise) (k : promise -> M promise) :
  follows p c -> (forall q, follows q (k q)) -> follows p (bind c k).
Proof.
  intros Hc Hk st. destruct (Hc st) as (n1 & Hn1 & q & Hq & Hr1).
  unfold bind. destruct (c st) as [st1 r]. simpl in *. subst r.
  destruct (Hk q st1) as (n2 & Hn2 & q2 & Hq2 & Hr2).
  exists (n1 ++ n2). rewrite Hn2, Hn1, app_assoc. split; [reflexivity|].
  exists q2. split; [exact Hq2|].
  intros [H | H]; [auto|]. apply Exists_app in H as [H | H]; auto.
Qed.

Lemma follows_then_promise p f :
  (forall v, accountable (f v)) -> follows p (then_promise p f).
Proof.
  intros Hf st. unfold then_promise, is_rejected.
  destruct (outcome p) as [v|e] eqn:Hp.
  - destruct (Hf v (State (heap st) (settled_at p) (calls st))) as (new & Hn & Hr).
    unfold at_instant.
    destruct (f v (State (heap st) (settled_at p) (calls st))) as [st1 [q|e]];
      simpl in *; exists new; (split; [exact Hn|]).
    + exists q. split; [reflexivity|]. intros [H | H]; [discriminate | auto].
    + eexists. split; [reflexivity|]. reflexivity.
  - exists []. rewrite app_nil_r. simpl. split; [reflexivity|].
    exists p. split; [reflexivity|]. rewrite Hp. auto.
Qed.

(** A lookup and what continues its promise. *)
Lemma accountable_lookup host kind devices arg (k : promise -> M promise) :
  (forall p, follows p (k p)) ->
  accountable (bind (devices_call host kind devices arg) k).
Proof.
  intros Hk st. unfold bind.
  assert (Hcase :
    (exists e, devices_call host kind devices arg st = (st, Throw e)) \/
    (exists r, devices_call host kind devices arg st
               = settle r (State (heap st) (clock st)
                             (calls st ++ [RemoteCall kind (clock st) arg r])))).
  { unfold devices_call. destruct devices; eauto.
    destruct (heap st !! l) as [[[] m| |]|]; eauto. }
  destruct Hcase as [[e ->] | [r ->]].
  - exists []. rewrite app_nil_r. simpl. split; [reflexivity | auto].
  - destruct (settle_spec r (State (heap st) (clock st)
                (calls st ++ [RemoteCall kind (clock st) arg r]))) as (Hc & p & Hp & Hrej).
    destruct (settle r _) as [st1 rp]. simpl in *. subst rp.
    destruct (Hk p st1) as (new & Hn & q & Hq & Hr).
    exists (RemoteCall kind (clock st) arg r :: new).
    rewrite Hn, Hc, <- app_assoc. split; [reflexivity|]. rewrite Hq.
    intros Hex. apply Hr.
    inversion Hex as [? ? (e & He) | ? ? Hnew]; subst; [left | right; exact Hnew].
    simpl in He. eapply Hrej. exact He.
Qed.

Ltac silent_step :=
  first
    [ apply preserves_ret; apply _
    | apply preserves_get_prop; apply _
    | apply preserves_get_path; apply _
    | apply silent_alloc
    | apply silent_set_prop
    | apply silent_property_key
    | apply preserves_assign; [apply _| |intros ?]
    | apply preserves_bind; [apply _| |intros ?] ].

(** A turn of the loop accounts for its lookup: when the lookup has
    failed, the promise it registers is rejected. *)
Lemma device_request_accounts host this item st :
  exists new,
    calls (device_request host this item st).1 = calls st ++ new /\
    (Exists failed new ->
     match (device_request host this item st).2 with
     | Ok x => is_rejected x.2 = true
     | Throw _ => True
     end).
Proof.
  unfold device_request, bind.
  pose proof (get_path_pure ["deviceConfig"; "componentId"] item st) as P1.
  destruct (get_path item ["deviceConfig"; "componentId"] st) as [s1 [cid|e]];
    simpl in P1; subst s1;
    [|exists []; rewrite app_nil_r; simpl; auto].
  pose proof (get_path_pure ["api"; "devices"] this st) as P2.
  destruct (get_path this ["api"; "devices"] st) as [s1 [devices|e]];
    simpl in P2; subst s1;
    [|exists []; rewrite app_nil_r; simpl; auto].
  assert (Hreq : require_object devices st = (st, Ok tt) \/
                 require_object devices st = (st, Throw TypeError))
    by (destruct devices; auto).
  destruct Hreq as [-> | ->];
    [|exists []; rewrite app_nil_r; simpl; auto].
  pose proof (get_path_pure ["deviceConfig"; "deviceId"] item st) as P3.
  destruct (get_path item ["deviceConfig"; "deviceId"] st) as [s1 [arg|e]];
    simpl in P3; subst s1;
    [|exists []; rewrite app_nil_r; simpl; auto].
  assert (Hcase :
    (exists e, devices_call host GetDevice devices arg st = (st, Throw e)) \/
    (exists r, devices_call host GetDevice devices arg st
               = settle r (State (heap st) (clock st)
                             (calls st ++ [RemoteCall GetDevice (clock st) arg r])))).
  { unfold devices_call. destruct devices; eauto.
    destruct (heap st !! l) as [[[] m| |]|]; eauto. }
  destruct Hcase as [[e ->] | [r ->]].
  - exists []. rewrite app_nil_r. simpl. auto.
  - destruct (settle_spec r (State (heap st) (clock st)
                (calls st ++ [RemoteCall GetDevice (clock st) arg r])))
      as (Hc & p & Hp & Hrej).
    destruct (settle r _) as [st1 rp]. simpl in *. subst rp.
    exists [RemoteCall GetDevice (clock st) arg r]. split; [exact Hc|].
    intros Hex. inversion Hex as [? ? (e & He) | ? ? Hnil]; subst.
    + simpl in He. eapply Hrej. exact He.
    + inversion Hnil.
Qed.

(** The loop accounts for its lookups: when one of them has failed, the
    loop has thrown or one of the promises it has registered is
    rejected. *)
Lemma forEach_push_accounts (f : value -> M (value * promise)) items :
  (forall x st, exists new,
     calls (f x st).1 = calls st ++ new /\
     (Exists failed new ->
      match (f x st).2 with
      | Ok y => is_rejected y.2 = true
      | Throw _ => True
      end)) ->
  forall st, exists new pending thrown,
    (forEach_push f items st).2 = Ok (pending, thrown) /\
    calls (forEach_push f items st).1 = calls st ++ new /\
    (Exists failed new ->
     thrown <> None \/ Exists (fun y => is_rejected y.2 = true) pending).
Proof.
  intros Hf. induction items as [|x items IH]; intros st; simpl.
  - exists [], [], None. rewrite app_nil_r. repeat split. intros H. inversion H.
  - destruct (Hf x st) as (n1 & Hn1 & Hr1).
    destruct (f x st) as [st1 [y|e]]; simpl in *.
    + destruct (IH st1) as (n2 & pending & thrown & Hrun & Hn2 & Hr2).
      unfold bind. destruct (forEach_push f items st1) as [st2 r]. simpl in *. subst r.
      simpl. exists (n1 ++ n2), (y :: pending), thrown.
      rewrite Hn2, Hn1, app_assoc. repeat split.
      intros H. apply Exists_app in H as [H | H].
      * right. apply Exists_cons_hd. auto.
      * destruct (Hr2 H) as [Ht | Hp]; [left; exact Ht | right].
        apply Exists_cons_tl. exact Hp.
    + exists n1, [], (Some e). repeat split; [exact Hn1|]. intros _. left. discriminate.
Qed.

Lemma Exists_insert_keep {A} (P : A -> Prop) (l : list A) i x y :
  l !! i = Some x -> (P x -> P y) -> Exists P l -> Exists P (<[i := y]> l).
Proof.
  intros Hi Hxy H. apply Exists_exists in H as (z & Hin & Hz).
  apply list_elem_of_lookup_1 in Hin as (j & Hj).
  apply Exists_exists. destruct (decide (j = i)) as [-> | Hne].
  - exists y. split.
    + apply (list_elem_of_lookup_2 _ i).
      apply list_lookup_insert_eq. eapply lookup_lt_Some. exact Hi.
    + apply Hxy. congruence.
  - exists z. split; [|exact Hz].
    apply (list_elem_of_lookup_2 _ j). rewrite list_lookup_insert_ne by congruence.
    exact Hj.
Qed.

Lemma Exists_insert_new {A} (P : A -> Prop) (l : list A) i x y :
  l !! i = Some x -> P y -> Exists P (<[i := y]> l).
Proof.
  intros Hi Hy. apply Exists_exists. exists y. split; [|exact Hy].
  apply (list_elem_of_lookup_2 _ i).
  apply list_lookup_insert_eq. eapply lookup_lt_Some. exact Hi.
Qed.

(** The callbacks account for their lookups, and a rejection stays. *)
Lemma run_later_accounts (f : value -> promise -> M promise) :
  (forall kept p, follows p (f kept p)) ->
  forall order pending st, exists new done,
    (run_later f order pending st).2 = Ok done /\
    calls (run_later f order pending st).1 = calls st ++ new /\
    (Exists (fun y => is_rejected y.2 = true) pending \/ Exists failed new ->
     Exists (fun y => is_rejected y.2 = true) done).
Proof.
  intros Hf. induction order as [|i order IH]; intros pending st; simpl.
  - exists [], pending. rewrite app_nil_r. repeat split.
    intros [H | H]; [exact H | inversion H].
  - destruct (pending !! i) as [[kept p]|] eqn:Hi; [|apply IH].
    destruct (Hf kept p st) as (n1 & Hn1 & q & Hq & Hr1).
    unfold bind. destruct (f kept p st) as [st1 r]. simpl in *. subst r.
    destruct (IH (<[i := (kept, q)]> pending) st1) as (n2 & done & Hrun & Hn2 & Hr2).
    exists (n1 ++ n2), done. rewrite Hn2, Hn1, app_assoc. repeat split; [exact Hrun|].
    intros H. apply Hr2.
    destruct H as [H | H].
    + left. eapply Exists_insert_keep; [exact Hi | | exact H].
      simpl. intros Hp. apply Hr1. left. exact Hp.
    + apply Exists_app in H as [H | H]; [left | right; exact H].
      eapply Exists_insert_new; [exact Hi|]. simpl. apply Hr1. right. exact H.
Qed.

Lemma later_accounts (f : value -> promise -> M promise) pending st :
  (forall kept p, follows p (f kept p)) ->
  exists new list,
    (later f pending st).2 = Ok list /\
    calls (later f pending st).1 = calls st ++ new /\
    (Exists (fun y => is_rejected y.2 = true) pending \/ Exists failed new ->
     Exists (fun p => is_rejected p = true) list).
Proof.
  intros Hf. unfold later, bind.
  destruct (run_later_accounts f Hf (settle_order pending.*2) pending st)
    as (new & done & Hrun & Hn & Hr).
  destruct (run_later f (settle_order pending.*2) pending st) as [st1 r].
  simpl in *. subst r. simpl. exists new, done.*2. repeat split; [exact Hn|].
  intros H. apply Exists_fmap. exact (Hr H).
Qed.

Lemma follows_describe componentId p : follows p (describe componentId p).
Proof. apply follows_then. intros v. repeat silent_step. Qed.

Lemma silent_require_object v : preserves silent (require_object v).
Proof. intros st. destruct v; reflexivity. Qed.

Lemma follows_describe_with_state host this componentId p :
  follows p (describe_with_state host this componentId p).
Proof.
  unfold describe_with_state. apply follows_bind.
  - apply follows_describe.
  - intros q. apply follows_then_promise. intros entry.
    apply accountable_bind_silent; [apply preserves_get_path; apply _ | intros ?].
    apply accountable_bind_silent; [apply silent_require_object | intros ?].
    apply accountable_bind_silent; [apply preserves_get_prop; apply _ | intros ?].
    apply accountable_lookup. intros answered.
    apply follows_then. intros v. repeat silent_step.
Qed.

Section Devices.

Context (host : Host).

Lemma aggregate_accounts (f : value -> promise -> M promise) this name st :
  (forall kept p, follows p (f kept p)) ->
  let c := (let* entry := config_entry this name in
            if negb (truthy entry) then ret RetUndefined else
            let* items := array_elems entry in
            let* ' (pending, thrown) := forEach_push (device_request host this) items in
            let* list := later f pending in
            match thrown with
            | Some e => throw e
            | None => let* all := Promise_all list in ret (RetPromise all)
            end) in
  exists new,
    calls (c st).1 = calls st ++ new /\
    (Exists failed new -> aggregate_failed (c st).2).
Proof.
  intros Hf c. subst c. unfold bind.
  pose proof (silent_config_entry this name st) as H1. unfold silent in H1.
  destruct (config_entry this name st) as [st1 [entry|e]]; simpl in H1.
  2:{ exists []. rewrite app_nil_r. simpl. auto. }
  destruct (truthy entry); simpl.
  2:{ exists []. rewrite app_nil_r. simpl. split; [auto|]. intros H. inversion H. }
  pose proof (silent_array_elems entry st1) as H2. unfold silent in H2.
  destruct (array_elems entry st1) as [st2 [items|e]]; simpl in H2.
  2:{ exists []. rewrite app_nil_r. simpl. split; [congruence | auto]. }
  destruct (forEach_push_accounts (device_request host this) items
              (device_request_accounts host this) st2)
    as (n1 & pending & thrown & Hrun & Hn1 & Hr1).
  destruct (forEach_push (device_request host this) items st2) as [st3 r].
  simpl in *. subst r.
  destruct (later_accounts f pending st3 Hf) as (n2 & list & Hlater & Hn2 & Hr2).
  destruct (later f pending st3) as [st4 r]. simpl in *. subst r.
  exists (n1 ++ n2).
  destruct thrown as [e|].
  - simpl. split; [|auto]. rewrite Hn2, Hn1, H2, H1, app_assoc. reflexivity.
  - pose proof (silent_Promise_all list st4) as H3. unfold silent in H3.
    split.
    + destruct (Promise_all list st4) as [st5 [q|e]]; simpl in *;
        rewrite H3, Hn2, Hn1, H2, H1, app_assoc; reflexivity.
    + intros Hex.
      assert (Hrej : Exists (fun p => is_rejected p = true) list).
      { apply Hr2. apply Exists_app in Hex as [Hex | Hex]; [left | right; exact Hex].
        destruct (Hr1 Hex) as [Ht | Hp]; [congruence | exact Hp]. }
      destruct (Promise_all_rejected list st4 Hrej) as (q & Hq & Hrq).
      destruct (Promise_all list st4) as [st5 r]. simpl in *. subst r. exact Hrq.
Qed.

(** C4.  If one of the remote lookups issued by [configDevices] or
    [configDevicesWithState] fails, be it a metadata lookup or a state
    lookup that follows successful metadata lookups, the whole call fails:
    it throws or its promise is rejected, and no sequence of results is
    handed back. *)
Theorem aggregate_fails_when_a_lookup_fails with_state this name st new :
  calls (device_aggregate host with_state this name st).1 = calls st ++ new ->
  Exists failed new ->
  aggregate_failed (device_aggregate host with_state this name st).2.
Proof.
  intros Hcalls Hex.
  assert (H : exists new',
    calls (device_aggregate host with_state this name st).1 = calls st ++ new' /\
    (Exists failed new' -> aggregate_failed (device_aggregate host with_state this name st).2)).
  { destruct with_state.
    - apply (aggregate_accounts (describe_with_state host this)).
      intros kept p. apply follows_describe_with_state.
    - apply (aggregate_accounts describe).
      intros kept p. apply follows_describe. }
  destruct H as (new' & Hn & Hr). apply Hr.
  rewrite Hn in Hcalls. apply app_inv_head in Hcalls. subst new'. exact Hex.
Qed.

End Devices.

(** ** More on the accessors *)

Lemma config_entry_array st this mc name e :
  has_config st this mc ->
  mc !! name = Some (VRef e) ->
  config_entry (VRef this) name st = (st, Ok (VRef e)).
Proof.
  intros Hc He. rewrite (config_entry_present _ _ _ _ Hc).
  unfold prop. rewrite He. reflexivity.
Qed.

Lemma array_elems_arr st e items :
  heap st !! e = Some (Arr items) -> array_elems (VRef e) st = (st, Ok items).
Proof. intros H. unfold array_elems. rewrite H. reflexivity. Qed.

Lemma first_of_empty_throws st e :
  heap st !! e = Some (Arr []) ->
  get_path (VRef e) ["0"; "stringConfig"; "value"] st = (st, Throw TypeError).
Proof.
  intros He. cbn [get_path].
  assert (H0 : get_prop (VRef e) "0" st = (st, Ok VUndef)).
  { unfold get_prop. rewrite He. reflexivity. }
  rewrite (bind_ok _ _ _ _ _ H0). reflexivity.
Qed.

Lemma mapM_reads (f : value -> M value) st items results :
  Forall2 (fun it r => f it st = (st, Ok r)) items results ->
  mapM f items st = (st, Ok results).
Proof.
  induction 1 as [|it r items results Hf _ IH]; simpl; [reflexivity|].
  rewrite (bind_ok _ _ _ _ _ Hf), (bind_ok _ _ _ _ _ IH). reflexivity.
Qed.

Section MoreAccessors.

Context (host : Host).

(** X1.  On a present key the scalar accessors look at the first entry
    only: [configStringValue] returns its scalar as it is stored,
    [configNumberValue] the host's numeric coercion of it and
    [configDateValue] a new Date object parsed from it.  None of them
    throws on a malformed scalar. *)
Theorem scalar_accessors_read_first_entry st this name v :
  stored_string st this name (Some v) ->
  configStringValue (VRef this) name st = (st, Ok v) /\
  configNumberValue host (VRef this) name st
    = (st, Ok (VNum (host_ToNumber host (heap st) v))) /\
  configDateValue host (VRef this) name st
    = (with_heap st (heap st ++ [DateObj (host_Date_parse host (heap st) v)]),
       Ok (VRef (length (heap st)))).
Proof.
  intros Hs. destruct (config_entry_stored _ _ _ _ Hs) as (entry & He & Htr & Hv).
  split; [|split].
  - unfold configStringValue. rewrite (bind_ok _ _ _ _ _ He), Htr. exact Hv.
  - unfold configNumberValue. rewrite (bind_ok _ _ _ _ _ He), Htr. cbn [negb].
    rewrite (bind_ok _ _ _ _ _ Hv). reflexivity.
  - apply configDateValue_stored. exact Hs.
Qed.

(** X2.  A key bound to an empty entry list is not treated as absent.  The
    scalar accessors throw a TypeError, as there is no first entry; the
    multi-valued ones succeed: [configModeIds] returns a new empty array
    and the device aggregates a promise fulfilled with an empty array,
    without any remote lookup. *)
Theorem accessors_on_empty_entry_list st this mc name e options with_state :
  has_config st this mc ->
  mc !! name = Some (VRef e) ->
  heap st !! e = Some (Arr []) ->
  (configStringValue (VRef this) name st).2 = Throw TypeError /\
  (configBooleanValue (VRef this) name st).2 = Throw TypeError /\
  (configNumberValue host (VRef this) name st).2 = Throw TypeError /\
  (configDateValue host (VRef this) name st).2 = Throw TypeError /\
  (configTimeString host (VRef this) name options st).2 = Throw TypeError /\
  configModeIds (VRef this) name st
    = (with_heap st (heap st ++ [Arr []]), Ok (VRef (length (heap st)))) /\
  device_aggregate host with_state (VRef this) name st
    = (with_heap st (heap st ++ [Arr []]),
       Ok (RetPromise (Promise (clock st) (Ok (VRef (length (heap st))))))).
Proof.
  intros Hc He Harr.
  pose proof (config_entry_array _ _ _ _ _ Hc He) as Hentry.
  pose proof (first_of_empty_throws _ _ Harr) as Hfirst.
  assert (Hdate : forall st',
            has_config st' this mc -> heap st' !! e = Some (Arr []) ->
            configDateValue host (VRef this) name st' = (st', Throw TypeError)).
  { intros st' Hc' Harr'. unfold configDateValue.
    rewrite (bind_ok _ _ _ _ _ (config_entry_array _ _ _ _ _ Hc' He)). cbn [truthy negb].
    rewrite (bind_throw _ _ _ _ _ (first_of_empty_throws _ _ Harr')). reflexivity. }
  repeat split.
  - unfold configStringValue. rewrite (bind_ok _ _ _ _ _ Hentry). cbn [truthy negb].
    rewrite Hfirst. reflexivity.
  - unfold configBooleanValue. rewrite (bind_ok _ _ _ _ _ Hentry). cbn [truthy negb].
    rewrite (bind_throw _ _ _ _ _ Hfirst). reflexivity.
  - unfold configNumberValue. rewrite (bind_ok _ _ _ _ _ Hentry). cbn [truthy negb].
    rewrite (bind_throw _ _ _ _ _ Hfirst). reflexivity.
  - rewrite (Hdate st Hc Harr). reflexivity.
  - unfold configTimeString. case_bool_decide.
    + rewrite (bind_ok _ _ _ _ _ (alloc_run _ _)).
      rewrite (bind_throw _ _ _ _ _
                 (Hdate _ (has_config_grow _ _ _ [Obj CObject ∅] Hc)
                    (lookup_app_l_Some _ _ _ _ Harr))).
      reflexivity.
    + rewrite (bind_ok _ _ st st options) by reflexivity.
      rewrite (bind_throw _ _ _ _ _ (Hdate st Hc Harr)). reflexivity.
  - unfold configModeIds. rewrite (bind_ok _ _ _ _ _ Hentry). cbn [truthy negb].
    rewrite (bind_ok _ _ _ _ _ (array_elems_arr _ _ _ Harr)). reflexivity.
  - destruct with_state; unfold device_aggregate, configDevicesWithState, configDevices;
      rewrite (bind_ok _ _ _ _ _ Hentry); cbn [truthy negb];
      rewrite (bind_ok _ _ _ _ _ (array_elems_arr _ _ _ Harr)); reflexivity.
Qed.

(** X3.  [configTimeString] writes the default options only into an empty
    plain object.  Options that have a property, or that are not a plain
    object, are left as they are and handed to the formatter; the only
    change of state is the new Date object. *)
Theorem configTimeString_keeps_given_options st this c m name v o co mo :
  stored_string st this name (Some v) ->
  heap st !! this = Some (Obj c m) ->
  heap st !! o = Some (Obj co mo) ->
  mo <> ∅ \/ co <> CObject ->
  configTimeString host (VRef this) name (VRef o) st
  = let d := host_Date_parse host (heap st) v in
    let st' := with_heap st (heap st ++ [DateObj d]) in
    (st', match d with
          | None => Ok (VStr "Invalid Date")
          | Some t =>
              match host_formatTime host (heap st') t (prop m "locale") (VRef o) with
              | Ok s => Ok (VStr s)
              | Throw e => Throw e
              end
          end).
Proof.
  intros Hs Ht Ho Hgiven.
  unfold configTimeString.
  rewrite (bind_ok _ _ st st (VRef o)) by reflexivity.
  rewrite (bind_ok _ _ _ _ _ (configDateValue_stored _ _ _ _ _ Hs)).
  cbn [truthy negb].
  set (d := host_Date_parse host (heap st) v).
  set (st1 := with_heap st (heap st ++ [DateObj d])).
  assert (Ho1 : heap st1 !! o = Some (Obj co mo))
    by (apply lookup_app_l_Some; exact Ho).
  assert (Ht1 : heap st1 !! this = Some (Obj c m))
    by (apply lookup_app_l_Some; exact Ht).
  rewrite (bind_ok _ _ _ _ _ (Object_entries_length_obj _ _ _ _ Ho1)).
  rewrite (bind_ok _ _ st1 st1 false).
  2:{ case_bool_decide as Hsize; [|reflexivity].
      apply map_size_empty_iff in Hsize. subst mo.
      rewrite (constructor_is_Object_obj _ _ _ _ Ho1).
      destruct Hgiven as [Hne | Hne]; [congruence|].
      rewrite (bool_decide_eq_false_2 _ Hne). reflexivity. }
  unfold when. rewrite (bind_ok _ _ st1 st1 tt) by reflexivity.
  rewrite (bind_ok _ _ _ _ _ (get_prop_obj _ _ _ _ "locale" Ht1)).
  assert (Hd : heap st1 !! length (heap st) = Some (DateObj d))
    by (simpl; apply list_lookup_middle; reflexivity).
  rewrite (toLocaleTimeString_date _ _ _ _ _ _ Hd). reflexivity.
Qed.

(** X4.  [configModeIds] returns the mode identifiers of all the entries of
    the key, in the order of the entries, in a new array; nothing else
    changes. *)
Theorem configModeIds_all_in_order st this mc name e items ids :
  has_config st this mc ->
  mc !! name = Some (VRef e) ->
  heap st !! e = Some (Arr items) ->
  Forall2 (fun it id => get_path it ["modeConfig"; "modeId"] st = (st, Ok id)) items ids ->
  configModeIds (VRef this) name st
  = (with_heap st (heap st ++ [Arr ids]), Ok (VRef (length (heap st)))).
Proof.
  intros Hc He Harr Hids. unfold configModeIds.
  rewrite (bind_ok _ _ _ _ _ (config_entry_array _ _ _ _ _ Hc He)). cbn [truthy negb].
  rewrite (bind_ok _ _ _ _ _ (array_elems_arr _ _ _ Harr)).
  rewrite (bind_ok _ _ _ _ _ (mapM_reads _ _ _ _ Hids)). reflexivity.
Qed.

End MoreAccessors.

(** ** What the accessors leave alone *)

Lemma keeps_pure {A} d (c : M A) : (forall st, (c st).1 = st) -> preserves (keeps d) c.
Proof. apply preserves_pure. apply _. Qed.

Lemma array_elems_pure v st : (array_elems v st).1 = st.
Proof.
  unfold array_elems. destruct v; try reflexivity.
  destruct (heap st !! l) as [[c m|es|t]|]; reflexivity.
Qed.

Lemma Object_entries_length_pure v st : (Object_entries_length v st).1 = st.
Proof.
  unfold Object_entries_length. destruct v; try reflexivity.
  destruct (heap st !! l) as [[c m|es|t]|]; reflexivity.
Qed.

Lemma constructor_is_Object_pure v st : (constructor_is_Object v st).1 = st.
Proof.
  unfold constructor_is_Object. destruct v; try reflexivity.
  destruct (heap st !! l) as [[c m|es|t]|]; reflexivity.
Qed.

Lemma toLocaleTimeString_pure host date locales options st :
  (toLocaleTimeString host date locales options st).1 = st.
Proof.
  unfold toLocaleTimeString. destruct date; try reflexivity.
  destruct (heap st !! l) as [[c m|es|[t|]]|]; try reflexivity.
  destruct (host_formatTime host (heap st) t locales options); reflexivity.
Qed.

Lemma keeps_new_Date host d v : preserves (keeps d) (new_Date host v).
Proof. intros st. apply (keeps_alloc d _ st). Qed.

Lemma silent_new_Date host v : preserves silent (new_Date host v).
Proof. intros st. reflexivity. Qed.

Ltac frame_step R :=
  first
    [ apply preserves_ret; apply _
    | apply preserves_get_prop; apply _
    | apply preserves_get_path; apply _
    | apply preserves_pure;
      [ apply _
      | first [ apply array_elems_pure | apply Object_entries_length_pure
              | apply constructor_is_Object_pure | apply toLocaleTimeString_pure
              | intros ?; reflexivity ] ]
    | apply preserves_mapM; [apply _ | intros ?]
    | apply preserves_when; [apply _|]
    | apply preserves_bind; [apply _| |intros ?]
    | match goal with |- preserves _ (if ?b then _ else _) => destruct b end ].

Section ReadOnly.

Context (host : Host).

Lemma keeps_configTimeString_given d this name options :
  options <> VUndef -> options <> VRef d ->
  preserves (keeps d) (configTimeString host this name options).
Proof.
  intros Hu Hne. unfold configTimeString, configDateValue, config_entry.
  rewrite (bool_decide_eq_false_2 _ Hu).
  apply preserves_bind_ret.
  repeat first
    [ apply keeps_new_Date | apply keeps_set_prop; exact Hne | frame_step (keeps d) ].
Qed.

(** X5.  The accessors of scalar values and of mode identifiers only read:
    whatever the outcome, every object that exists keeps its content (new
    Date, array and default-options objects are added after them) and no
    remote lookup is issued.  [configTimeString] writes to nothing but the
    options object it is given. *)
Theorem accessors_only_read this name options d :
  options <> VRef d ->
  (preserves (keeps d) (configStringValue this name) /\
   preserves (keeps d) (configBooleanValue this name) /\
   preserves (keeps d) (configNumberValue host this name) /\
   preserves (keeps d) (configDateValue host this name) /\
   preserves (keeps d) (configTimeString host this name options) /\
   preserves (keeps d) (configModeIds this name)) /\
  (preserves silent (configStringValue this name) /\
   preserves silent (configBooleanValue this name) /\
   preserves silent (configNumberValue host this name) /\
   preserves silent (configDateValue host this name) /\
   preserves silent (configTimeString host this name options) /\
   preserves silent (configModeIds this name)).
Proof.
  intros Hne. split.
  - repeat split.
    + unfold configStringValue, config_entry. repeat frame_step (keeps d).
    + unfold configBooleanValue, config_entry. repeat frame_step (keeps d).
    + unfold configNumberValue, config_entry, Number. repeat frame_step (keeps d).
    + unfold configDateValue, config_entry.
      repeat first [apply keeps_new_Date | frame_step (keeps d)].
    + destruct (decide (options = VUndef)) as [-> | Hu].
      * intros st o Ho. rewrite configTimeString_omitted.
        pose proof (lookup_lt_Some _ _ _ Ho) as Hlt.
        apply (keeps_configTimeString_given d this name (VRef (length (heap st)))).
        -- discriminate.
        -- intros [= E]. lia.
        -- simpl. apply lookup_app_l_Some. exact Ho.
      * apply keeps_configTimeString_given; assumption.
    + unfold configModeIds, config_entry.
      repeat first [apply keeps_alloc | frame_step (keeps d)].
  - repeat split.
    + unfold configStringValue, config_entry. repeat frame_step silent.
    + unfold configBooleanValue, config_entry. repeat frame_step silent.
    + unfold configNumberValue, config_entry, Number. repeat frame_step silent.
    + unfold configDateValue, config_entry.
      repeat first [apply silent_new_Date | frame_step silent].
    + unfold configTimeString, configDateValue, config_entry.
      repeat first [apply silent_new_Date | apply silent_alloc | apply silent_set_prop
                   | frame_step silent].
    + unfold configModeIds, config_entry.
      repeat first [apply silent_alloc | frame_step silent].
Qed.

End ReadOnly.

Section MoreDevices.

Context (host : Host).

(** X6.  The device aggregates need the remote client at once: on a
    context whose [api] has no [devices] endpoint (the placeholder of an
    unauthenticated context) a key with at least one device entry makes the
    call throw a TypeError, synchronously, without a promise, a lookup or a
    change of state. *)
Theorem device_aggregate_without_client st this c m mc name e item items cid a ca ma
    with_state :
  heap st !! this = Some (Obj c m) ->
  has_config st this mc ->
  mc !! name = Some (VRef e) ->
  heap st !! e = Some (Arr (item :: items)) ->
  get_path item ["deviceConfig"; "componentId"] st = (st, Ok cid) ->
  m !! "api" = Some (VRef a) ->
  heap st !! a = Some (Obj ca ma) ->
  ma !! "devices" = None ->
  device_aggregate host with_state (VRef this) name st = (st, Throw TypeError).
Proof.
  intros Ht Hc He Harr Hcid Hapi Ha Hdev.
  assert (Hdevices : get_path (VRef this) ["api"; "devices"] st = (st, Ok VUndef)).
  { cbn [get_path]. rewrite (bind_ok _ _ _ _ _ (get_prop_obj _ _ _ _ "api" Ht)).
    unfold prop at 1. rewrite Hapi. cbn [default].
    rewrite (bind_ok _ _ _ _ _ (get_prop_obj _ _ _ _ "devices" Ha)).
    unfold prop. rewrite Hdev. reflexivity. }
  assert (Hturn : device_request host (VRef this) item st = (st, Throw TypeError)).
  { unfold device_request. run Hcid. run Hdevices. reflexivity. }
  assert (Hloop : forEach_push (device_request host (VRef this)) (item :: items) st
                  = (st, Ok ([], Some TypeError))).
  { cbn [forEach_push]. rewrite Hturn. reflexivity. }
  destruct with_state; unfold device_aggregate, configDevicesWithState, configDevices;
    rewrite (bind_ok _ _ _ _ _ (config_entry_array _ _ _ _ _ Hc He)); cbn [truthy negb];
    rewrite (bind_ok _ _ _ _ _ (array_elems_arr _ _ _ Harr));
    rewrite (bind_ok _ _ _ _ _ Hloop); reflexivity.
Qed.

(** X7.  [deleteContext()] never changes the state.  Without a context
    store it is fulfilled at once; with one it asks the store to delete the
    entry of this installed app and is fulfilled or rejected as the store
    answers. *)
Theorem deleteContext_outcome st this c m a ca ma :
  heap st !! this = Some (Obj c m) ->
  m !! "app" = Some (VRef a) ->
  heap st !! a = Some (Obj ca ma) ->
  truthy (prop ma "_contextStore") = false \/
  (exists s ms, prop ma "_contextStore" = VRef s /\
                heap st !! s = Some (Obj CContextStore ms)) ->
  deleteContext host (VRef this) st
  = (st, Ok (if truthy (prop ma "_contextStore")
             then match host_contextStore_delete host (prop m "installedAppId") with
                  | Ok _ => Fulfilled tt
                  | Throw e => Rejected e
                  end
             else Fulfilled tt)).
Proof.
  intros Ht Happ Ha Hcase.
  assert (Hstore : get_path (VRef this) ["app"; "_contextStore"] st
                   = (st, Ok (prop ma "_contextStore"))).
  { cbn [get_path]. rewrite (bind_ok _ _ _ _ _ (get_prop_obj _ _ _ _ "app" Ht)).
    unfold prop at 1. rewrite Happ. cbn [default].
    rewrite (bind_ok _ _ _ _ _ (get_prop_obj _ _ _ _ "_contextStore" Ha)). reflexivity. }
  unfold deleteContext, async.
  rewrite (bind_ok _ _ _ _ _ Hstore).
  destruct Hcase as [Hno | (s & ms & Hs & Hst)].
  - rewrite Hno. reflexivity.
  - rewrite Hs. cbn [truthy when].
    rewrite (bind_ok _ _ st st (VRef s)) by (rewrite Hstore, Hs; reflexivity).
    rewrite (bind_ok _ _ _ _ _ (get_prop_obj _ _ _ _ "installedAppId" Ht)).
    unfold contextStore_delete. rewrite Hst.
    destruct (host_contextStore_delete host (prop m "installedAppId")) as [[]|err];
      reflexivity.
Qed.

End MoreDevices.

(** ** The branches of the switch *)

Lemma client_language_or_locale_run st d cd md ext lang :
  heap st !! d = Some (Obj cd md) ->
  anded_language st d md lang ->
  client_language_or_locale (VRef d) (with_heap st (heap st ++ ext))
  = (with_heap st (heap st ++ ext), Ok (or_value lang (prop md "locale"))).
Proof.
  intros Hd Hl. unfold client_language_or_locale, anded_language in *.
  rewrite (bind_ok _ _ _ _ _ (get_prop_left _ _ _ _ _ _ "client" Hd)).
  destruct (truthy (prop md "client")) eqn:Hc.
  - rewrite (bind_ok _ _ _ _ _ (get_path_grow _ _ _ _ ext Hl)).
    unfold or_value. destruct (truthy lang); [reflexivity|].
    apply (get_prop_left _ _ _ _ _ _ "locale" Hd).
  - subst lang. rewrite (bind_ok _ _ _ (with_heap st (heap st ++ ext)) (prop md "client"))
      by reflexivity.
    unfold or_value. rewrite Hc. apply (get_prop_left _ _ _ _ _ _ "locale" Hd).
Qed.

Ltac pick_branch :=
  unfold switch_lifecycle;
  repeat (case_bool_decide; [ try discriminate | try congruence ]).

Tactic Notation "run_read" uconstr(H) :=
  run (get_path_grow _ _ _ _ _ H).

Tactic Notation "run_assign" constr(st) constr(k) uconstr(H) :=
  run (assign_middle st (heap st) CSmartAppContext _ _ k _ _ H).

Ltac insert_lookups :=
  unfold prop;
  repeat first [ rewrite lookup_insert_eq | rewrite lookup_insert_ne by discriminate ];
  try reflexivity.

Section Branches.

Context (host : Host).

(** X8.  INSTALL: the tokens come from [installData], the identifiers and
    the config from [installData.installedApp], the execution id from the
    root, and the locale is [client.language] when the payload has a client
    with a language, the root [locale] otherwise.  The payload is not
    written to. *)
Theorem normalize_INSTALL st app d cd md apiMutex
    authToken refreshToken installedAppId locationId config lang :
  heap st !! d = Some (Obj cd md) ->
  discriminator md = VStr "INSTALL" ->
  get_path (VRef d) ["installData"; "authToken"] st = (st, Ok authToken) ->
  get_path (VRef d) ["installData"; "refreshToken"] st = (st, Ok refreshToken) ->
  get_path (VRef d) ["installData"; "installedApp"; "installedAppId"] st
    = (st, Ok installedAppId) ->
  get_path (VRef d) ["installData"; "installedApp"; "locationId"] st
    = (st, Ok locationId) ->
  get_path (VRef d) ["installData"; "installedApp"; "config"] st = (st, Ok config) ->
  anded_language st d md lang ->
  exists st1 mt,
    normalize app (VRef d) apiMutex st
      = (st1, Ok (VRef (length (heap st)), (authToken, refreshToken))) /\
    heap st1 !! length (heap st) = Some (Obj CSmartAppContext mt) /\
    prop mt "executionId" = prop md "executionId" /\
    prop mt "installedAppId" = installedAppId /\
    prop mt "locationId" = locationId /\
    prop mt "config" = config /\
    prop mt "locale" = or_value lang (prop md "locale") /\
    heap st1 !! d = Some (Obj cd md).
Proof.
  intros Hd Hdisc Ha Hr Hi Hl Hc Hlang.
  eexists _, _. split.
  - rewrite (normalize_run _ _ _ _ _ _ Hd), Hdisc. pick_branch.
    run_read Ha. run_read Hr.
    run_assign st "executionId" (get_prop_left _ _ _ _ _ _ "executionId" Hd).
    run_assign st "installedAppId" (get_path_grow _ _ _ _ _ Hi).
    run_assign st "locationId" (get_path_grow _ _ _ _ _ Hl).
    run_assign st "config" (get_path_grow _ _ _ _ _ Hc).
    run_assign st "locale" (client_language_or_locale_run _ _ _ _ _ _ Hd Hlang).
    reflexivity.
  - split; [simpl; apply list_lookup_middle; reflexivity|].
    repeat split; try insert_lookups.
    simpl. apply lookup_app_l_Some. exact Hd.
Qed.

(** X9.  EVENT: there is no refresh token, whatever the payload carries,
    and the locale is the root [locale], whatever the client says; the
    identifiers and the config come from [eventData.installedApp]. *)
Theorem normalize_EVENT st app d cd md apiMutex
    authToken installedAppId locationId config :
  heap st !! d = Some (Obj cd md) ->
  discriminator md = VStr "EVENT" ->
  get_path (VRef d) ["eventData"; "authToken"] st = (st, Ok authToken) ->
  get_path (VRef d) ["eventData"; "installedApp"; "installedAppId"] st
    = (st, Ok installedAppId) ->
  get_path (VRef d) ["eventData"; "installedApp"; "locationId"] st
    = (st, Ok locationId) ->
  get_path (VRef d) ["eventData"; "installedApp"; "config"] st = (st, Ok config) ->
  exists st1 mt,
    normalize app (VRef d) apiMutex st
      = (st1, Ok (VRef (length (heap st)), (authToken, VUndef))) /\
    heap st1 !! length (heap st) = Some (Obj CSmartAppContext mt) /\
    prop mt "executionId" = prop md "executionId" /\
    prop mt "installedAppId" = installedAppId /\
    prop mt "locationId" = locationId /\
    prop mt "config" = config /\
    prop mt "locale" = prop md "locale" /\
    heap st1 !! d = Some (Obj cd md).
Proof.
  intros Hd Hdisc Ha Hi Hl Hc.
  eexists _, _. split.
  - rewrite (normalize_run _ _ _ _ _ _ Hd), Hdisc. pick_branch.
    run_read Ha.
    run_assign st "executionId" (get_prop_left _ _ _ _ _ _ "executionId" Hd).
    run_assign st "installedAppId" (get_path_grow _ _ _ _ _ Hi).
    run_assign st "locationId" (get_path_grow _ _ _ _ _ Hl).
    run_assign st "config" (get_path_grow _ _ _ _ _ Hc).
    run_assign st "locale" (get_prop_left _ _ _ _ _ _ "locale" Hd).
    reflexivity.
  - split; [simpl; apply list_lookup_middle; reflexivity|].
    repeat split; try insert_lookups.
    simpl. apply lookup_app_l_Some. exact Hd.
Qed.

(** X10.  EXECUTE: there is no refresh token and the locale is
    [executeData.parameters.locale]; neither the root [locale] nor the
    client is looked at. *)
Theorem normalize_EXECUTE st app d cd md apiMutex
    authToken installedAppId locationId config locale :
  heap st !! d = Some (Obj cd md) ->
  discriminator md = VStr "EXECUTE" ->
  get_path (VRef d) ["executeData"; "authToken"] st = (st, Ok authToken) ->
  get_path (VRef d) ["executeData"; "installedApp"; "installedAppId"] st
    = (st, Ok installedAppId) ->
  get_path (VRef d) ["executeData"; "installedApp"; "locationId"] st
    = (st, Ok locationId) ->
  get_path (VRef d) ["executeData"; "installedApp"; "config"] st = (st, Ok config) ->
  get_path (VRef d) ["executeData"; "parameters"; "locale"] st = (st, Ok locale) ->
  exists st1 mt,
    normalize app (VRef d) apiMutex st
      = (st1, Ok (VRef (length (heap st)), (authToken, VUndef))) /\
    heap st1 !! length (heap st) = Some (Obj CSmartAppContext mt) /\
    prop mt "executionId" = prop md "executionId" /\
    prop mt "installedAppId" = installedAppId /\
    prop mt "locationId" = locationId /\
    prop mt "config" = config /\
    prop mt "locale" = locale /\
    heap st1 !! d = Some (Obj cd md).
Proof.
  intros Hd Hdisc Ha Hi Hl Hc Hloc.
  eexists _, _. split.
  - rewrite (normalize_run _ _ _ _ _ _ Hd), Hdisc. pick_branch.
    run_read Ha.
    run_assign st "executionId" (get_prop_left _ _ _ _ _ _ "executionId" Hd).
    run_assign st "installedAppId" (get_path_grow _ _ _ _ _ Hi).
    run_assign st "locationId" (get_path_grow _ _ _ _ _ Hl).
    run_assign st "config" (get_path_grow _ _ _ _ _ Hc).
    run_assign st "locale" (get_path_grow _ _ _ _ _ Hloc).
    reflexivity.
  - split; [simpl; apply list_lookup_middle; reflexivity|].
    repeat split; try insert_lookups.
    simpl. apply lookup_app_l_Some. exact Hd.
Qed.

(** X11.  CONFIGURATION: the payload gives no credentials, so both tokens
    are [undefined] whatever it carries; the identifiers and the config are
    read from [configurationData] itself, not from an [installedApp] inside
    it, and the locale follows the client as for INSTALL. *)
Theorem normalize_CONFIGURATION st app d cd md apiMutex
    installedAppId locationId config lang :
  heap st !! d = Some (Obj cd md) ->
  discriminator md = VStr "CONFIGURATION" ->
  get_path (VRef d) ["configurationData"; "installedAppId"] st = (st, Ok installedAppId) ->
  get_path (VRef d) ["configurationData"; "locationId"] st = (st, Ok locationId) ->
  get_path (VRef d) ["configurationData"; "config"] st = (st, Ok config) ->
  anded_language st d md lang ->
  exists st1 mt,
    normalize app (VRef d) apiMutex st
      = (st1, Ok (VRef (length (heap st)), (VUndef, VUndef))) /\
    heap st1 !! length (heap st) = Some (Obj CSmartAppContext mt) /\
    prop mt "executionId" = prop md "executionId" /\
    prop mt "installedAppId" = installedAppId /\
    prop mt "locationId" = locationId /\
    prop mt "config" = config /\
    prop mt "locale" = or_value lang (prop md "locale") /\
    heap st1 !! d = Some (Obj cd md).
Proof.
  intros Hd Hdisc Hi Hl Hc Hlang.
  eexists _, _. split.
  - rewrite (normalize_run _ _ _ _ _ _ Hd), Hdisc. pick_branch.
    run_assign st "executionId" (get_prop_left _ _ _ _ _ _ "executionId" Hd).
    run_assign st "installedAppId" (get_path_grow _ _ _ _ _ Hi).
    run_assign st "locationId" (get_path_grow _ _ _ _ _ Hl).
    run_assign st "config" (get_path_grow _ _ _ _ _ Hc).
    run_assign st "locale" (client_language_or_locale_run _ _ _ _ _ _ Hd Hlang).
    reflexivity.
  - split; [simpl; apply list_lookup_middle; reflexivity|].
    repeat split; try insert_lookups.
    simpl. apply lookup_app_l_Some. exact Hd.
Qed.

(** X12.  A payload of a known lifecycle that lacks the data field of that
    lifecycle makes the constructor throw a TypeError: only the default
    branch is permissive. *)
Theorem known_lifecycle_needs_its_data st app d cd md apiMutex lifecycle section :
  heap st !! d = Some (Obj cd md) ->
  (lifecycle, section) ∈ data_sections ->
  discriminator md = VStr lifecycle ->
  md !! section = None ->
  (normalize app (VRef d) apiMutex st).2 = Throw TypeError /\
  (constructor host app (VRef d) apiMutex st).2 = Throw TypeError.
Proof.
  intros Hd Hin Hdisc Hnone.
  assert (Hn : (normalize app (VRef d) apiMutex st).2 = Throw TypeError).
  { rewrite (normalize_run _ _ _ _ _ _ Hd), Hdisc.
    assert (Hown : inherited section = VUndef).
    { pose proof Hin as Hin'. unfold data_sections in Hin'.
      repeat (apply elem_of_cons in Hin' as [[= -> ->] | Hin']);
        [ reflexivity .. | inversion Hin' ]. }
    assert (Hsec : forall ext k rest,
              get_path (VRef d) (section :: k :: rest) (with_heap st (heap st ++ ext))
              = (with_heap st (heap st ++ ext), Throw TypeError)).
    { intros ext k rest. cbn [get_path].
      rewrite (bind_ok _ _ _ _ _ (get_prop_left _ _ _ _ _ _ section Hd)).
      unfold prop. rewrite Hnone. cbn [default]. rewrite Hown. reflexivity. }
    unfold data_sections in Hin.
    repeat (apply elem_of_cons in Hin as [[= -> ->] | Hin]);
      [ .. | inversion Hin ]; pick_branch.
    - rewrite bind_assoc, (bind_throw _ _ _ _ _ (Hsec _ _ _)). reflexivity.
    - rewrite bind_assoc, (bind_throw _ _ _ _ _ (Hsec _ _ _)). reflexivity.
    - rewrite !bind_assoc.
      erewrite bind_ok
        by (apply (set_prop_obj _ d cd md); simpl; apply lookup_app_l_Some; exact Hd).
      cbv beta. rewrite !bind_assoc. cbn [get_path]. rewrite !bind_assoc.
      erewrite bind_ok.
      2:{ apply (get_prop_obj _ d cd (<["client" := VUndef]> md)). simpl.
          apply list_lookup_insert_eq. rewrite length_app.
          pose proof (lookup_lt_Some _ _ _ Hd). lia. }
      unfold prop. rewrite lookup_insert_ne by discriminate. rewrite Hnone.
      reflexivity.
    - run_assign st "executionId" (get_prop_left _ _ _ _ _ _ "executionId" Hd).
      rewrite ?bind_assoc. unfold assign at 1. rewrite bind_assoc.
      rewrite (bind_throw _ _ _ _ _ (Hsec _ _ _)). reflexivity.
    - run_assign st "executionId" (get_prop_left _ _ _ _ _ _ "executionId" Hd).
      rewrite ?bind_assoc. unfold assign at 1. rewrite bind_assoc.
      rewrite (bind_throw _ _ _ _ _ (Hsec _ _ _)). reflexivity.
    - rewrite bind_assoc, (bind_throw _ _ _ _ _ (Hsec _ _ _)). reflexivity. }
  split; [exact Hn|].
  rewrite constructor_run. unfold bind.
  destruct (normalize app (VRef d) apiMutex st) as [st1 [r|e]]; simpl in *;
    [discriminate | inversion Hn; reflexivity].
Qed.

End Branches.

(** ** The second part of the constructor *)

Lemma new_SmartThingsApi_run options st :
  new_SmartThingsApi options st
  = (with_heap st
       (heap st ++
        [Obj CObject options;
         Obj CDevices ∅;
         Obj CSmartThingsApi
           (<["client" := VRef (length (heap st))]>
           (<["devices" := VRef (S (length (heap st)))]>
           (<["locationId" := prop options "locationId"]>
           (<["installedAppId" := prop options "installedAppId"]> ∅))))]),
     Ok (VRef (S (S (length (heap st)))))).
Proof.
  unfold new_SmartThingsApi.
  rewrite (bind_ok _ _ _ _ _ (alloc_run _ _)).
  rewrite (bind_ok _ _ _ _ _ (alloc_run _ _)).
  rewrite alloc_run. simpl heap.
  rewrite !length_app. simpl length.
  rewrite <- !app_assoc. simpl.
  replace (length (heap st) + 1 + 1) with (S (S (length (heap st)))) by lia.
  replace (length (heap st) + 1) with (S (length (heap st))) by lia.
  reflexivity.
Qed.

Lemma isAuthenticated_placeholder st t c mt p cp mp :
  heap st !! t = Some (Obj c mt) ->
  mt !! "api" = Some (VRef p) ->
  heap st !! p = Some (Obj cp mp) ->
  mp !! "client" = None ->
  isAuthenticated (VRef t) st = (st, Ok false).
Proof.
  intros Ht Hapi Hp Hclient. unfold isAuthenticated.
  assert (Ha : prop mt "api" = VRef p) by (unfold prop; rewrite Hapi; reflexivity).
  rewrite (bind_ok _ _ _ _ _ (get_prop_obj _ _ _ _ "api" Ht)), Ha. cbn [truthy negb].
  rewrite (bind_ok _ _ st st VUndef); [reflexivity|].
  cbn [get_path]. rewrite (bind_ok _ _ _ _ _ (get_prop_obj _ _ _ _ "api" Ht)), Ha.
  rewrite (bind_ok _ _ _ _ _ (get_prop_obj _ _ _ _ "client" Hp)).
  unfold prop. rewrite Hclient. reflexivity.
Qed.

Lemma api_options_run st t c mt a ca ma authToken refreshToken (mutex : M value) st' apiMutex :
  heap st !! t = Some (Obj c mt) ->
  heap st !! a = Some (Obj ca ma) ->
  mutex st = (st', Ok apiMutex) ->
  api_options (VRef t) (VRef a) authToken refreshToken mutex st
  = (st', Ok (client_options mt ma authToken refreshToken apiMutex)).
Proof.
  intros Ht Ha Hm. unfold api_options.
  run (get_prop_obj _ _ _ _ "_clientId" Ha).
  run (get_prop_obj _ _ _ _ "_clientSecret" Ha).
  run (get_prop_obj _ _ _ _ "_log" Ha).
  run (get_prop_obj _ _ _ _ "_apiUrl" Ha).
  run (get_prop_obj _ _ _ _ "_refreshUrl" Ha).
  run (get_prop_obj _ _ _ _ "locationId" Ht).
  run (get_prop_obj _ _ _ _ "installedAppId" Ht).
  run (get_prop_obj _ _ _ _ "_contextStore" Ha).
  run Hm. reflexivity.
Qed.

Lemma connect_run st t c mt options :
  heap st !! t = Some (Obj c mt) ->
  assign (VRef t) "api" (new_SmartThingsApi options) st
  = (with_heap st (connected (heap st) t c mt options), Ok tt).
Proof.
  intros Ht. unfold assign.
  rewrite (bind_ok _ _ _ _ _ (new_SmartThingsApi_run _ _)).
  erewrite set_prop_obj by (simpl; apply lookup_app_l_Some; exact Ht).
  reflexivity.
Qed.

(** What can be read from a context that has just been connected. *)
Lemma connected_reads st h t c mt options :
  heap st = connected h t c mt options ->
  t < length h ->
  get_prop (VRef t) "api" st = (st, Ok (VRef (S (S (length h))))) /\
  (forall k, k <> "api" -> get_prop (VRef t) k st = (st, Ok (prop mt k))) /\
  get_path (VRef t) ["api"; "client"] st = (st, Ok (VRef (length h))) /\
  (forall k, get_path (VRef t) ["api"; "client"; k] st = (st, Ok (prop options k))) /\
  get_path (VRef t) ["api"; "locationId"] st = (st, Ok (prop options "locationId")) /\
  get_path (VRef t) ["api"; "installedAppId"] st
    = (st, Ok (prop options "installedAppId")).
Proof.
  intros Hh Hlt.
  assert (Ht : heap st !! t = Some (Obj c (<["api" := VRef (S (S (length h)))]> mt))).
  { rewrite Hh. apply list_lookup_insert_eq. rewrite length_app. lia. }
  assert (Hcl : heap st !! length h = Some (Obj CObject options)).
  { rewrite Hh. unfold connected. rewrite list_lookup_insert_ne by lia.
    apply list_lookup_middle. reflexivity. }
  assert (Hapi : exists ml, heap st !! S (S (length h)) = Some (Obj CSmartThingsApi ml) /\
            prop ml "client" = VRef (length h) /\
            prop ml "locationId" = prop options "locationId" /\
            prop ml "installedAppId" = prop options "installedAppId").
  { eexists. split.
    - rewrite Hh. unfold connected. rewrite list_lookup_insert_ne by lia.
      rewrite lookup_app_r by lia.
      replace (S (S (length h)) - length h) with 2 by lia. reflexivity.
    - unfold prop. repeat split;
        repeat first [rewrite lookup_insert_eq | rewrite lookup_insert_ne by discriminate];
        reflexivity. }
  destruct Hapi as (ml & Hml & Hc & Hl & Hi).
  assert (Hget : get_prop (VRef t) "api" st = (st, Ok (VRef (S (S (length h)))))).
  { rewrite (get_prop_obj _ _ _ _ "api" Ht). unfold prop. rewrite lookup_insert_eq.
    reflexivity. }
  split; [exact Hget|]. split; [|split; [|split; [|split]]].
  - intros k Hk. rewrite (get_prop_obj _ _ _ _ k Ht). unfold prop.
    rewrite lookup_insert_ne by congruence. reflexivity.
  - cbn [get_path]. rewrite (bind_ok _ _ _ _ _ Hget).
    rewrite (bind_ok _ _ _ _ _ (get_prop_obj _ _ _ _ "client" Hml)), Hc. reflexivity.
  - intros k. cbn [get_path]. rewrite (bind_ok _ _ _ _ _ Hget).
    rewrite (bind_ok _ _ _ _ _ (get_prop_obj _ _ _ _ "client" Hml)), Hc.
    rewrite (bind_ok _ _ _ _ _ (get_prop_obj _ _ _ _ k Hcl)). reflexivity.
  - cbn [get_path]. rewrite (bind_ok _ _ _ _ _ Hget).
    rewrite (bind_ok _ _ _ _ _ (get_prop_obj _ _ _ _ "locationId" Hml)), Hl. reflexivity.
  - cbn [get_path]. rewrite (bind_ok _ _ _ _ _ Hget).
    rewrite (bind_ok _ _ _ _ _ (get_prop_obj _ _ _ _ "installedAppId" Hml)), Hi.
    reflexivity.
Qed.

Lemma client_options_lookups mt ma authToken refreshToken apiMutex :
  prop (client_options mt ma authToken refreshToken apiMutex) "authToken" = authToken /\
  prop (client_options mt ma authToken refreshToken apiMutex) "refreshToken" = refreshToken /\
  prop (client_options mt ma authToken refreshToken apiMutex) "apiMutex" = apiMutex /\
  prop (client_options mt ma authToken refreshToken apiMutex) "locationId"
    = prop mt "locationId" /\
  prop (client_options mt ma authToken refreshToken apiMutex) "installedAppId"
    = prop mt "installedAppId".
Proof.
  unfold client_options, prop at 1 3 5 7 9.
  repeat split;
    repeat first [rewrite lookup_insert_eq | rewrite lookup_insert_ne by discriminate];
    reflexivity.
Qed.

Lemma isAuthenticated_connected st h t c mt options :
  heap st = connected h t c mt options ->
  t < length h ->
  isAuthenticated (VRef t) st = (st, Ok (truthy (prop options "authToken"))).
Proof.
  intros Hh Hlt.
  destruct (connected_reads st h t c mt options Hh Hlt)
    as (Hapi & _ & Hcl & Hclient & _).
  unfold isAuthenticated.
  rewrite (bind_ok _ _ _ _ _ Hapi). cbn [truthy negb].
  rewrite (bind_ok _ _ _ _ _ Hcl). cbn [truthy negb].
  rewrite (bind_ok _ _ _ _ _ (Hclient "authToken")). reflexivity.
Qed.


Section SecondPart.

Context (host : Host).

(** X13.  Without a token and without a resolved locale the second part of
    the constructor does nothing, whatever the application enables: this is
    what happens for UNINSTALL.  The context gets its execution id and its
    identifiers, has neither config nor locale nor headers, keeps the empty
    placeholder as [api] and is not authenticated. *)
Theorem constructor_UNINSTALL st a ca ma d cd md apiMutex installedAppId locationId :
  heap st !! a = Some (Obj ca ma) ->
  heap st !! d = Some (Obj cd md) ->
  discriminator md = VStr "UNINSTALL" ->
  get_path (VRef d) ["uninstallData"; "installedApp"; "installedAppId"] st
    = (st, Ok installedAppId) ->
  get_path (VRef d) ["uninstallData"; "installedApp"; "locationId"] st
    = (st, Ok locationId) ->
  let this := length (heap st) in
  let mt := <["locationId" := locationId]>
              (<["installedAppId" := installedAppId]>
                 (<["executionId" := prop md "executionId"]>
                    (fresh_context (VRef a) (VRef d) apiMutex this))) in
  let st1 := with_heap st (heap st ++ [Obj CSmartAppContext mt; Obj CObject ∅]) in
  constructor host (VRef a) (VRef d) apiMutex st = (st1, Ok (VRef this)) /\
  mt !! "config" = None /\ mt !! "locale" = None /\ mt !! "headers" = None /\
  isAuthenticated (VRef this) st1 = (st1, Ok false).
Proof.
  intros Ha Hd Hdisc Hi Hl this mt st1. subst this st1.
  set (st1 := with_heap st (heap st ++ [Obj CSmartAppContext mt; Obj CObject ∅])).
  assert (Hn : normalize (VRef a) (VRef d) apiMutex st
               = (st1, Ok (VRef (length (heap st)), (VUndef, VUndef)))).
  { rewrite (normalize_run _ _ _ _ _ _ Hd), Hdisc. pick_branch.
    run_assign st "executionId" (get_prop_left _ _ _ _ _ _ "executionId" Hd).
    run_assign st "installedAppId" (get_path_grow _ _ _ _ _ Hi).
    run_assign st "locationId" (get_path_grow _ _ _ _ _ Hl).
    reflexivity. }
  assert (Hfresh : forall k, k <> "api" -> k <> "apiMutex" -> k <> "app" -> k <> "event" ->
            k <> "locationId" -> k <> "installedAppId" -> k <> "executionId" ->
            mt !! k = None).
  { intros k H1 H2 H3 H4 H5 H6 H7. unfold mt, fresh_context.
    rewrite !lookup_insert_ne by congruence. apply lookup_empty. }
  assert (Hlocale : mt !! "locale" = None) by (apply Hfresh; discriminate).
  split; [|split; [|split; [exact Hlocale|split]]].
  - rewrite constructor_run, (bind_ok _ _ _ _ _ Hn). cbn [fst snd].
    unfold localize_and_connect.
    assert (Hen : get_prop (VRef a) "_localizationEnabled" st1
                  = (st1, Ok (prop ma "_localizationEnabled")))
      by (apply (get_prop_left _ _ _ _ _ _ "_localizationEnabled" Ha)).
    rewrite (bind_ok _ _ _ _ _ Hen).
    rewrite (bind_ok _ _ st1 st1 tt); [reflexivity|].
    destruct (truthy (prop ma "_localizationEnabled")); [|reflexivity].
    cbn [when].
    assert (Hloc : get_prop (VRef (length (heap st))) "locale" st1 = (st1, Ok VUndef)).
    { unfold st1. rewrite get_prop_middle. unfold prop. rewrite Hlocale. reflexivity. }
    rewrite (bind_ok _ _ _ _ _ Hloc). reflexivity.
  - apply Hfresh; discriminate.
  - apply Hfresh; discriminate.
  - apply (isAuthenticated_placeholder st1 (length (heap st)) CSmartAppContext mt
             (S (length (heap st))) CObject ∅).
    + simpl. apply list_lookup_middle. reflexivity.
    + unfold mt, fresh_context.
      rewrite !lookup_insert_ne by discriminate. apply lookup_insert_eq.
    + simpl. rewrite lookup_app_r by lia.
      replace (S (length (heap st)) - length (heap st)) with 1 by lia. reflexivity.
    + apply lookup_empty.
Qed.

(** X14.  With a truthy token the second part of the constructor builds the
    remote client, whatever the localization did before: the constructor
    returns the context, the context is authenticated, the client holds the
    tokens and the mutex it was given, and its [locationId] and
    [installedAppId] are those of the context. *)
Theorem constructor_connects_with_a_token st t c mt a ca ma apiMutex authToken refreshToken :
  heap st !! t = Some (Obj c mt) ->
  heap st !! a = Some (Obj ca ma) ->
  truthy authToken = true ->
  exists st' locationId installedAppId,
    localize_and_connect host (VRef a) apiMutex (VRef t) authToken refreshToken st
      = (st', Ok (VRef t)) /\
    isAuthenticated (VRef t) st' = (st', Ok true) /\
    get_path (VRef t) ["api"; "client"; "authToken"] st' = (st', Ok authToken) /\
    get_path (VRef t) ["api"; "client"; "refreshToken"] st' = (st', Ok refreshToken) /\
    get_path (VRef t) ["api"; "client"; "apiMutex"] st' = (st', Ok apiMutex) /\
    get_prop (VRef t) "locationId" st' = (st', Ok locationId) /\
    get_path (VRef t) ["api"; "locationId"] st' = (st', Ok locationId) /\
    get_prop (VRef t) "installedAppId" st' = (st', Ok installedAppId) /\
    get_path (VRef t) ["api"; "installedAppId"] st' = (st', Ok installedAppId).
Proof.
  intros Ht Ha Htok.
  assert (Hlive : live [t; a] st).
  { repeat constructor; [exists c, mt | exists ca, ma]; assumption. }
  assert (Hfirst : succeeds (live [t; a])
            (let* enabled := get_prop (VRef a) "_localizationEnabled" in
             when (truthy enabled)
               (let* locale := get_prop (VRef t) "locale" in
                when (truthy locale)
                  (let* locale := get_prop (VRef t) "locale" in
                   assign (VRef t) "headers"
                     (alloc (Obj CObject {["accept-language" := locale]})) ;;;
                   i18n_init host (VRef t))))).
  { repeat first
      [ apply succeeds_ret
      | apply succeeds_get_prop; set_solver
      | apply succeeds_alloc
      | apply succeeds_i18n_init; set_solver
      | apply succeeds_when
      | apply succeeds_assign; [set_solver|]
      | apply succeeds_bind; [|intros ?] ]. }
  destruct (Hfirst st Hlive) as (st1 & [] & E1 & Hlive1).
  destruct (live_elem _ _ t Hlive1 ltac:(set_solver)) as (c1 & mt1 & Ht1).
  destruct (live_elem _ _ a Hlive1 ltac:(set_solver)) as (ca1 & ma1 & Ha1).
  pose proof (lookup_lt_Some _ _ _ Ht1) as Hlt.
  set (options := client_options mt1 ma1 authToken refreshToken apiMutex).
  exists (with_heap st1 (connected (heap st1) t c1 mt1 options)),
    (prop mt1 "locationId"), (prop mt1 "installedAppId").
  set (st' := with_heap st1 _).
  destruct (connected_reads st' (heap st1) t c1 mt1 options eq_refl Hlt)
    as (Hapi & Hown & _ & Hclient & Hloc & Hid).
  destruct (client_options_lookups mt1 ma1 authToken refreshToken apiMutex)
    as (Ho1 & Ho2 & Ho3 & Ho4 & Ho5).
  fold options in Ho1, Ho2, Ho3, Ho4, Ho5.
  split; [|split; [|repeat split]].
  - unfold localize_and_connect.
    rewrite <- bind_assoc. rewrite (bind_ok _ _ _ _ _ E1).
    rewrite Htok. cbn [when].
    rewrite (bind_ok _ _ st1 st' tt); [reflexivity|].
    rewrite (bind_ok _ _ _ _ _
               (api_options_run _ _ _ _ _ _ _ authToken refreshToken (ret apiMutex)
                  st1 apiMutex Ht1 Ha1 eq_refl)).
    apply connect_run. exact Ht1.
  - rewrite (isAuthenticated_connected st' (heap st1) t c1 mt1 options eq_refl Hlt).
    rewrite Ho1, Htok. reflexivity.
  - rewrite (Hclient "authToken"), Ho1. reflexivity.
  - rewrite (Hclient "refreshToken"), Ho2. reflexivity.
  - rewrite (Hclient "apiMutex"), Ho3. reflexivity.
  - apply Hown. discriminate.
  - rewrite Hloc, Ho4. reflexivity.
  - apply Hown. discriminate.
  - rewrite Hid, Ho5. reflexivity.
Qed.

End SecondPart.

(** ** Localization and stored tokens *)

(** Received data is laid out after the objects that exist. *)
Lemma alloc_data_grows : forall d h, exists ext,
  (alloc_data d h).2 = h ++ ext /\
  (forall l, (alloc_data d h).1 = VRef l -> length h <= l).
Proof.
  fix IH 1. intros d h. destruct d as [| | b | r | s | items | fields]; simpl;
    try (exists []; rewrite app_nil_r; split; [reflexivity | discriminate]).
  - assert (Hgo : forall l h0, exists ext,
              ((fix go (l : list data) (h : list object) : list value * list object :=
                  match l with
                  | [] => ([], h)
                  | x :: r =>
                      let '(v, h1) := alloc_data x h in
                      let '(vs, h2) := go r h1 in (v :: vs, h2)
                  end) l h0).2 = h0 ++ ext).
    { induction l as [|x l IHl]; intros h0.
      - exists []. rewrite app_nil_r. reflexivity.
      - destruct (IH x h0) as (e1 & E1 & _).
        destruct (alloc_data x h0) as [v h1]. simpl in E1. subst h1.
        destruct (IHl (h0 ++ e1)) as (e2 & E2).
        match goal with |- context [let '(_, _) := ?t in _] => destruct t as [vs h2] end.
        simpl in *. subst h2. exists (e1 ++ e2). rewrite app_assoc. reflexivity. }
    destruct (Hgo items h) as (e & E).
    match goal with |- context [let '(_, _) := ?t in _] => destruct t as [vs h'] end.
    simpl in *. subst h'. eexists. rewrite <- app_assoc. split; [reflexivity|].
    intros l [= <-]. rewrite length_app. lia.
  - assert (Hgo : forall l m0 h0, exists ext,
              ((fix go (l : list (string * data)) (m : gmap string value) (h : list object)
                  : gmap string value * list object :=
                  match l with
                  | [] => (m, h)
                  | (k, x) :: r =>
                      let '(v, h1) := alloc_data x h in go r (<[k := v]> m) h1
                  end) l m0 h0).2 = h0 ++ ext).
    { induction l as [|[k x] l IHl]; intros m0 h0.
      - exists []. rewrite app_nil_r. reflexivity.
      - destruct (IH x h0) as (e1 & E1 & _).
        destruct (alloc_data x h0) as [v h1]. simpl in E1. subst h1.
        destruct (IHl (<[k := v]> m0) (h0 ++ e1)) as (e2 & E2).
        exists (e1 ++ e2). rewrite app_assoc. exact E2. }
    destruct (Hgo fields ∅ h) as (e & E).
    match goal with |- context [let '(_, _) := ?t in _] => destruct t as [m h'] end.
    simpl in *. subst h'. eexists. rewrite <- app_assoc. split; [reflexivity|].
    intros l [= <-]. rewrite length_app. lia.
Qed.

Lemma receive_object d st l h1 :
  alloc_data d (heap st) = (VRef l, h1) ->
  receive d st = (with_heap st h1, Ok (VRef l)) /\
  (exists ext, h1 = heap st ++ ext) /\ length (heap st) <= l.
Proof.
  intros E. destruct (alloc_data_grows d (heap st)) as (ext & Hext & Hfresh).
  rewrite E in Hext, Hfresh. simpl in *. split; [|split].
  - unfold receive. rewrite E. reflexivity.
  - exists ext. exact Hext.
  - apply Hfresh. reflexivity.
Qed.

Lemma settle_ok t d st st1 v :
  receive d st = (st1, Ok v) ->
  settle (Response t (Ok d)) st = (st1, Ok (Promise t (Ok v))).
Proof. intros H. unfold settle. simpl. rewrite (bind_ok _ _ _ _ _ H). reflexivity. Qed.

Lemma async_ok {A} (c : M A) st st' a :
  c st = (st', Ok a) -> async c st = (st', Ok (Fulfilled a)).
Proof. intros H. unfold async. rewrite H. reflexivity. Qed.

Section MoreTokens.

Context (host : Host).

(** X15.  Localization is initialised only when the application enables it
    and the context has a truthy locale: then [headers] is set to a new
    object [{'accept-language': locale}] and after that [i18n.init] is
    applied to the context.  Otherwise, and when there is no token either,
    the second part of the constructor changes nothing. *)
Theorem localization_needs_a_locale st t c mt a ca ma apiMutex authToken refreshToken :
  heap st !! t = Some (Obj c mt) ->
  heap st !! a = Some (Obj ca ma) ->
  truthy authToken = false ->
  localize_and_connect host (VRef a) apiMutex (VRef t) authToken refreshToken st
  = if truthy (prop ma "_localizationEnabled") && truthy (prop mt "locale")
    then (with_heap st
            (<[t := Obj c (host_i18n_init host (<["headers" := VRef (length (heap st))]> mt))]>
               (heap st ++ [Obj CObject {["accept-language" := prop mt "locale"]}])),
          Ok (VRef t))
    else (st, Ok (VRef t)).
Proof.
  intros Ht Ha Htok.
  pose proof (lookup_lt_Some _ _ _ Ht) as Hlt.
  unfold localize_and_connect.
  rewrite (bind_ok _ _ _ _ _ (get_prop_obj _ _ _ _ "_localizationEnabled" Ha)).
  rewrite Htok.
  destruct (truthy (prop ma "_localizationEnabled")); cbn [when andb]; [|reflexivity].
  rewrite ?bind_assoc.
  rewrite (bind_ok _ _ _ _ _ (get_prop_obj _ _ _ _ "locale" Ht)). cbv beta.
  destruct (truthy (prop mt "locale")); cbn [when]; [|reflexivity].
  rewrite ?bind_assoc.
  rewrite (bind_ok _ _ _ _ _ (get_prop_obj _ _ _ _ "locale" Ht)). cbv beta.
  unfold assign. rewrite ?bind_assoc.
  rewrite (bind_ok _ _ _ _ _ (alloc_run _ _)). cbv beta. rewrite ?bind_assoc.
  erewrite bind_ok
    by (apply (set_prop_obj _ t c mt); simpl; apply lookup_app_l_Some; exact Ht).
  cbv beta. rewrite ?bind_assoc.
  erewrite bind_ok.
  2:{ unfold i18n_init. simpl heap.
      rewrite list_lookup_insert_eq by (rewrite length_app; lia). reflexivity. }
  simpl. rewrite list_insert_insert_eq. reflexivity.
Qed.

(** X16.  When the context store has tokens for the installed app,
    [retrieveTokens()] overwrites the [locationId] of the context with the
    stored one and replaces [api] by a client built from the stored tokens,
    whose [locationId] is that same value; the client gets the mutex of the
    context when there is one and a new mutex otherwise.  The other fields
    of the context stay, the context is authenticated exactly when the
    stored token is truthy, and the promise is fulfilled with the context. *)
Theorem retrieveTokens_with_stored_tokens st this c m a ca ma s ms t d l h1 cl ml :
  heap st !! this = Some (Obj c m) ->
  m !! "app" = Some (VRef a) ->
  heap st !! a = Some (Obj ca ma) ->
  this <> a ->
  prop ma "_contextStore" = VRef s ->
  heap st !! s = Some (Obj CContextStore ms) ->
  host_contextStore_get host (prop m "installedAppId") = Response t (Ok d) ->
  alloc_data d (heap st) = (VRef l, h1) ->
  h1 !! l = Some (Obj cl ml) ->
  exists st',
    retrieveTokens host (VRef this) st = (st', Ok (Fulfilled (VRef this))) /\
    get_prop (VRef this) "locationId" st' = (st', Ok (prop ml "locationId")) /\
    get_path (VRef this) ["api"; "locationId"] st' = (st', Ok (prop ml "locationId")) /\
    get_path (VRef this) ["api"; "client"; "authToken"] st'
      = (st', Ok (prop ml "authToken")) /\
    get_path (VRef this) ["api"; "client"; "refreshToken"] st'
      = (st', Ok (prop ml "refreshToken")) /\
    get_path (VRef this) ["api"; "client"; "apiMutex"] st'
      = (st', Ok (if truthy (prop m "apiMutex") then prop m "apiMutex"
                  else VRef (length h1))) /\
    (if truthy (prop m "apiMutex") then True
     else heap st' !! length h1 = Some (Obj CMutex ∅)) /\
    isAuthenticated (VRef this) st' = (st', Ok (truthy (prop ml "authToken"))) /\
    (forall k, k <> "locationId" -> k <> "api" ->
               get_prop (VRef this) k st' = (st', Ok (prop m k))).
Proof.
  intros Ht Happ Ha Hne Hs Hst Hget Halloc Hl.
  destruct (receive_object _ _ _ _ Halloc) as (Hrecv & (ext & Hext) & Hfresh).
  pose proof (lookup_lt_Some _ _ _ Ht) as Hlt.
  assert (Happ' : prop m "app" = VRef a) by (unfold prop; rewrite Happ; reflexivity).
  set (m2 := <["locationId" := prop ml "locationId"]> m).
  set (st2 := with_heap st (<[this := Obj c m2]> h1)).
  assert (Ht2 : heap st2 !! this = Some (Obj c m2)).
  { apply list_lookup_insert_eq. rewrite Hext, length_app. lia. }
  assert (Ha2 : heap st2 !! a = Some (Obj ca ma)).
  { simpl. rewrite list_lookup_insert_ne by exact Hne. rewrite Hext.
    apply lookup_app_l_Some. exact Ha. }
  assert (Hl2 : heap st2 !! l = Some (Obj cl ml)).
  { simpl. rewrite list_lookup_insert_ne by lia. exact Hl. }
  assert (Hlen2 : length (heap st2) = length h1) by apply length_insert.
  set (mutex := if truthy (prop m "apiMutex") then prop m "apiMutex"
                else VRef (length h1)).
  set (st3 := if truthy (prop m "apiMutex") then st2
              else with_heap st2 (heap st2 ++ [Obj CMutex ∅])).
  assert (Hmutex : (let* mutex := get_prop (VRef this) "apiMutex" in
                    if truthy mutex then ret mutex else alloc (Obj CMutex ∅)) st2
                   = (st3, Ok mutex)).
  { rewrite (bind_ok _ _ _ _ _ (get_prop_obj _ _ _ _ "apiMutex" Ht2)).
    assert (E : prop m2 "apiMutex" = prop m "apiMutex").
    { unfold m2, prop. rewrite lookup_insert_ne by discriminate. reflexivity. }
    rewrite E. unfold st3, mutex.
    destruct (truthy (prop m "apiMutex")); [reflexivity|].
    rewrite alloc_run, Hlen2. reflexivity. }
  assert (Ht3 : heap st3 !! this = Some (Obj c m2)).
  { unfold st3. destruct (truthy (prop m "apiMutex")); [exact Ht2|].
    apply lookup_app_l_Some. exact Ht2. }
  pose proof (lookup_lt_Some _ _ _ Ht3) as Hlt3.
  set (options := client_options m2 ma (prop ml "authToken") (prop ml "refreshToken") mutex).
  set (st' := with_heap st3 (connected (heap st3) this c m2 options)).
  exists st'.
  destruct (connected_reads st' (heap st3) this c m2 options eq_refl Hlt3)
    as (Hapi & Hown & _ & Hclient & Hloc & Hid).
  destruct (client_options_lookups m2 ma (prop ml "authToken") (prop ml "refreshToken") mutex)
    as (Ho1 & Ho2 & Ho3 & Ho4 & Ho5).
  fold options in Ho1, Ho2, Ho3, Ho4, Ho5.
  assert (Hm2loc : prop m2 "locationId" = prop ml "locationId").
  { unfold m2, prop. rewrite lookup_insert_eq. reflexivity. }
  split; [|repeat split].
  - unfold retrieveTokens. apply async_ok.
    run (get_prop_obj _ _ _ _ "app" Ht). rewrite Happ'.
    run (get_prop_obj _ _ _ _ "_contextStore" Ha). rewrite Hs. cbn [truthy when].
    rewrite (bind_ok _ _ st st' tt); [reflexivity|].
    run (get_prop_obj _ _ _ _ "_contextStore" Ha). rewrite Hs.
    run (get_prop_obj _ _ _ _ "installedAppId" Ht).
    rewrite (bind_ok _ _ st (with_heap st h1) (VRef l)).
    2:{ unfold contextStore_get. rewrite Hst, Hget.
        rewrite (bind_ok _ _ _ _ _ (settle_ok t _ _ _ _ Hrecv)). reflexivity. }
    cbn [truthy when]. rewrite ?bind_assoc.
    rewrite (bind_ok _ _ (with_heap st h1) st2 tt).
    2:{ unfold assign.
        rewrite (bind_ok _ _ _ _ _ (get_prop_obj (with_heap st h1) _ _ _ "locationId" Hl)).
        erewrite set_prop_obj
          by (simpl; rewrite Hext; apply lookup_app_l_Some; exact Ht).
        reflexivity. }
    cbv beta. rewrite ?bind_assoc.
    run (get_prop_obj _ _ _ _ "authToken" Hl2).
    run (get_prop_obj _ _ _ _ "refreshToken" Hl2).
    rewrite (bind_ok _ _ _ _ _
               (api_options_run _ _ _ _ _ _ _ _ _ _ _ _ Ht2 Ha2 Hmutex)).
    apply connect_run. exact Ht3.
  - rewrite (Hown "locationId") by discriminate. rewrite Hm2loc. reflexivity.
  - rewrite Hloc, Ho4, Hm2loc. reflexivity.
  - rewrite (Hclient "authToken"), Ho1. reflexivity.
  - rewrite (Hclient "refreshToken"), Ho2. reflexivity.
  - rewrite (Hclient "apiMutex"), Ho3. reflexivity.
  - unfold mutex, st', st3 in *. destruct (truthy (prop m "apiMutex")); [exact I|].
    assert (Hle : length (heap st) <= length h1) by (rewrite Hext, length_app; lia).
    simpl. unfold connected. rewrite list_lookup_insert_ne by lia.
    rewrite <- app_assoc.
    apply list_lookup_middle. rewrite length_insert. reflexivity.
  - rewrite (isAuthenticated_connected st' (heap st3) this c m2 options eq_refl Hlt3).
    rewrite Ho1. reflexivity.
  - intros k H1 H2. rewrite (Hown k H2). unfold m2, prop.
    rewrite lookup_insert_ne by congruence. reflexivity.
Qed.

End MoreTokens.

(** ** The fan-out of the device aggregates *)

Lemma get_prop_ext st st1 ext v k x :
  heap st1 = heap st ++ ext ->
  get_prop v k st = (st, Ok x) -> get_prop v k st1 = (st1, Ok x).
Proof.
  intros Hh. unfold get_prop. destruct v; simpl;
    try (repeat case_match; intros Hr; inversion Hr; reflexivity).
  destruct (heap st !! l) as [o|] eqn:Hl; [|intros Hr; inversion Hr].
  rewrite Hh, (lookup_app_l_Some _ _ _ _ Hl).
  destruct o; repeat case_match; intros Hr; inversion Hr; reflexivity.
Qed.

Lemma get_path_ext ks : forall v st st1 ext x,
  heap st1 = heap st ++ ext ->
  get_path v ks st = (st, Ok x) -> get_path v ks st1 = (st1, Ok x).
Proof.
  induction ks as [|k ks IH]; intros v st st1 ext x Hh; simpl.
  - unfold ret. intros H. inversion H. reflexivity.
  - unfold bind. pose proof (get_prop_pure v k st) as Hp.
    destruct (get_prop v k st) as [st' [w|e]] eqn:Hg; simpl in Hp; subst st'.
    + rewrite (get_prop_ext _ _ _ _ _ _ Hh Hg). apply (IH _ _ _ _ _ Hh).
    + intros H. inversion H.
Qed.

Lemma record_for_ext st st1 ext cid v :
  heap st1 = heap st ++ ext -> record_for st cid v -> record_for st1 cid v.
Proof.
  intros Hh (l & m & -> & Hl & Hm). exists l, m.
  rewrite Hh, (lookup_app_l_Some _ _ _ _ Hl). auto.
Qed.

Lemma readable_ext st st1 ext v :
  heap st1 = heap st ++ ext -> readable st v -> readable st1 v.
Proof.
  intros Hh Hr k. destruct (Hr k) as (x & Hx). exists x.
  eapply get_prop_ext; eauto.
Qed.

Lemma readable_ref st l o : heap st !! l = Some o -> readable st (VRef l).
Proof.
  intros Hl k. unfold get_prop. rewrite Hl.
  destruct o; repeat case_match; eauto.
Qed.

(** Received data: a primitive as it is, or a reference to an object that
    exists. *)
Lemma alloc_data_readable d h st :
  heap st = (alloc_data d h).2 ->
  match d with
  | DUndef => (alloc_data d h).1 = VUndef
  | DNull => (alloc_data d h).1 = VNull
  | _ => readable st (alloc_data d h).1 /\
         (alloc_data d h).1 <> VUndef /\ (alloc_data d h).1 <> VNull
  end.
Proof.
  intros Hst. destruct d; simpl in *; try reflexivity.
  - split; [|split; discriminate]. intros k. eexists. reflexivity.
  - split; [|split; discriminate]. intros k. eexists. reflexivity.
  - split; [|split; discriminate].
    intros k. unfold get_prop. repeat case_match; eauto.
  - match goal with |- context [let '(_, _) := ?x in _] => destruct x as [vs h'] end.
    simpl in *. split; [|split; discriminate].
    eapply readable_ref. rewrite Hst. apply list_lookup_middle. reflexivity.
  - match goal with |- context [let '(_, _) := ?x in _] => destruct x as [m h'] end.
    simpl in *. split; [|split; discriminate].
    eapply readable_ref. rewrite Hst. apply list_lookup_middle. reflexivity.
Qed.

Lemma registered_ext host now st st1 ext e x :
  heap st1 = heap st ++ ext ->
  registered host now st e x -> registered host now st1 e x.
Proof.
  intros Hh (H1 & H2 & H3 & H4). repeat split; try assumption.
  intros v Hv Hb. eapply readable_ext; eauto.
Qed.

(** *** The order of settlement *)

Lemma insert_by_instant_perm x l : insert_by_instant x l ≡ₚ x :: l.
Proof.
  induction l as [|y l IH]; simpl; [reflexivity|].
  case_bool_decide; [reflexivity|]. rewrite IH. apply Permutation_swap.
Qed.

Lemma sorted_by_instant_perm l : foldr insert_by_instant [] l ≡ₚ l.
Proof.
  induction l as [|x l IH]; simpl; [reflexivity|].
  rewrite insert_by_instant_perm, IH. reflexivity.
Qed.

Lemma enumerate_from_fst ps : forall n, (enumerate_from n ps).*1 = seq n (length ps).
Proof.
  induction ps as [|p ps IH]; intros n; simpl; [reflexivity|].
  rewrite IH. reflexivity.
Qed.

Lemma settle_order_perm ps : settle_order ps ≡ₚ seq 0 (length ps).
Proof.
  unfold settle_order. rewrite sorted_by_instant_perm. rewrite enumerate_from_fst.
  reflexivity.
Qed.

Lemma settle_order_covers ps i : i < length ps -> i ∈ settle_order ps.
Proof.
  intros Hi. rewrite settle_order_perm. apply elem_of_seq. lia.
Qed.

(** *** Sorting by instant *)

Lemma insert_by_instant_sorted x l :
  StronglySorted (fun a b : nat * nat => a.2 <= b.2) l ->
  StronglySorted (fun a b : nat * nat => a.2 <= b.2) (insert_by_instant x l).
Proof.
  induction 1 as [|y l Hl IH Hy]; simpl.
  - repeat constructor.
  - case_bool_decide as Hle.
    + constructor; [constructor; assumption|].
      constructor; [exact Hle|].
      eapply Forall_impl; [exact Hy|]. simpl. intros z Hz. lia.
    + constructor; [exact IH|].
      rewrite insert_by_instant_perm. constructor; [lia | exact Hy].
Qed.

Lemma sorted_by_instant_sorted l :
  StronglySorted (fun a b : nat * nat => a.2 <= b.2) (foldr insert_by_instant [] l).
Proof.
  induction l as [|x l IH]; simpl; [constructor|].
  apply insert_by_instant_sorted. exact IH.
Qed.

Lemma enumerate_from_lookup ps : forall n i t,
  (i, t) ∈ enumerate_from n ps ->
  exists p, ps !! (i - n) = Some p /\ settled_at p = t /\ n <= i.
Proof.
  induction ps as [|p ps IH]; intros n i t; simpl; [intros H; inversion H|].
  intros H. apply elem_of_cons in H as [[= -> ->] | H].
  - exists p. rewrite Nat.sub_diag. auto.
  - destruct (IH _ _ _ H) as (q & Hq & Ht & Hle). exists q.
    replace (i - n) with (S (i - S n)) by lia. simpl. repeat split; [exact Hq | exact Ht | lia].
Qed.

(** The instants found along the order of settlement are in order. *)
Lemma omap_sorted (ps : list promise) (g : promise -> option nat) (l : list (nat * nat)) :
  (forall p t, g p = Some t -> t = settled_at p) ->
  (forall i t, (i, t) ∈ l -> exists p, ps !! i = Some p /\ settled_at p = t) ->
  StronglySorted (fun a b : nat * nat => a.2 <= b.2) l ->
  StronglySorted le (omap (fun i => ps !! i ≫= g) l.*1).
Proof.
  intros Hg Hl Hs. induction Hs as [|[i t] l Hs IH Hi]; simpl; [constructor|].
  assert (Hl' : forall j u, (j, u) ∈ l -> exists p, ps !! j = Some p /\ settled_at p = u).
  { intros j u Hj. apply Hl. apply elem_of_cons. right. exact Hj. }
  specialize (IH Hl').
  destruct (Hl i t) as (p & Hp & Ht); [apply elem_of_cons; left; reflexivity|].
  rewrite Hp. simpl. destruct (g p) as [t'|] eqn:Hgp; [|exact IH].
  apply Hg in Hgp. subst t'. constructor; [exact IH|].
  apply Forall_forall. intros u Hu.
  apply list_elem_of_omap in Hu as (j & Hj & Hu).
  apply list_elem_of_fmap in Hj as ([j' u'] & -> & Hj). simpl in Hu.
  destruct (Hl' _ _ Hj) as (q & Hq & Hqu). rewrite Hq in Hu. simpl in Hu.
  apply Hg in Hu. rewrite Forall_forall in Hi. specialize (Hi _ Hj). simpl in Hi. lia.
Qed.

Lemma omap_seq_lookup {A B} (g : A -> option B) (l : list A) : forall pre,
  omap (fun i => (pre ++ l) !! i ≫= g) (seq (length pre) (length l)) = omap g l.
Proof.
  induction l as [|x l IH]; intros pre; [reflexivity|].
  specialize (IH (pre ++ [x])). rewrite length_app, <- app_assoc in IH.
  cbn [length Datatypes.app] in IH.
  replace (length pre + 1) with (S (length pre)) in IH by lia.
  cbn [length seq]. change (omap g (x :: l)) with
    (match g x with Some y => y :: omap g l | None => omap g l end).
  rewrite <- IH.
  change (omap ?f (?i :: ?r)) with
    (match f i with Some y => y :: omap f r | None => omap f r end).
  cbv beta. rewrite list_lookup_middle by reflexivity. reflexivity.
Qed.

(** Along the order of settlement every promise is met once, and the
    instants met are in order. *)
Lemma settle_order_instants (ps : list promise) (g : promise -> option nat) :
  (forall p t, g p = Some t -> t = settled_at p) ->
  StronglySorted le (omap (fun i => ps !! i ≫= g) (settle_order ps)) /\
  omap (fun i => ps !! i ≫= g) (settle_order ps) ≡ₚ omap g ps.
Proof.
  intros Hg. split.
  - unfold settle_order. apply omap_sorted; [exact Hg | | apply sorted_by_instant_sorted].
    intros i t Hin. rewrite sorted_by_instant_perm in Hin.
    destruct (enumerate_from_lookup _ _ _ _ Hin) as (p & Hp & Ht & _).
    rewrite Nat.sub_0_r in Hp. eauto.
  - rewrite settle_order_perm. rewrite <- (omap_seq_lookup g ps []). reflexivity.
Qed.

(** *** The callback of [configDevices] *)

Lemma describe_run cid p st :
  exists st' q ext,
    describe cid p st = (st', Ok q) /\
    clock st' = clock st /\
    calls st' = calls st /\
    heap st' = heap st ++ ext /\
    settled_at q = settled_at p /\
    (forall v, outcome q = Ok v ->
       record_for st' cid v /\ exists l, v = VRef l /\ length (heap st) <= l) /\
    (hands_over p = false -> is_rejected q = true) /\
    (forall v, outcome p = Ok v -> readable st v -> exists w, outcome q = Ok w).
Proof.
  unfold describe, then_, is_rejected, hands_over.
  destruct (outcome p) as [v|e] eqn:Hp.
  - unfold at_instant.
    set (s0 := State (heap st) (settled_at p) (calls st)).
    match goal with
    | |- context [(bind ?c ?k) s0] => destruct ((bind c k) s0) as [st2 res] eqn:Hcb
    end.
    assert (Hst2 : calls st2 = calls st /\
                   exists ext, heap st2 = heap st ++ ext /\
                   (forall v', res = Ok v' ->
                      record_for st2 cid v' /\
                      exists l, v' = VRef l /\ length (heap st) <= l) /\
                   (readable st v -> exists w, res = Ok w) /\
                   (v = VUndef \/ v = VNull -> exists e, res = Throw e)).
    { assert (Hs0 : heap s0 = heap st ++ []) by (rewrite app_nil_r; reflexivity).
      pose proof (get_prop_pure v "deviceId" s0) as P1.
      unfold bind in Hcb.
      destruct (get_prop v "deviceId" s0) as [s1 [x1|e1]] eqn:G1; simpl in P1; subst s1.
      2:{ inversion Hcb; subst. split; [reflexivity|].
          exists []. rewrite app_nil_r. split; [reflexivity|]. split; [discriminate|].
          split; [|eauto].
          intros Hr. destruct (Hr "deviceId") as (x & Hx).
          rewrite (get_prop_ext _ _ _ _ _ _ Hs0 Hx) in G1. discriminate. }
      pose proof (get_prop_pure v "name" s0) as P2.
      destruct (get_prop v "name" s0) as [s1 [x2|e2]] eqn:G2; simpl in P2; subst s1.
      2:{ inversion Hcb; subst. split; [reflexivity|].
          exists []. rewrite app_nil_r. split; [reflexivity|]. split; [discriminate|].
          split; [|eauto].
          intros Hr. destruct (Hr "name") as (x & Hx).
          rewrite (get_prop_ext _ _ _ _ _ _ Hs0 Hx) in G2. discriminate. }
      pose proof (get_prop_pure v "label" s0) as P3.
      destruct (get_prop v "label" s0) as [s1 [x3|e3]] eqn:G3; simpl in P3; subst s1.
      2:{ inversion Hcb; subst. split; [reflexivity|].
          exists []. rewrite app_nil_r. split; [reflexivity|]. split; [discriminate|].
          split; [|eauto].
          intros Hr. destruct (Hr "label") as (x & Hx).
          rewrite (get_prop_ext _ _ _ _ _ _ Hs0 Hx) in G3. discriminate. }
      rewrite alloc_run in Hcb. inversion Hcb; subst. split; [reflexivity|].
      eexists. split; [reflexivity|].
      split; [|split; [intros _; eexists; reflexivity|]].
      2:{ intros [-> | ->]; discriminate G1. }
      intros v' [= <-]. split.
      - eexists _, _. split; [reflexivity|]. split.
        + simpl. apply list_lookup_middle. reflexivity.
        + rewrite !lookup_insert_ne by discriminate. apply lookup_insert_eq.
      - eexists. split; [reflexivity|]. reflexivity. }
    destruct Hst2 as (Hc2 & ext & Hh2 & Hrec & Hok & Hnone).
    eexists _, _, ext. split; [reflexivity|].
    cbn [heap clock calls outcome settled_at].
    split; [reflexivity|]. split; [exact Hc2|]. split; [exact Hh2|].
    split; [reflexivity|]. split; [exact Hrec|]. split.
    + intros Hb. destruct (Hnone ltac:(destruct v; auto; discriminate)) as [e ->].
      reflexivity.
    + intros v' [= <-] Hr. exact (Hok Hr).
  - exists st, p, []. rewrite app_nil_r, Hp. unfold ret.
    repeat split; discriminate.
Qed.

Lemma run_later_describe : forall order pending st,
  exists st' done ext,
    run_later describe order pending st = (st', Ok done) /\
    clock st' = clock st /\
    calls st' = calls st /\
    heap st' = heap st ++ ext /\
    done.*1 = pending.*1 /\
    (fun x : value * promise => settled_at x.2) <$> done
      = (fun x : value * promise => settled_at x.2) <$> pending /\
    (forall i, i ∉ order -> done !! i = pending !! i) /\
    (forall i cid q, i ∈ order -> done !! i = Some (cid, q) ->
       forall v, outcome q = Ok v -> record_for st' cid v).
Proof.
  induction order as [|i order IH]; intros pending st.
  - exists st, pending, []. rewrite app_nil_r. simpl. unfold ret.
    repeat split. intros i cid q Hi. inversion Hi.
  - cbn [run_later]. destruct (pending !! i) as [[kept p]|] eqn:Hi.
    + destruct (describe_run kept p st)
        as (st1 & q & ext1 & Hrun & Hck & Hcl & Hh & Hat & Hrec & _ & _).
      destruct (IH (<[i := (kept, q)]> pending) st1)
        as (st2 & done & ext2 & Hrun2 & Hck2 & Hcl2 & Hh2 & Hd1 & Hd2 & Hout & Hin).
      exists st2, done, (ext1 ++ ext2).
      rewrite (bind_ok _ _ _ _ _ Hrun). cbv beta.
      split; [exact Hrun2|]. split; [congruence|]. split; [congruence|].
      split; [rewrite Hh2, Hh, app_assoc; reflexivity|].
      assert (Hlt : i < length pending) by (eapply lookup_lt_Some; exact Hi).
      split.
      { rewrite Hd1, list_fmap_insert. apply list_insert_id.
        rewrite list_lookup_fmap, Hi. reflexivity. }
      split.
      { rewrite Hd2, list_fmap_insert. apply list_insert_id.
        rewrite list_lookup_fmap, Hi. simpl. rewrite Hat. reflexivity. }
      split.
      { intros j Hj. apply not_elem_of_cons in Hj as [Hne Hj].
        rewrite (Hout j Hj). apply list_lookup_insert_ne. congruence. }
      intros j cid q' Hj Hdone v Hv.
      destruct (decide (j ∈ order)) as [Hjo | Hjo]; [eapply Hin; eauto|].
      apply elem_of_cons in Hj as [-> | Hj]; [|contradiction].
      rewrite (Hout i Hjo), list_lookup_insert_eq in Hdone by exact Hlt.
      inversion Hdone; subst.
      eapply record_for_ext; [exact Hh2|]. apply Hrec. exact Hv.
    + destruct (IH pending st)
        as (st2 & done & ext2 & Hrun2 & Hck2 & Hcl2 & Hh2 & Hd1 & Hd2 & Hout & Hin).
      exists st2, done, ext2. split; [exact Hrun2|].
      split; [exact Hck2|]. split; [exact Hcl2|]. split; [exact Hh2|].
      split; [exact Hd1|]. split; [exact Hd2|]. split.
      { intros j Hj. apply not_elem_of_cons in Hj as [_ Hj]. apply Hout. exact Hj. }
      intros j cid q' Hj Hdone v Hv.
      destruct (decide (j ∈ order)) as [Hjo | Hjo]; [eapply Hin; eauto|].
      apply elem_of_cons in Hj as [-> | Hj]; [|contradiction].
      rewrite (Hout i Hjo), Hi in Hdone. discriminate.
Qed.

(** The callbacks of [configDevices]: every promise is replaced by one
    that settles at the same instant and, when fulfilled, holds a record
    for the component of its entry. *)
Lemma later_describe pending st :
  exists st' list ext,
    later describe pending st = (st', Ok list) /\
    clock st' = clock st /\
    calls st' = calls st /\
    heap st' = heap st ++ ext /\
    Forall2 (fun x q =>
               settled_at q = settled_at x.2 /\
               forall v, outcome q = Ok v -> record_for st' x.1 v) pending list.
Proof.
  unfold later.
  destruct (run_later_describe (settle_order pending.*2) pending st)
    as (st' & done & ext & Hrun & Hck & Hcl & Hh & Hd1 & Hd2 & _ & Hin).
  exists st', done.*2, ext. rewrite (bind_ok _ _ _ _ _ Hrun). cbv beta. unfold ret.
  split; [reflexivity|]. split; [exact Hck|]. split; [exact Hcl|].
  split; [exact Hh|].
  assert (Hlen : length done = length pending).
  { rewrite <- (length_fmap fst done), Hd1, length_fmap. reflexivity. }
  apply Forall2_same_length_lookup_2; [rewrite length_fmap; congruence|].
  intros i [kept p] q Hp Hq.
  rewrite list_lookup_fmap in Hq.
  destruct (done !! i) as [[kept' q']|] eqn:Hdone; [|discriminate].
  simpl in Hq. inversion Hq; subst q'.
  assert (Hk : kept' = kept).
  { apply (f_equal (fun l => l !! i)) in Hd1.
    rewrite !list_lookup_fmap, Hdone, Hp in Hd1. simpl in Hd1. congruence. }
  subst kept'. split.
  - apply (f_equal (fun l => l !! i)) in Hd2.
    rewrite !list_lookup_fmap, Hdone, Hp in Hd2. simpl in Hd2 |- *. congruence.
  - simpl. apply (Hin i kept q); [|exact Hdone].
    apply settle_order_covers. rewrite length_fmap.
    eapply lookup_lt_Some. exact Hp.
Qed.

Section FanOut.

Context (host : Host).

(** One turn of the loop on a well-formed entry. *)
Lemma device_request_run st this item cid id dv mdv :
  get_path item ["deviceConfig"; "componentId"] st = (st, Ok cid) ->
  get_path item ["deviceConfig"; "deviceId"] st = (st, Ok id) ->
  get_path this ["api"; "devices"] st = (st, Ok (VRef dv)) ->
  heap st !! dv = Some (Obj CDevices mdv) ->
  exists st' found ext,
    device_request host this item st = (st', Ok (cid, found)) /\
    clock st' = clock st /\
    calls st' = calls st ++ [metadata_lookup host (clock st) id] /\
    heap st' = heap st ++ ext /\
    registered host (clock st) st' (cid, id) (cid, found).
Proof.
  intros Hcid Hid Hdev Hdv. unfold device_request.
  run Hcid. run Hdev.
  rewrite (bind_ok _ _ st st tt) by reflexivity. cbv beta.
  run Hid.
  set (r := host_devices_get host (clock st) id).
  set (st0 := State (heap st) (clock st) (calls st ++ [RemoteCall GetDevice (clock st) id r])).
  assert (Hcall : devices_call host GetDevice (VRef dv) id st = settle r st0).
  { unfold devices_call. rewrite Hdv. reflexivity. }
  unfold bind at 1. rewrite Hcall.
  unfold settle, registered, answers, hands_over. cbn [fst snd]. fold r.
  destruct (resp_outcome r) as [d|e] eqn:Hr.
  - destruct (alloc_data_grows d (heap st0)) as (ext1 & Hext1 & _).
    unfold bind at 1, receive.
    destruct (alloc_data d (heap st0)) as [v h1] eqn:Ha. simpl in Hext1. subst h1.
    cbn [ret].
    pose proof (alloc_data_readable d (heap st0)
                  (State (heap st ++ ext1) (clock st0) (calls st0))) as Hv.
    rewrite Ha in Hv. specialize (Hv eq_refl). cbn [fst] in Hv.
    eexists _, _, ext1. split; [reflexivity|]. cbn [heap clock calls outcome settled_at].
    split; [reflexivity|]. split; [reflexivity|]. split; [reflexivity|].
    split; [reflexivity|]. split; [reflexivity|]. split.
    + destruct d; try (destruct Hv as (_ & Hu & Hn); destruct v; congruence);
        subst v; reflexivity.
    + intros v' [= <-] Hb.
      destruct d; try (destruct Hv as (Hv & _); exact Hv); subst v; discriminate.
  - cbn [ret]. eexists _, _, []. split; [reflexivity|].
    cbn [heap clock calls outcome settled_at]. rewrite app_nil_r.
    split; [reflexivity|]. split; [reflexivity|]. split; [reflexivity|].
    split; [reflexivity|]. split; [reflexivity|]. split; [reflexivity|].
    discriminate.
Qed.

(** The whole loop: one lookup per entry, all issued at the instant of the
    call, and nothing thrown. *)
Lemma forEach_push_run this dv mdv items : forall entries st now,
  now = clock st ->
  Forall2 (fun it e => device_entry st it e.1 e.2) items entries ->
  get_path this ["api"; "devices"] st = (st, Ok (VRef dv)) ->
  heap st !! dv = Some (Obj CDevices mdv) ->
  exists st' pending ext,
    forEach_push (device_request host this) items st = (st', Ok (pending, None)) /\
    clock st' = clock st /\
    calls st' = calls st ++ map (metadata_lookup host now) entries.*2 /\
    heap st' = heap st ++ ext /\
    Forall2 (registered host now st') entries pending.
Proof.
  induction items as [|item items IH]; intros entries st now Hnow Hes Hdev Hdv.
  - inversion Hes; subst. exists st, [], []. simpl. rewrite !app_nil_r.
    repeat split. constructor.
  - inversion Hes as [|? [cid id] ? entries' [Hcid Hid] Hrest]; subst. simpl in Hcid, Hid.
    destruct (device_request_run st this item _ _ dv mdv Hcid Hid Hdev Hdv)
      as (st1 & found & ext1 & Hrun & Hck & Hcl & Hh & Hreg).
    destruct (IH entries' st1 (clock st))
      as (st2 & pending & ext2 & Hrun2 & Hck2 & Hcl2 & Hh2 & Hall).
    { symmetry. exact Hck. }
    { eapply Forall2_impl; [exact Hrest|]. intros it e' [H1 H2].
      split; eapply get_path_ext; eauto. }
    { eapply get_path_ext; eauto. }
    { rewrite Hh. apply lookup_app_l_Some. exact Hdv. }
    exists st2, ((cid, found) :: pending), (ext1 ++ ext2).
    cbn [forEach_push]. rewrite Hrun.
    rewrite (bind_ok _ _ _ _ _ Hrun2). cbv beta iota.
    split; [reflexivity|]. split; [congruence|].
    split; [rewrite Hcl2, Hcl; cbn [fmap list_fmap map snd]; rewrite <- app_assoc;
            reflexivity|].
    split; [rewrite Hh2, Hh, app_assoc; reflexivity|].
    constructor; [|exact Hall].
    eapply registered_ext; [exact Hh2 | exact Hreg].
Qed.

(** What [configDevices] does on a well-formed entry list of a context
    that has a client. *)
Lemma configDevices_run st this mc name e items entries dv mdv :
  has_config st this mc ->
  mc !! name = Some (VRef e) ->
  heap st !! e = Some (Arr items) ->
  Forall2 (fun it e => device_entry st it e.1 e.2) items entries ->
  get_path (VRef this) ["api"; "devices"] st = (st, Ok (VRef dv)) ->
  heap st !! dv = Some (Obj CDevices mdv) ->
  exists st' p,
    configDevices host (VRef this) name st = (st', Ok (RetPromise p)) /\
    clock st' = clock st /\
    calls st' = calls st ++ map (metadata_lookup host (clock st)) entries.*2 /\
    (is_rejected p = false ->
     exists arr recs,
       outcome p = Ok (VRef arr) /\
       heap st' !! arr = Some (Arr recs) /\
       Forall2 (record_for st') entries.*1 recs /\
       settled_at p =
         foldr (fun id t => resp_at (host_devices_get host (clock st) id) `max` t)
               (clock st) entries.*2).
Proof.
  intros Hc He Ha Hes Hdev Hdv.
  destruct (forEach_push_run (VRef this) dv mdv items entries st (clock st)
              eq_refl Hes Hdev Hdv)
    as (st1 & pending & ext1 & Hloop & Hck1 & Hcl1 & Hh1 & Hreg).
  destruct (later_describe pending st1)
    as (st2 & list & ext2 & Hlater & Hck2 & Hcl2 & Hh2 & Hall).
  assert (Hrel : Forall2 (fun e q =>
            settled_at q = resp_at (host_devices_get host (clock st) e.2) /\
            forall v, outcome q = Ok v -> record_for st2 e.1 v) entries list).
  { clear - Hreg Hall. revert list Hall.
    induction Hreg as [|e0 x es xs (Hx1 & Hx2 & _) _ IH]; intros list Hall;
      inversion Hall as [|? q ? qs (Hq1 & Hq2) Hqs]; subst; constructor.
    - split; [congruence|]. rewrite <- Hx1. exact Hq2.
    - apply IH. exact Hqs. }
  unfold configDevices.
  run (config_entry_array _ _ _ _ _ Hc He). cbn [truthy negb].
  run (array_elems_arr _ _ _ Ha). run Hloop. run Hlater.
  unfold Promise_all. destruct (first_rejected list) as [q|] eqn:Hq.
  - eexists _, _. unfold bind, ret. split; [reflexivity|].
    split; [congruence|]. split; [congruence|].
    unfold is_rejected at 1. cbn [outcome].
    pose proof (first_rejected_is_rejected _ _ Hq) as Hrej. unfold is_rejected in Hrej.
    destruct (outcome q); discriminate.
  - unfold bind. rewrite alloc_run. unfold ret.
    eexists _, _. split; [reflexivity|].
    split; [simpl; congruence|]. split; [simpl; congruence|]. intros _.
    eexists _, _. cbn [outcome settled_at]. split; [reflexivity|].
    split; [apply list_lookup_middle; reflexivity|].
    pose proof (first_rejected_none _ Hq) as Hnone. clear Hq Hlater Hall.
    split.
    + match goal with
      | |- Forall2 (record_for ?s) _ _ =>
          assert (Hstf : heap s = heap st2 ++ [Arr (fulfilled_values list)]) by reflexivity;
          revert Hstf; generalize s; generalize [Arr (fulfilled_values list)]
      end.
      intros tail stf Hstf. clear Hes Hcl1 Hreg Hloop.
      induction Hrel as [|e0 p es ps' [_ Hrec] _ IH]; [constructor|].
      inversion Hnone as [|? ? Hp Hps]; subst.
      unfold is_rejected in Hp. unfold fulfilled_values. simpl.
      destruct (outcome p) as [v|] eqn:Ho; [|discriminate]. simpl.
      constructor; [|apply IH; exact Hps].
      eapply record_for_ext; [exact Hstf | apply Hrec; reflexivity].
    + rewrite Hck2, Hck1. clear Hnone Hes Hcl1 Hreg Hloop.
      induction Hrel as [|e0 p es ps' [Hat _] _ IH]; simpl; [reflexivity|].
      rewrite Hat, IH. reflexivity.
Qed.

(** X17.  [configDevices] fans out.  On a context that has a client, and
    a key whose entries each name a device and a component, it does not
    throw and it issues exactly one metadata lookup per entry, for the
    device of the entry, in the order of the entries and all at the instant
    of the call: no lookup waits for the answer to another. *)
Theorem configDevices_issues_every_lookup_at_once st this mc name e items entries dv mdv :
  has_config st this mc ->
  mc !! name = Some (VRef e) ->
  heap st !! e = Some (Arr items) ->
  Forall2 (fun it e => device_entry st it e.1 e.2) items entries ->
  get_path (VRef this) ["api"; "devices"] st = (st, Ok (VRef dv)) ->
  heap st !! dv = Some (Obj CDevices mdv) ->
  exists st' p,
    configDevices host (VRef this) name st = (st', Ok (RetPromise p)) /\
    clock st' = clock st /\
    calls st' = calls st ++ map (metadata_lookup host (clock st)) entries.*2.
Proof.
  intros Hc He Ha Hes Hdev Hdv.
  destruct (configDevices_run _ _ _ _ _ _ _ _ _ Hc He Ha Hes Hdev Hdv)
    as (st' & p & H1 & H2 & H3 & _).
  exists st', p. auto.
Qed.

(** X18.  When the promise [configDevices] returns is fulfilled, its value
    is an array with one record per entry, in the order of the entries
    whatever the order of the answers, and each record carries the
    componentId of its entry.  The promise settles when the last answer
    arrives. *)
Theorem configDevices_keeps_entry_order st this mc name e items entries dv mdv st' p :
  has_config st this mc ->
  mc !! name = Some (VRef e) ->
  heap st !! e = Some (Arr items) ->
  Forall2 (fun it e => device_entry st it e.1 e.2) items entries ->
  get_path (VRef this) ["api"; "devices"] st = (st, Ok (VRef dv)) ->
  heap st !! dv = Some (Obj CDevices mdv) ->
  configDevices host (VRef this) name st = (st', Ok (RetPromise p)) ->
  is_rejected p = false ->
  exists arr recs,
    outcome p = Ok (VRef arr) /\
    heap st' !! arr = Some (Arr recs) /\
    Forall2 (record_for st') entries.*1 recs /\
    settled_at p =
      foldr (fun id t => resp_at (host_devices_get host (clock st) id) `max` t)
            (clock st) entries.*2.
Proof.
  intros Hc He Ha Hes Hdev Hdv Hrun Hp.
  destruct (configDevices_run _ _ _ _ _ _ _ _ _ Hc He Ha Hes Hdev Hdv)
    as (st1 & p1 & H1 & _ & _ & H4).
  rewrite Hrun in H1. inversion H1; subst. exact (H4 Hp).
Qed.

(** *** The callbacks of [configDevicesWithState] *)

(** The callback of the state lookup writes to the record only. *)
Lemma state_callback_run s l c m state cid :
  heap s !! l = Some (Obj c m) ->
  exists s' r o,
    (let* components := get_prop state "components" in
     let* key := property_key host cid in
     assign (VRef l) "state" (get_prop components key) ;;;
     ret (VRef l)) s = (s', r) /\
    clock s' = clock s /\ calls s' = calls s /\
    heap s' = <[l := o]> (heap s).
Proof.
  intros Hl.
  assert (Hid : heap s = <[l := Obj c m]> (heap s))
    by (symmetry; apply list_insert_id; exact Hl).
  unfold bind at 1.
  pose proof (get_prop_pure state "components" s) as P1.
  destruct (get_prop state "components" s) as [s1 [comps|e]]; simpl in P1; subst s1;
    [|eexists _, _, _; do 3 (split; [reflexivity|]); exact Hid].
  unfold bind at 1.
  assert (Hk : exists key, property_key host cid s = (s, Ok key)).
  { unfold property_key. destruct cid as [| |[]| | | |]; eexists; reflexivity. }
  destruct Hk as [key Hk]. rewrite Hk.
  unfold assign. rewrite !bind_assoc. unfold bind at 1.
  pose proof (get_prop_pure comps key s) as P2.
  destruct (get_prop comps key s) as [s1 [x|e]]; simpl in P2; subst s1;
    [|eexists _, _, _; do 3 (split; [reflexivity|]); exact Hid].
  rewrite (bind_ok _ _ _ _ _ (set_prop_obj _ _ _ _ _ _ Hl)). unfold ret.
  eexists _, _, _. do 3 (split; [reflexivity|]). reflexivity.
Qed.

(** The chain of one entry: a state lookup is issued exactly when the
    metadata lookup has handed over a device, at the instant it settled. *)
Lemma describe_with_state_run this cid p st dv mdv :
  get_path this ["api"; "devices"] st = (st, Ok (VRef dv)) ->
  heap st !! dv = Some (Obj CDevices mdv) ->
  (forall v, outcome p = Ok v -> hands_over p = true -> readable st v) ->
  exists st' q ext news,
    describe_with_state host this cid p st = (st', Ok q) /\
    clock st' = clock st /\
    calls st' = calls st ++ news /\
    heap st' = heap st ++ ext /\
    Forall (fun c => rc_kind c = GetState /\
                     rc_response c
                     = host_devices_getState host (rc_issued_at c) (rc_arg c)) news /\
    rc_issued_at <$> news = option_list (state_lookup_instant p).
Proof.
  intros Hdev Hdv Hread. unfold describe_with_state.
  destruct (describe_run cid p st)
    as (st1 & q1 & ext1 & Hrun & Hck & Hcl & Hh & Hat & Hrec & Hrej & Hok).
  rewrite (bind_ok _ _ _ _ _ Hrun). cbv beta.
  unfold state_lookup_instant.
  destruct (hands_over p) eqn:Hb.
  - (* a device is handed over: the record is there *)
    assert (Hv : exists v, outcome p = Ok v).
    { unfold hands_over in Hb. destruct (outcome p); [eauto | discriminate]. }
    destruct Hv as [v Hv].
    destruct (Hok v Hv (Hread v Hv eq_refl)) as [w Hw].
    destruct (Hrec w Hw) as ((l & m & -> & Hl & _) & l' & [= <-] & Hle).
    unfold then_promise. rewrite Hw. unfold at_instant.
    set (s1 := State (heap st1) (settled_at q1) (calls st1)).
    assert (Hdev1 : get_path this ["api"; "devices"] s1 = (s1, Ok (VRef dv))).
    { eapply get_path_ext; [|exact Hdev]. exact Hh. }
    rewrite (bind_ok _ _ _ _ _ Hdev1). cbv beta.
    rewrite (bind_ok _ _ s1 s1 tt) by reflexivity. cbv beta.
    rewrite (bind_ok _ _ _ _ _ (get_prop_obj s1 _ _ _ "deviceId" Hl)). cbv beta.
    set (x := prop m "deviceId").
    set (r2 := host_devices_getState host (settled_at q1) x).
    set (s2 := State (heap st1) (settled_at q1)
                 (calls st1 ++ [RemoteCall GetState (settled_at q1) x r2])).
    assert (Hcall : devices_call host GetState (VRef dv) x s1 = settle r2 s2).
    { unfold devices_call. cbn [heap s1]. rewrite Hh, (lookup_app_l_Some _ _ _ _ Hdv).
      rewrite <- Hh. reflexivity. }
    unfold bind at 1. rewrite Hcall.
    assert (Hnews : Forall (fun c => rc_kind c = GetState /\
                       rc_response c
                       = host_devices_getState host (rc_issued_at c) (rc_arg c))
                      [RemoteCall GetState (settled_at q1) x r2] /\
                    rc_issued_at <$> [RemoteCall GetState (settled_at q1) x r2]
                    = option_list (Some (settled_at p))).
    { split; [repeat constructor|]. simpl. rewrite Hat. reflexivity. }
    destruct Hnews as [Hn1 Hn2].
    unfold settle. destruct (resp_outcome r2) as [d2|e2].
    + destruct (alloc_data_grows d2 (heap s2)) as (ext2 & Hext2 & _).
      unfold bind at 1, receive.
      destruct (alloc_data d2 (heap s2)) as [v2 h2]. simpl in Hext2. subst h2.
      cbn [ret]. unfold then_. cbn [outcome settled_at]. unfold at_instant.
      cbn [heap clock calls s2].
      match goal with
      | |- context [(bind ?c ?k) ?s] =>
          destruct (state_callback_run s l CObject m v2 cid)
            as (s' & res & o & Hcb & Hc1 & Hc2 & Hc3);
          [ cbn [heap]; apply lookup_app_l_Some; exact Hl | ]
      end.
      rewrite Hcb.
      eexists _, _, (<[l - length (heap st) := o]> (ext1 ++ ext2)), _.
      split; [reflexivity|]. cbn [heap clock calls].
      split; [exact Hck|].
      split; [rewrite Hc2; cbn [calls]; rewrite Hcl; reflexivity|].
      split; [|split; [exact Hn1 | exact Hn2]].
      rewrite Hc3. cbn [heap]. rewrite Hh, <- app_assoc.
      apply insert_app_r_alt. exact Hle.
    + cbn [ret]. unfold then_. cbn [outcome].
      eexists _, _, ext1, _. split; [reflexivity|]. cbn [heap clock calls s2].
      split; [exact Hck|].
      split; [rewrite Hcl; reflexivity|].
      split; [exact Hh|]. split; [exact Hn1 | exact Hn2].
  - (* nothing to describe: the rejection passes through *)
    specialize (Hrej eq_refl). unfold then_promise.
    unfold is_rejected in Hrej. destruct (outcome q1) as [w|e]; [discriminate|].
    exists st1, q1, ext1, []. unfold ret. rewrite app_nil_r.
    split; [reflexivity|]. split; [exact Hck|]. split; [exact Hcl|].
    split; [exact Hh|]. split; [constructor | reflexivity].
Qed.

Lemma run_later_with_state this dv mdv (F : nat -> option nat) :
  forall order pending st,
  NoDup order ->
  get_path this ["api"; "devices"] st = (st, Ok (VRef dv)) ->
  heap st !! dv = Some (Obj CDevices mdv) ->
  (forall i x, i ∈ order -> pending !! i = Some x ->
     F i = state_lookup_instant x.2 /\
     forall v, outcome x.2 = Ok v -> hands_over x.2 = true -> readable st v) ->
  (forall i, i ∈ order -> pending !! i = None -> F i = None) ->
  exists st' done ext news,
    run_later (describe_with_state host this) order pending st = (st', Ok done) /\
    clock st' = clock st /\
    calls st' = calls st ++ news /\
    heap st' = heap st ++ ext /\
    Forall (fun c => rc_kind c = GetState /\
                     rc_response c
                     = host_devices_getState host (rc_issued_at c) (rc_arg c)) news /\
    rc_issued_at <$> news = omap F order.
Proof.
  induction order as [|i order IH]; intros pending st Hnd Hdev Hdv Hwf Hnone.
  - exists st, pending, [], []. rewrite !app_nil_r. simpl. unfold ret.
    repeat split. constructor.
  - apply NoDup_cons in Hnd as [Hi Hnd]. cbn [run_later].
    destruct (pending !! i) as [[kept p]|] eqn:Hp.
    + destruct (Hwf i (kept, p)) as [HF Hread];
        [apply elem_of_cons; left; reflexivity | exact Hp |]. simpl in HF, Hread.
      destruct (describe_with_state_run this kept p st dv mdv Hdev Hdv Hread)
        as (st1 & q & ext1 & n1 & Hrun & Hck & Hcl & Hh & Hk1 & Hi1).
      destruct (IH (<[i := (kept, q)]> pending) st1 Hnd)
        as (st2 & done & ext2 & n2 & Hrun2 & Hck2 & Hcl2 & Hh2 & Hk2 & Hi2).
      { eapply get_path_ext; eauto. }
      { rewrite Hh. apply lookup_app_l_Some. exact Hdv. }
      { intros j x Hj Hx.
        assert (Hne : i <> j) by (intros ->; contradiction).
        rewrite list_lookup_insert_ne in Hx by exact Hne.
        destruct (Hwf j x) as [HFj Hrj]; [apply elem_of_cons; right; exact Hj | exact Hx |].
        split; [exact HFj|]. intros v Hv Hb. eapply readable_ext; [exact Hh|]. eauto. }
      { intros j Hj Hx.
        assert (Hne : i <> j) by (intros ->; contradiction).
        rewrite list_lookup_insert_ne in Hx by exact Hne.
        apply Hnone; [apply elem_of_cons; right; exact Hj | exact Hx]. }
      exists st2, done, (ext1 ++ ext2), (n1 ++ n2).
      rewrite (bind_ok _ _ _ _ _ Hrun). cbv beta.
      split; [exact Hrun2|]. split; [congruence|].
      split; [rewrite Hcl2, Hcl, app_assoc; reflexivity|].
      split; [rewrite Hh2, Hh, app_assoc; reflexivity|].
      split; [apply Forall_app; auto|].
      rewrite fmap_app, Hi1, Hi2. simpl. rewrite HF.
      destruct (state_lookup_instant p); reflexivity.
    + destruct (IH pending st Hnd Hdev Hdv)
        as (st2 & done & ext2 & n2 & Hrun2 & Hck2 & Hcl2 & Hh2 & Hk2 & Hi2).
      { intros j x Hj Hx. apply Hwf; [apply elem_of_cons; right; exact Hj | exact Hx]. }
      { intros j Hj Hx. apply Hnone; [apply elem_of_cons; right; exact Hj | exact Hx]. }
      exists st2, done, ext2, n2. split; [exact Hrun2|]. split; [exact Hck2|].
      split; [exact Hcl2|]. split; [exact Hh2|]. split; [exact Hk2|].
      simpl. rewrite (Hnone i); [exact Hi2 | apply elem_of_cons; left; reflexivity | exact Hp].
Qed.

Lemma registered_instants now st entries pending :
  Forall2 (registered host now st) entries pending ->
  omap state_lookup_instant pending.*2
  = resp_at <$> filter (fun r => answers r = true)
                  (host_devices_get host now <$> entries.*2).
Proof.
  induction 1 as [|e x es xs (_ & Ht & Hb & _) _ IH]; [reflexivity|].
  cbn [fmap list_fmap omap list_omap]. rewrite filter_cons.
  unfold state_lookup_instant at 1. rewrite Hb.
  destruct (decide (answers (host_devices_get host now e.2) = true)) as [Ha | Ha].
  - rewrite Ha. cbn [fmap list_fmap]. rewrite Ht. f_equal. exact IH.
  - apply not_true_is_false in Ha. rewrite Ha. exact IH.
Qed.

(** X19.  [configDevicesWithState] issues the metadata lookups of
    [configDevices] first, all at the instant of the call, and after them
    the state lookups: exactly one for each metadata lookup that has handed
    over a device, issued at the instant that lookup settled, so that the
    state lookups follow one another in the order in which the metadata
    lookups settle, whatever the order of the entries.  A metadata lookup
    that failed, or that answered with nothing, is followed by no state
    lookup. *)
Theorem configDevicesWithState_state_lookups_follow_metadata
    st this mc name e items entries dv mdv :
  has_config st this mc ->
  mc !! name = Some (VRef e) ->
  heap st !! e = Some (Arr items) ->
  Forall2 (fun it e => device_entry st it e.1 e.2) items entries ->
  get_path (VRef this) ["api"; "devices"] st = (st, Ok (VRef dv)) ->
  heap st !! dv = Some (Obj CDevices mdv) ->
  exists st' p states,
    configDevicesWithState host (VRef this) name st = (st', Ok (RetPromise p)) /\
    clock st' = clock st /\
    calls st' = calls st ++ map (metadata_lookup host (clock st)) entries.*2 ++ states /\
    Forall (fun c => rc_kind c = GetState /\
                     rc_response c
                     = host_devices_getState host (rc_issued_at c) (rc_arg c)) states /\
    StronglySorted le (rc_issued_at <$> states) /\
    rc_issued_at <$> states
      ≡ₚ resp_at <$> filter (fun r => answers r = true)
                       (host_devices_get host (clock st) <$> entries.*2).
Proof.
  intros Hc He Ha Hes Hdev Hdv.
  destruct (forEach_push_run (VRef this) dv mdv items entries st (clock st)
              eq_refl Hes Hdev Hdv)
    as (st1 & pending & ext1 & Hloop & Hck1 & Hcl1 & Hh1 & Hreg).
  set (F := fun i => pending.*2 !! i ≫= state_lookup_instant).
  destruct (run_later_with_state (VRef this) dv mdv F
              (settle_order pending.*2) pending st1)
    as (st2 & done & ext2 & states & Hlater & Hck2 & Hcl2 & Hh2 & Hkind & Hinst).
  { rewrite settle_order_perm. apply NoDup_seq. }
  { eapply get_path_ext; eauto. }
  { rewrite Hh1. apply lookup_app_l_Some. exact Hdv. }
  { intros i x _ Hx. split.
    - unfold F. rewrite list_lookup_fmap, Hx. reflexivity.
    - destruct (Forall2_lookup_r _ _ _ _ _ Hreg Hx) as (e0 & _ & (_ & _ & _ & Hr)).
      exact Hr. }
  { intros i _ Hx. unfold F. rewrite list_lookup_fmap, Hx. reflexivity. }
  assert (Hg : forall p t, state_lookup_instant p = Some t -> t = settled_at p).
  { intros p t. unfold state_lookup_instant. destruct (hands_over p); congruence. }
  destruct (settle_order_instants pending.*2 state_lookup_instant Hg) as [Hsorted Hperm].
  fold F in Hsorted, Hperm.
  unfold configDevicesWithState.
  run (config_entry_array _ _ _ _ _ Hc He). cbn [truthy negb].
  run (array_elems_arr _ _ _ Ha). run Hloop.
  unfold later. rewrite bind_assoc. run Hlater. unfold ret at 1.
  rewrite (bind_ok _ _ st2 st2 done.*2) by reflexivity. cbv beta.
  pose proof (silent_Promise_all done.*2 st2) as Hs. unfold silent in Hs.
  assert (Hk : clock (Promise_all done.*2 st2).1 = clock st2).
  { unfold Promise_all. destruct (first_rejected done.*2); reflexivity. }
  assert (Hp : exists q, (Promise_all done.*2 st2).2 = Ok q).
  { unfold Promise_all. destruct (first_rejected done.*2); eexists; reflexivity. }
  destruct Hp as [q Hq]. unfold bind.
  destruct (Promise_all done.*2 st2) as [st3 res]. simpl in Hs, Hk, Hq. subst res.
  unfold ret. exists st3, q, states. split; [reflexivity|].
  split; [congruence|].
  split; [rewrite Hs, Hcl2, Hcl1, <- app_assoc; reflexivity|].
  split; [exact Hkind|]. rewrite Hinst.
  split; [exact Hsorted|].
  rewrite Hperm. rewrite (registered_instants _ _ _ _ Hreg). reflexivity.
Qed.

End FanOut.

(** ** The properties on the sample contexts *)

Lemma built_updated : Sample.built Sample.update_heap = (Sample.updated, Ok (VRef 20)).
Proof. vm_compute. reflexivity. Qed.


Ltac show_config := eexists _, _, _, _; split; [reflexivity|]; split; reflexivity.



Ltac show_stored :=
  eexists; split;
    [ eexists _, _, _, _; split; [reflexivity|]; split; reflexivity
    | eexists; split; [reflexivity|]; split; reflexivity ].


Lemma updated_stores_when :
  stored_string Sample.updated 20 "when" (Some (VStr "2020-01-01T10:30:00Z")).
Proof. show_stored. Defined.


Lemma with_options_stores :
  stored_string Sample.with_options 20 "when" (Some (VStr "2020-01-01T10:30:00Z")).
Proof. show_stored. Defined.








(** C10 on the empty options object of cell 25. *)
Lemma configTimeString_fills_empty_options_witness :
  heap Sample.with_options !! 25 = Some (Obj CObject ∅) /\
  heap (configTimeString Sample.host (VRef 20) "when" (VRef 25) Sample.with_options).1 !! 25
    = Some (Obj CObject default_time_options).
Proof.
  split; [reflexivity|].
  exact (proj1 (configTimeString_fills_empty_options Sample.host Sample.with_options 20
                  "when" (VStr "2020-01-01T10:30:00Z") 25
                  with_options_stores eq_refl)).
Defined.

(** C2, the code at the failing input.  The client of the UPDATE payload
    asks for "fr" and the payload locale is "en"; the context gets "en".
    The same payload sent as an INSTALL gets "fr". *)
Theorem UPDATE_locale_ignores_client_language :
  (get_path (VRef 1) ["client"; "language"] (Sample.start Sample.update_heap)).2
    = Ok (VStr "fr") /\
  (get_prop (VRef 1) "locale" (Sample.start Sample.update_heap)).2 = Ok (VStr "en") /\
  Sample.built Sample.update_heap = (Sample.updated, Ok (VRef 20)) /\
  (get_prop (VRef 20) "locale" Sample.updated).2 = Ok (VStr "en") /\
  (let '(st, r) := Sample.built Sample.install_heap in
   r = Ok (VRef 20) /\ (get_prop (VRef 20) "locale" st).2 = Ok (VStr "fr")).
Proof.
  split; [vm_compute; reflexivity|].
  split; [vm_compute; reflexivity|].
  split; [vm_compute; reflexivity|].
  split; [vm_compute; reflexivity|].
  vm_compute. split; reflexivity.
Qed.

(** C5 on the context of the UPDATE payload, whose client is cell 24. *)
Lemma setLocationId_updates_both_copies_witness :
  exists st',
    setLocationId (VRef 20) (VStr "loc-2") Sample.updated = (st', Ok tt) /\
    get_prop (VRef 20) "locationId" st' = (st', Ok (VStr "loc-2")) /\
    get_path (VRef 20) ["api"; "locationId"] st' = (st', Ok (VStr "loc-2")).
Proof.
  refine (setLocationId_updates_both_copies Sample.updated 20 _ _ 24 _ _ (VStr "loc-2")
            _ _ _); reflexivity.
Defined.

(** C8 on the sample application, which has no context store, and on an
    application whose store has nothing for the installed app. *)
Lemma retrieveTokens_without_stored_tokens_witness :
  retrieveTokens Sample.host (VRef 20) Sample.updated
    = (Sample.updated, Ok (Fulfilled (VRef 20))) /\
  retrieveTokens Sample.host (VRef 1) Sample.with_store
    = (Sample.with_store, Ok (Fulfilled (VRef 1))).
Proof.
  split.
  - refine (retrieveTokens_without_stored_tokens Sample.host Sample.updated 20 _ _ 0 _ _
              _ _ _ _); [reflexivity | reflexivity | reflexivity | left; reflexivity].
  - refine (retrieveTokens_without_stored_tokens Sample.host Sample.with_store 1 _ _ 0 _ _
              _ _ _ _); [reflexivity | reflexivity | reflexivity | right].
    exists 2, ∅, 1, DUndef. repeat split; reflexivity.
Defined.

(** C9 on the UPDATE payload, whose [client] was cell 2. *)
Lemma constructor_clears_client_of_UPDATE_payload_witness :
  Sample.update_payload !! "client" = Some (VRef 2) /\
  heap (constructor Sample.host (VRef 0) (VRef 1) VUndef
          (Sample.start Sample.update_heap)).1 !! 1
  = Some (Obj CObject (<["client" := VUndef]> Sample.update_payload)).
Proof.
  split; [reflexivity|].
  refine (constructor_clears_client_of_UPDATE_payload Sample.host
            (Sample.start Sample.update_heap) (VRef 0) 1 CObject Sample.update_payload
            VUndef _ _); reflexivity.
Defined.

(** C6 on the payload whose lifecycle is "PING". *)
Lemma normalize_unknown_discriminator_witness :
  discriminator Sample.proactive_payload = VStr "PING" /\
  exists st1 mt,
    normalize (VRef 0) (VRef 1) VUndef (Sample.start Sample.proactive_heap)
      = (st1, Ok (VRef 17, (prop Sample.proactive_payload "authToken",
                            prop Sample.proactive_payload "refreshToken"))) /\
    heap st1 !! 17 = Some (Obj CSmartAppContext mt) /\
    prop mt "installedAppId" = prop Sample.proactive_payload "installedAppId" /\
    prop mt "locationId" = prop Sample.proactive_payload "locationId" /\
    prop mt "config" = prop Sample.proactive_payload "config" /\
    prop mt "locale" = prop Sample.proactive_payload "locale" /\
    heap st1 !! 1 = Some (Obj CObject Sample.proactive_payload) /\
    exists st2,
      constructor Sample.host (VRef 0) (VRef 1) VUndef (Sample.start Sample.proactive_heap)
      = (st2, Ok (VRef 17)).
Proof.
  split; [reflexivity|].
  refine (normalize_unknown_discriminator Sample.host (Sample.start Sample.proactive_heap)
            0 _ _ 1 CObject Sample.proactive_payload VUndef _ _ _).
  - reflexivity.
  - reflexivity.
  - apply (bool_decide_unpack _). vm_compute. exact I.
Defined.

(** C4 on the two sensors: the state lookup of the lock fails after both
    metadata lookups succeeded. *)
Lemma aggregate_fails_when_a_lookup_fails_witness :
  Exists failed Sample.lookups /\
  aggregate_failed
    (device_aggregate Sample.host true (VRef 20) "sensors" Sample.updated).2.
Proof.
  assert (H : Exists failed Sample.lookups).
  { do 2 apply Exists_cons_tl. apply Exists_cons_hd. eexists. reflexivity. }
  split; [exact H|].
  refine (aggregate_fails_when_a_lookup_fails Sample.host true (VRef 20) "sensors"
            Sample.updated Sample.lookups _ H).
  vm_compute. reflexivity.
Defined.

(** When every lookup succeeds the aggregate is fulfilled, with the records
    in the order of the config entries although the lock answered first,
    and so had its record made first, in cell 27. *)
Example configDevices_all_found :
  let '(st, r) := configDevices Sample.host (VRef 20) "sensors" Sample.updated in
  r = Ok (RetPromise (Promise 5 (Ok (VRef 29)))) /\
  heap st !! 29 = Some (Arr [VRef 28; VRef 27]) /\
  (get_prop (VRef 28) "deviceId" st).2 = Ok (VStr "lamp") /\
  (get_prop (VRef 27) "deviceId" st).2 = Ok (VStr "lock").
Proof. vm_compute. repeat split; reflexivity. Qed.

(** The record of [configDevicesWithState] for the two sensors: both
    metadata lookups at the instant of the call, then the state lookups as
    the answers arrive, the lock's at 2 and the lamp's at 5. *)
Example lookups_in_the_order_of_issue :
  (fun c => (rc_kind c, rc_issued_at c, rc_arg c)) <$> Sample.lookups
  = [(GetDevice, 0, VStr "lamp"); (GetDevice, 0, VStr "lock");
     (GetState, 2, VStr "lock"); (GetState, 5, VStr "lamp")].
Proof. vm_compute. reflexivity. Qed.

(** ** The further properties on the sample contexts *)

(** X1 on the date string of the UPDATE context. *)
Lemma scalar_accessors_read_first_entry_witness :
  configStringValue (VRef 20) "when" Sample.updated
    = (Sample.updated, Ok (VStr "2020-01-01T10:30:00Z")) /\
  configNumberValue Sample.host (VRef 20) "when" Sample.updated
    = (Sample.updated, Ok (VNum "NaN")) /\
  configDateValue Sample.host (VRef 20) "when" Sample.updated
    = (with_heap Sample.updated
         (heap Sample.updated ++ [DateObj (Some 1577874600000%Z)]),
       Ok (VRef 25)).
Proof.
  exact (scalar_accessors_read_first_entry Sample.host Sample.updated 20 "when"
           (VStr "2020-01-01T10:30:00Z") updated_stores_when).
Defined.

(** X2 on the key of the mode context that holds an empty list. *)
Lemma accessors_on_empty_entry_list_witness :
  (configStringValue (VRef 0) "none" Cases.moded).2 = Throw TypeError /\
  (configBooleanValue (VRef 0) "none" Cases.moded).2 = Throw TypeError /\
  (configNumberValue Sample.host (VRef 0) "none" Cases.moded).2 = Throw TypeError /\
  (configDateValue Sample.host (VRef 0) "none" Cases.moded).2 = Throw TypeError /\
  (configTimeString Sample.host (VRef 0) "none" VUndef Cases.moded).2 = Throw TypeError /\
  configModeIds (VRef 0) "none" Cases.moded
    = (with_heap Cases.moded (heap Cases.moded ++ [Arr []]), Ok (VRef 11)) /\
  device_aggregate Sample.host true (VRef 0) "none" Cases.moded
    = (with_heap Cases.moded (heap Cases.moded ++ [Arr []]),
       Ok (RetPromise (Promise 0 (Ok (VRef 11))))).
Proof.
  refine (accessors_on_empty_entry_list Sample.host Cases.moded 0 Cases.mode_config
            "none" 9 VUndef true _ _ _).
  - show_config.
  - reflexivity.
  - reflexivity.
Defined.

(** X3 on options that ask for a numeric hour. *)
Lemma configTimeString_keeps_given_options_witness :
  configTimeString Sample.host (VRef 20) "when" (VRef 25) Cases.with_hour
  = (with_heap Cases.with_hour
       (heap Cases.with_hour ++ [DateObj (Some 1577874600000%Z)]),
     Ok (VStr "10:30 AM")) /\
  heap Cases.with_hour !! 25 = Some (Obj CObject Cases.hour_options).
Proof.
  split; [|reflexivity].
  refine (configTimeString_keeps_given_options Sample.host Cases.with_hour 20 _ _ "when"
            (VStr "2020-01-01T10:30:00Z") 25 CObject Cases.hour_options _ _ _ _).
  - show_stored.
  - reflexivity.
  - reflexivity.
  - left. intros H. apply (f_equal (fun m => m !! "hour")) in H. discriminate H.
Defined.

(** X4 on the three modes of the mode context. *)
Lemma configModeIds_all_in_order_witness :
  configModeIds (VRef 0) "modes" Cases.moded
  = (with_heap Cases.moded
       (heap Cases.moded ++ [Arr [VStr "home"; VStr "away"; VStr "night"]]),
     Ok (VRef 11)).
Proof.
  refine (configModeIds_all_in_order Cases.moded 0 Cases.mode_config "modes" 2
            [VRef 3; VRef 5; VRef 7] [VStr "home"; VStr "away"; VStr "night"] _ _ _ _).
  - show_config.
  - reflexivity.
  - reflexivity.
  - repeat (constructor; [reflexivity|]). constructor.
Defined.

(** X5 on the date accessors of the UPDATE context and the application
    cell. *)
Lemma accessors_only_read_witness :
  (preserves (keeps 0) (configStringValue (VRef 20) "when") /\
   preserves (keeps 0) (configBooleanValue (VRef 20) "when") /\
   preserves (keeps 0) (configNumberValue Sample.host (VRef 20) "when") /\
   preserves (keeps 0) (configDateValue Sample.host (VRef 20) "when") /\
   preserves (keeps 0) (configTimeString Sample.host (VRef 20) "when" VUndef) /\
   preserves (keeps 0) (configModeIds (VRef 20) "when")) /\
  (preserves silent (configStringValue (VRef 20) "when") /\
   preserves silent (configBooleanValue (VRef 20) "when") /\
   preserves silent (configNumberValue Sample.host (VRef 20) "when") /\
   preserves silent (configDateValue Sample.host (VRef 20) "when") /\
   preserves silent (configTimeString Sample.host (VRef 20) "when" VUndef) /\
   preserves silent (configModeIds (VRef 20) "when")).
Proof.
  refine (accessors_only_read Sample.host (VRef 20) "when" VUndef 0 _). discriminate.
Defined.

(** X6 on the context of the CONFIGURATION payload, which has the sensors
    and no client. *)
Lemma device_aggregate_without_client_witness :
  device_aggregate Sample.host false (VRef 19) "sensors" Cases.configured
    = (Cases.configured, Throw TypeError) /\
  device_aggregate Sample.host true (VRef 19) "sensors" Cases.configured
    = (Cases.configured, Throw TypeError).
Proof.
  split.
  - refine (device_aggregate_without_client Sample.host Cases.configured 19 _ _ _
              "sensors" 14 (VRef 15) [VRef 17] (VStr "main") 20 _ _ false
              _ _ _ _ _ _ _ _);
      [ reflexivity | show_config | reflexivity | reflexivity | reflexivity
      | reflexivity | reflexivity | reflexivity ].
  - refine (device_aggregate_without_client Sample.host Cases.configured 19 _ _ _
              "sensors" 14 (VRef 15) [VRef 17] (VStr "main") 20 _ _ true
              _ _ _ _ _ _ _ _);
      [ reflexivity | show_config | reflexivity | reflexivity | reflexivity
      | reflexivity | reflexivity | reflexivity ].
Defined.

(** X7 with and without a context store. *)
Lemma deleteContext_outcome_witness :
  deleteContext Sample.host (VRef 1) Sample.with_store
    = (Sample.with_store, Ok (Fulfilled tt)) /\
  deleteContext Sample.host (VRef 20) Sample.updated
    = (Sample.updated, Ok (Fulfilled tt)).
Proof.
  split.
  - etransitivity;
      [ eapply (deleteContext_outcome Sample.host Sample.with_store 1 _ _ 0);
        [ reflexivity | reflexivity | reflexivity
        | right; exists 2, ∅; split; reflexivity ]
      | reflexivity ].
  - etransitivity;
      [ eapply (deleteContext_outcome Sample.host Sample.updated 20 _ _ 0);
        [ reflexivity | reflexivity | reflexivity | left; reflexivity ]
      | reflexivity ].
Defined.

(** X8 on the INSTALL payload, whose client asks for French. *)
Lemma normalize_INSTALL_witness :
  exists st1 mt,
    normalize (VRef 0) (VRef 1) VUndef (Sample.start Sample.install_heap)
      = (st1, Ok (VRef 20, (VStr "tok", VStr "ref"))) /\
    heap st1 !! 20 = Some (Obj CSmartAppContext mt) /\
    prop mt "executionId" = VStr "e1" /\
    prop mt "installedAppId" = VStr "app-1" /\
    prop mt "locationId" = VStr "loc-1" /\
    prop mt "config" = VRef 5 /\
    prop mt "locale" = VStr "fr" /\
    heap st1 !! 1 = Some (Obj CObject Sample.install_payload).
Proof.
  refine (normalize_INSTALL (Sample.start Sample.install_heap) (VRef 0) 1 CObject
            Sample.install_payload VUndef (VStr "tok") (VStr "ref") (VStr "app-1")
            (VStr "loc-1") (VRef 5) (VStr "fr") _ _ _ _ _ _ _ _);
    reflexivity.
Defined.

(** X9 on an EVENT payload that names its kind in [messageType]. *)
Lemma normalize_EVENT_witness :
  exists st1 mt,
    normalize (VRef 0) (VRef 1) VUndef (Sample.start Cases.event_heap)
      = (st1, Ok (VRef 19, (VStr "tok", VUndef))) /\
    heap st1 !! 19 = Some (Obj CSmartAppContext mt) /\
    prop mt "executionId" = VStr "e3" /\
    prop mt "installedAppId" = VStr "app-1" /\
    prop mt "locationId" = VStr "loc-1" /\
    prop mt "config" = VRef 4 /\
    prop mt "locale" = VStr "en" /\
    heap st1 !! 1 = Some (Obj CObject Cases.event_payload).
Proof.
  refine (normalize_EVENT (Sample.start Cases.event_heap) (VRef 0) 1 CObject
            Cases.event_payload VUndef (VStr "tok") (VStr "app-1") (VStr "loc-1")
            (VRef 4) _ _ _ _ _ _);
    reflexivity.
Defined.

(** X10 on an EXECUTE payload whose parameters ask for German. *)
Lemma normalize_EXECUTE_witness :
  exists st1 mt,
    normalize (VRef 0) (VRef 1) VUndef (Sample.start Cases.execute_heap)
      = (st1, Ok (VRef 20, (VStr "tok", VUndef))) /\
    heap st1 !! 20 = Some (Obj CSmartAppContext mt) /\
    prop mt "executionId" = VStr "e4" /\
    prop mt "installedAppId" = VStr "app-1" /\
    prop mt "locationId" = VStr "loc-1" /\
    prop mt "config" = VRef 5 /\
    prop mt "locale" = VStr "de" /\
    heap st1 !! 1 = Some (Obj CObject Cases.execute_payload).
Proof.
  refine (normalize_EXECUTE (Sample.start Cases.execute_heap) (VRef 0) 1 CObject
            Cases.execute_payload VUndef (VStr "tok") (VStr "app-1") (VStr "loc-1")
            (VRef 5) (VStr "de") _ _ _ _ _ _ _);
    reflexivity.
Defined.

(** X11 on a CONFIGURATION payload, whose client asks for French. *)
Lemma normalize_CONFIGURATION_witness :
  exists st1 mt,
    normalize (VRef 0) (VRef 1) VUndef (Sample.start Cases.configuration_heap)
      = (st1, Ok (VRef 19, (VUndef, VUndef))) /\
    heap st1 !! 19 = Some (Obj CSmartAppContext mt) /\
    prop mt "executionId" = VStr "e5" /\
    prop mt "installedAppId" = VStr "app-1" /\
    prop mt "locationId" = VStr "loc-1" /\
    prop mt "config" = VRef 4 /\
    prop mt "locale" = VStr "fr" /\
    heap st1 !! 1 = Some (Obj CObject Cases.configuration_payload).
Proof.
  refine (normalize_CONFIGURATION (Sample.start Cases.configuration_heap) (VRef 0) 1
            CObject Cases.configuration_payload VUndef (VStr "app-1") (VStr "loc-1")
            (VRef 4) (VStr "fr") _ _ _ _ _ _);
    reflexivity.
Defined.

(** X12 on an INSTALL payload without [installData]. *)
Lemma known_lifecycle_needs_its_data_witness :
  (normalize (VRef 0) (VRef 1) VUndef (Sample.start Cases.bare_heap)).2
    = Throw TypeError /\
  (constructor Sample.host (VRef 0) (VRef 1) VUndef (Sample.start Cases.bare_heap)).2
    = Throw TypeError.
Proof.
  refine (known_lifecycle_needs_its_data Sample.host (Sample.start Cases.bare_heap)
            (VRef 0) 1 CObject Cases.bare_payload VUndef "INSTALL" "installData"
            _ _ _ _).
  - reflexivity.
  - constructor 2. constructor 1.
  - reflexivity.
  - reflexivity.
Defined.

(** X13 on the UNINSTALL payload. *)
Lemma constructor_UNINSTALL_witness :
  (constructor Sample.host (VRef 0) (VRef 1) VUndef
     (Sample.start Sample.uninstall_heap)).2 = Ok (VRef 4) /\
  (isAuthenticated (VRef 4)
     (constructor Sample.host (VRef 0) (VRef 1) VUndef
        (Sample.start Sample.uninstall_heap)).1).2 = Ok false.
Proof.
  destruct (constructor_UNINSTALL Sample.host (Sample.start Sample.uninstall_heap)
              0 CSmartApp _ 1 CObject Sample.uninstall_payload VUndef
              (VStr "app-1") (VStr "loc-1")
              eq_refl eq_refl eq_refl eq_refl eq_refl)
    as (Hrun & _ & _ & _ & Hauth).
  rewrite Hrun. split; [reflexivity|]. exact (f_equal snd Hauth).
Defined.

(** X14 on the context of the UNINSTALL payload, given a token. *)
Lemma constructor_connects_with_a_token_witness :
  exists st' locationId installedAppId,
    localize_and_connect Sample.host (VRef 0) VUndef (VRef 4) (VStr "tok") (VStr "ref")
      Sample.uninstalled = (st', Ok (VRef 4)) /\
    isAuthenticated (VRef 4) st' = (st', Ok true) /\
    get_path (VRef 4) ["api"; "client"; "authToken"] st' = (st', Ok (VStr "tok")) /\
    get_path (VRef 4) ["api"; "client"; "refreshToken"] st' = (st', Ok (VStr "ref")) /\
    get_path (VRef 4) ["api"; "client"; "apiMutex"] st' = (st', Ok VUndef) /\
    get_prop (VRef 4) "locationId" st' = (st', Ok locationId) /\
    get_path (VRef 4) ["api"; "locationId"] st' = (st', Ok locationId) /\
    get_prop (VRef 4) "installedAppId" st' = (st', Ok installedAppId) /\
    get_path (VRef 4) ["api"; "installedAppId"] st' = (st', Ok installedAppId).
Proof.
  eapply (constructor_connects_with_a_token Sample.host Sample.uninstalled 4 _ _ 0);
    reflexivity.
Defined.

(** X15 on an application with localization enabled. *)
Lemma localization_needs_a_locale_witness :
  (localize_and_connect Sample.host (VRef 0) VUndef (VRef 1) VUndef VUndef
     Cases.localized).2 = Ok (VRef 1) /\
  (get_path (VRef 1) ["headers"; "accept-language"]
     (localize_and_connect Sample.host (VRef 0) VUndef (VRef 1) VUndef VUndef
        Cases.localized).1).2 = Ok (VStr "fr") /\
  localize_and_connect Sample.host (VRef 0) VUndef (VRef 4) VUndef VUndef
    Sample.uninstalled = (Sample.uninstalled, Ok (VRef 4)).
Proof.
  split; [|split].
  - rewrite (localization_needs_a_locale Sample.host Cases.localized 1 _ _ 0 _ _
               VUndef VUndef VUndef eq_refl eq_refl eq_refl).
    reflexivity.
  - rewrite (localization_needs_a_locale Sample.host Cases.localized 1 _ _ 0 _ _
               VUndef VUndef VUndef eq_refl eq_refl eq_refl).
    reflexivity.
  - etransitivity;
      [ eapply (localization_needs_a_locale Sample.host Sample.uninstalled 4 _ _ 0);
        reflexivity
      | reflexivity ].
Defined.

(** X16 on a context store that knows the installed application. *)
Lemma retrieveTokens_with_stored_tokens_witness :
  exists st',
    retrieveTokens Cases.keeper (VRef 1) Sample.with_store
      = (st', Ok (Fulfilled (VRef 1))) /\
    get_prop (VRef 1) "locationId" st' = (st', Ok (VStr "loc-2")) /\
    get_path (VRef 1) ["api"; "locationId"] st' = (st', Ok (VStr "loc-2")) /\
    get_path (VRef 1) ["api"; "client"; "authToken"] st' = (st', Ok (VStr "tok-2")) /\
    get_path (VRef 1) ["api"; "client"; "refreshToken"] st' = (st', Ok (VStr "ref-2")) /\
    get_path (VRef 1) ["api"; "client"; "apiMutex"] st' = (st', Ok (VRef 5)) /\
    heap st' !! 5 = Some (Obj CMutex ∅) /\
    isAuthenticated (VRef 1) st' = (st', Ok true) /\
    (forall k, k <> "locationId" -> k <> "api" ->
               get_prop (VRef 1) k st'
               = (st', Ok (prop (list_to_map [("app", VRef 0); ("installedAppId", VStr "app-1");
                                              ("locationId", VStr "loc-1"); ("api", VRef 3)])
                             k))).
Proof.
  refine (retrieveTokens_with_stored_tokens Cases.keeper Sample.with_store
            1 CSmartAppContext
            (list_to_map [("app", VRef 0); ("installedAppId", VStr "app-1");
                          ("locationId", VStr "loc-1"); ("api", VRef 3)])
            0 CSmartApp (list_to_map [("_contextStore", VRef 2)])
            2 ∅ 4 Cases.stored 4
            (heap Sample.with_store ++
               [Obj CObject (list_to_map [("authToken", VStr "tok-2");
                                          ("refreshToken", VStr "ref-2");
                                          ("locationId", VStr "loc-2")])])
            CObject
            (list_to_map [("authToken", VStr "tok-2"); ("refreshToken", VStr "ref-2");
                          ("locationId", VStr "loc-2")])
            _ _ _ _ _ _ _ _ _);
    try reflexivity.
  discriminate.
Defined.

(** X17 on the two sensors of the UPDATE context. *)
Lemma configDevices_issues_every_lookup_at_once_witness :
  exists st' p,
    configDevices Sample.host (VRef 20) "sensors" Sample.updated
      = (st', Ok (RetPromise p)) /\
    clock st' = 0 /\
    calls st' = [metadata_lookup Sample.host 0 (VStr "lamp");
                 metadata_lookup Sample.host 0 (VStr "lock")].
Proof.
  eapply (configDevices_issues_every_lookup_at_once Sample.host Sample.updated 20 _
            "sensors" 15 [VRef 16; VRef 18]
            [(VStr "main", VStr "lamp"); (VStr "bolt", VStr "lock")] 23).
  - show_config.
  - reflexivity.
  - reflexivity.
  - repeat (constructor; [split; reflexivity|]). constructor.
  - reflexivity.
  - reflexivity.
Defined.

(** X18 on the two sensors: the lamp answers after the lock and still
    comes first. *)
Lemma configDevices_keeps_entry_order_witness :
  exists arr recs,
    outcome Cases.sensors_promise = Ok (VRef arr) /\
    heap Cases.sensors_state !! arr = Some (Arr recs) /\
    Forall2 (record_for Cases.sensors_state) [VStr "main"; VStr "bolt"] recs /\
    settled_at Cases.sensors_promise = 5.
Proof.
  eapply (configDevices_keeps_entry_order Sample.host Sample.updated 20 _
            "sensors" 15 [VRef 16; VRef 18]
            [(VStr "main", VStr "lamp"); (VStr "bolt", VStr "lock")] 23).
  - show_config.
  - reflexivity.
  - reflexivity.
  - repeat (constructor; [split; reflexivity|]). constructor.
  - reflexivity.
  - reflexivity.
  - vm_compute. reflexivity.
  - reflexivity.
Defined.

(** X19 on the two sensors: the lock is looked up second and answers
    first, so its state is asked for first. *)
Lemma configDevicesWithState_state_lookups_follow_metadata_witness :
  exists st' p states,
    configDevicesWithState Sample.host (VRef 20) "sensors" Sample.updated
      = (st', Ok (RetPromise p)) /\
    clock st' = 0 /\
    calls st' = [metadata_lookup Sample.host 0 (VStr "lamp");
                 metadata_lookup Sample.host 0 (VStr "lock")] ++ states /\
    Forall (fun c => rc_kind c = GetState /\
                     rc_response c
                     = host_devices_getState Sample.host (rc_issued_at c) (rc_arg c))
           states /\
    StronglySorted le (rc_issued_at <$> states) /\
    rc_issued_at <$> states ≡ₚ [5; 2].
Proof.
  eapply (configDevicesWithState_state_lookups_follow_metadata Sample.host
            Sample.updated 20 _ "sensors" 15 [VRef 16; VRef 18]
            [(VStr "main", VStr "lamp"); (VStr "bolt", VStr "lock")] 23).
  - show_config.
  - reflexivity.
  - reflexivity.
  - repeat (constructor; [split; reflexivity|]). constructor.
  - reflexivity.
  - reflexivity.
Defined.

